(** * modelserver-node: transaction context, transaction manager and gateway backstop

    A shallow embedding of
    - [DefaultTransactionContext] and [InternalModelServerClient]
      (client/model-server-client.ts), and
    - the route installation and forwarding logic of [ModelServer]
      (server.ts),
    together with the properties that the design document states about them.

    Conventions.
    - A JavaScript promise is modelled by its settlement: an asynchronous
      method is a function from the state of the context to an [Outcome] and a
      new state.  The writer of a transaction is single (design document, 5),
      so calls do not interleave.
    - An optional field ([patch?], [patchModel?], [options?]) is an [option].
    - The array [nestedContexts] is used only through [push], [pop] and the
      index [length - 1]; it is kept as a list whose head is the top of the
      stack. *)

From Stdlib Require Import Ascii String.
From stdpp Require Import base gmap sets list strings.

(** ** Data shared by the modules *)

(** A URI of the [urijs] library, identified with its string form. *)
Definition URI : Type := string.

(** A JSON Patch operation of [fast-json-patch]. *)
Record Operation : Type := mkOperation {
  op : string;
  path : string;
  value : option string
}.

(** Any JavaScript object, kept opaque. *)
Definition AnyObject : Type := string.

(** [ModelUpdateResult] of the client library:
    [{ success: boolean, patch?: Operation[], patchModel?: any }]. *)
Record ModelUpdateResult : Type := mkResult {
  success : bool;
  patch : option (list Operation);
  patchModel : option AnyObject
}.

(** [ModelServerCommand]: an opaque object with a [type] tag. *)
Record ModelServerCommand : Type := mkCommand {
  command_type : string;
  command_data : AnyObject
}.

(** The argument of [applyPatch]: [Operation | Operation[]], or a nil value. *)
Inductive PatchArg : Type :=
| NilPatch
| OnePatch (operation : Operation)
| ManyPatch (operations : list Operation).

(** The reason of a rejected promise. *)
Definition Reason : Type := string.

(** How an awaited promise of somebody else settles. *)
Inductive Settled (A : Type) : Type :=
| Fulfilled (a : A)
| Failed (reason : Reason).
Arguments Fulfilled {A} a.
Arguments Failed {A} reason.

Module Transaction.

(** ** Plug-in callbacks *)

(** A transaction function [(executor: Executor) => Promise<boolean>].  The
    function reaches the context only through the [Executor] interface, so it
    is the tree of the calls it makes: each [await executor.execute(..)] or
    [await executor.applyPatch(..)] continues with the way the call settled
    (a [try]/[catch] around the call sees [Failed]; without one the
    continuation is [TxThrow]). *)
Inductive Transaction : Type :=
| TxReturn (result : bool)
| TxThrow (reason : Reason)
| TxExecute (modelUri : URI) (command : ModelServerCommand)
            (k : Settled ModelUpdateResult -> Transaction)
| TxApplyPatch (patch : PatchArg)
               (k : Settled ModelUpdateResult -> Transaction).

(** What [CommandProviderRegistry.getCommands] resolves to:
    [ModelServerCommand | Operation[] | Transaction]. *)
Inductive Provided : Type :=
| ProvidedTransaction (fn : Transaction)
| ProvidedCommand (command : ModelServerCommand)
| ProvidedPatch (patch : PatchArg).

(** What [TriggerProviderRegistry.getTriggers] resolves to:
    [Operation[] | Transaction], or nothing. *)
Inductive Triggers : Type :=
| NoTriggers
| TriggerPatch (operations : list Operation)
| TriggerTransaction (fn : Transaction).

(** ** Wire messages *)

Inductive MessageType : Type :=
| execute_msg | close_msg | roll_back_msg | incrementalUpdate_msg | success_msg.

(** [ExecuteMessageBody = ExecuteCommand | ExecutePatch]. *)
Inductive ExecuteMessageBody : Type :=
| ExecuteCommand (data : ModelServerCommand)
| ExecutePatch (data : PatchArg).

Inductive MessageData : Type :=
| EmptyData
| ExecuteData (body : ExecuteMessageBody)
| ErrorData (error : Reason).

(** [ModelServerTransactionMessage]: [{ type, modeluri, data }]. *)
Record MessageBody : Type := mkMessage {
  type : MessageType;
  modeluri : URI;
  data : MessageData
}.

(** ** State of a context *)

Inductive ReadyState : Type := CONNECTING | OPEN | CLOSING | CLOSED.

(** State of the [CompletablePromise] [uuid]. *)
Inductive Promise (A : Type) : Type :=
| PromisePending
| PromiseResolved (a : A)
| PromiseRejected (reason : Reason).
Arguments PromisePending {A}.
Arguments PromiseResolved {A} a.
Arguments PromiseRejected {A} reason.

Record NestedEditContext : Type := mkNested {
  aggregatedUpdateResult : ModelUpdateResult
}.

(** What Upstream does while the context awaits the reply to an [execute]
    ([WebSocketMessageAcceptor.promise], of web-socket-utils, is outside the
    files at hand and is taken as the environment): a message arrives and is
    mapped by [MessageDataMapper.patchModel]; or the promise rejects; or the
    socket closes, the [onclose] handler installed by [open] runs and the
    promise rejects. *)
Inductive Incoming : Type :=
| Reply (result : ModelUpdateResult)
| ReplyError (reason : Reason)
| SocketClose (reason : Reason).

(** The fields of [DefaultTransactionContext], the messages handed to
    [socket.send] so far (oldest first) and what Upstream is going to
    answer. *)
Record Context : Type := mkContext {
  socket : option ReadyState;
  uuid : Promise string;
  nestedContexts : list NestedEditContext;
  sent : list MessageBody;
  upstream : list Incoming
}.

Definition set_socket (s : option ReadyState) (c : Context) : Context :=
  mkContext s (uuid c) (nestedContexts c) (sent c) (upstream c).
Definition set_uuid (u : Promise string) (c : Context) : Context :=
  mkContext (socket c) u (nestedContexts c) (sent c) (upstream c).
Definition set_nestedContexts (n : list NestedEditContext) (c : Context) : Context :=
  mkContext (socket c) (uuid c) n (sent c) (upstream c).
Definition set_sent (m : list MessageBody) (c : Context) : Context :=
  mkContext (socket c) (uuid c) (nestedContexts c) m (upstream c).
Definition set_upstream (i : list Incoming) (c : Context) : Context :=
  mkContext (socket c) (uuid c) (nestedContexts c) (sent c) i.

(** ** Asynchronous methods *)

Inductive Outcome (A : Type) : Type :=
| Resolved (a : A)
| Rejected (reason : Reason)
| Suspended          (* awaits something that has not arrived *)
| OutOfFuel.         (* the bound on the recursion was too small *)
Arguments Resolved {A} a.
Arguments Rejected {A} reason.
Arguments Suspended {A}.
Arguments OutOfFuel {A}.

Definition Async (A : Type) : Type := Context -> Outcome A * Context.

Definition resolve {A} (a : A) : Async A := fun c => (Resolved a, c).
Definition reject {A} (reason : Reason) : Async A := fun c => (Rejected reason, c).

Definition bind {A B} (m : Async A) (k : A -> Async B) : Async B := fun c =>
  match m c with
  | (Resolved a, c') => k a c'
  | (Rejected reason, c') => (Rejected reason, c')
  | (Suspended, c') => (Suspended, c')
  | (OutOfFuel, c') => (OutOfFuel, c')
  end.

Notation "'let!' x ':=' m 'in' k" := (bind m (fun x => k))
  (at level 10, x name, m at level 100, k at level 200).

(** [promise.catch(reason => handler)]. *)
Definition catch {A} (m : Async A) (handler : Reason -> Async A) : Async A := fun c =>
  match m c with
  | (Rejected reason, c') => handler reason c'
  | settled => settled
  end.

(** [try { body } finally { cleanup }], the value of [cleanup] being what the
    code after the block returns. *)
Definition try_finally {A B} (body : Async A) (cleanup : Async B) : Async B := fun c =>
  match body c with
  | (Resolved _, c') => cleanup c'
  | (Rejected reason, c') =>
      match cleanup c' with
      | (Resolved _, c'') => (Rejected reason, c'')
      | (Rejected reason', c'') => (Rejected reason', c'')
      | (Suspended, c'') => (Suspended, c'')
      | (OutOfFuel, c'') => (OutOfFuel, c'')
      end
  | (Suspended, c') => (Suspended, c')
  | (OutOfFuel, c') => (OutOfFuel, c')
  end.

(** ** [mergeModelUpdateResult] and the stack of nested contexts *)

(** The test [src?.patch && src.patch.length], also that of the loop of
    [commit]. *)
Definition has_operations (p : option (list Operation)) : bool :=
  match p with
  | Some (_ :: _) => true
  | _ => false
  end.

(** JavaScript truthiness of an optional object. *)
Definition truthy {A} (o : option A) : bool :=
  match o with Some _ => true | None => false end.

(** [mergeModelUpdateResult(dst, src?)]: the new contents of [dst]. *)
Definition mergeModelUpdateResult (dst : ModelUpdateResult) (src : option ModelUpdateResult)
  : ModelUpdateResult :=
  match src with
  | Some src =>
      if has_operations (patch src) then
        let success' := success dst && success src in
        let patch' := default [] (patch dst) ++ default [] (patch src) in
        let patchModel' :=
          if success' && truthy (patchModel src) then patchModel src else patchModel dst in
        mkResult success' (Some patch') patchModel'
      else dst
  | None => dst
  end.

(** [const transactionClosed: ModelUpdateResult = { success: false }]. *)
Definition transactionClosed : ModelUpdateResult := mkResult false None None.

(** Modelled from the spec: [MessageDataMapper.patchModel] of the client
    library applied to [{ type: 'success', data: { patch: [] } }], the
    aggregate of a new frame, "of shape [{success: true, patch: []}]". *)
Definition emptyUpdateResult : ModelUpdateResult := mkResult true (Some []) None.

Definition isOpen (c : Context) : bool :=
  match socket c with
  | Some OPEN => true
  | _ => false
  end.

(** Thrown when [undefined] is destructured. *)
Definition TypeError : Reason := "TypeError: Cannot destructure property 'aggregatedUpdateResult'".

(** Thrown when a property of [undefined] is read. *)
Definition NoSocket : Reason := "TypeError: Cannot read properties of undefined (reading 'send')".

Definition pushNestedContext : Async bool := fun c =>
  let stack := mkNested emptyUpdateResult :: nestedContexts c in
  (Resolved (length stack =? 1), set_nestedContexts stack c).

Definition peekNestedContext (c : Context) : option NestedEditContext :=
  match nestedContexts c with
  | top :: _ => Some top
  | [] => None
  end.

Definition popNestedContext : Async ModelUpdateResult := fun c =>
  match nestedContexts c with
  | [] => (Rejected TypeError, c)
  | mkNested result :: rest =>
      match rest with
      | mkNested current :: rest' =>
          (Resolved result,
           set_nestedContexts (mkNested (mergeModelUpdateResult current (Some result)) :: rest') c)
      | [] => (Resolved result, set_nestedContexts [] c)
      end
  end.

(** ** The methods of [DefaultTransactionContext] *)

Section Methods.

(** [this.modelURI] and the two registries, fixed at construction.  The
    registries are outside the files at hand; an awaited registry call
    either resolves or rejects. *)
Variable modelURI : URI.
Variable hasProvider : string -> bool.
Variable getCommands : URI -> ModelServerCommand -> Settled Provided.
Variable getTriggers : URI -> list Operation -> Settled Triggers.

(** [message(type, data = {})]. *)
Definition message (t : MessageType) (d : MessageData) : MessageBody :=
  mkMessage t modelURI d.

(** [this.socket.send(JSON.stringify(m))].  The handler [onclose] sets
    [this.socket] to [undefined]; reading [send] of it throws. *)
Definition socket_send (m : MessageBody) : Async unit := fun c =>
  match socket c with
  | Some _ => (Resolved tt, set_sent (sent c ++ [m]) c)
  | None => (Rejected NoSocket, c)
  end.

(** [await] of a promise of a registry. *)
Definition await_settled {A} (s : Settled A) : Async A :=
  match s with
  | Fulfilled a => resolve a
  | Failed reason => reject reason
  end.

(** [await this.getUUID()]. *)
Definition await_uuid : Async string := fun c =>
  match uuid c with
  | PromiseResolved u => (Resolved u, c)
  | PromiseRejected reason => (Rejected reason, c)
  | PromisePending => (Suspended, c)
  end.

Definition rollback (error : Reason) : Async ModelUpdateResult := fun c =>
  if isOpen c then
    (let! _ := socket_send (message roll_back_msg (ErrorData error)) in
     resolve transactionClosed) c
  else resolve transactionClosed c.

Definition autoRollback {A} (editResult : Async A) : Async A :=
  catch editResult (fun reason =>
    let! _ := rollback reason in
    reject reason).

(** The reply awaited by [sendExecuteMessage], merged into the aggregate
    [current] that was on top of the stack when the message was sent. *)
Definition await_reply : Async ModelUpdateResult := fun c =>
  match upstream c with
  | [] => (Suspended, c)
  | Reply modelUpdateResult :: rest =>
      match nestedContexts c with
      | mkNested current :: below =>
          (Resolved modelUpdateResult,
           set_upstream rest
             (set_nestedContexts
                (mkNested (mergeModelUpdateResult current (Some modelUpdateResult)) :: below) c))
      | [] => (Resolved modelUpdateResult, set_upstream rest c)
      end
  | ReplyError reason :: rest => (Rejected reason, set_upstream rest c)
  | SocketClose reason :: rest => (Rejected reason, set_upstream rest (set_socket None c))
  end.

Definition sendExecuteMessage (body : ExecuteMessageBody) : Async ModelUpdateResult := fun c =>
  if negb (isOpen c) then reject "Socket is closed." c
  else
    (let! _ := await_uuid in
     fun c' =>
       match peekNestedContext c' with
       | None => reject TypeError c'
       | Some _ =>
           (let! _ := socket_send (message execute_msg (ExecuteData body)) in
            await_reply) c'
       end) c.

Definition sendPatch (p : PatchArg) : Async ModelUpdateResult :=
  sendExecuteMessage (ExecutePatch p).

Definition sendCommand (command : ModelServerCommand) : Async ModelUpdateResult :=
  sendExecuteMessage (ExecuteCommand command).

(** [!patch || (Array.isArray(patch) && patch.length === 0)]. *)
Definition is_empty_patch (p : PatchArg) : bool :=
  match p with
  | NilPatch => true
  | ManyPatch [] => true
  | _ => false
  end.

Definition applyPatch (p : PatchArg) : Async ModelUpdateResult := fun c =>
  if negb (isOpen c) then reject "Socket is closed." c
  else if is_empty_patch p then resolve (mkResult false None None) c
  else autoRollback (sendPatch p) c.

(** [await provided(this)]: the transaction function run against this
    context, [execute] being the method it reaches through [this]. *)
Fixpoint runTransaction (execute : URI -> ModelServerCommand -> Async ModelUpdateResult)
    (fn : Transaction) : Async bool := fun c =>
  match fn with
  | TxReturn result => (Resolved result, c)
  | TxThrow reason => (Rejected reason, c)
  | TxExecute modelUri command k =>
      match execute modelUri command c with
      | (Resolved r, c') => runTransaction execute (k (Fulfilled r)) c'
      | (Rejected reason, c') => runTransaction execute (k (Failed reason)) c'
      | (Suspended, c') => (Suspended, c')
      | (OutOfFuel, c') => (OutOfFuel, c')
      end
  | TxApplyPatch p k =>
      match applyPatch p c with
      | (Resolved r, c') => runTransaction execute (k (Fulfilled r)) c'
      | (Rejected reason, c') => runTransaction execute (k (Failed reason)) c'
      | (Suspended, c') => (Suspended, c')
      | (OutOfFuel, c') => (OutOfFuel, c')
      end
  end.

(** [doExecute], with the [execute] that a transaction function calls back. *)
Definition doExecute (execute : URI -> ModelServerCommand -> Async ModelUpdateResult)
    (modelUri : URI) (command : ModelServerCommand) : Async ModelUpdateResult :=
  if negb (hasProvider (command_type command)) then sendCommand command
  else
    let! provided := await_settled (getCommands modelUri command) in
    match provided with
    | ProvidedTransaction fn =>
        let! _ := pushNestedContext in
        let! success := runTransaction execute fn in
        if negb success then
          let! _ := popNestedContext in
          reject "Command execution failed."
        else popNestedContext
    | ProvidedCommand substitute => sendCommand substitute
    | ProvidedPatch substitute => sendPatch substitute
    end.

(** [execute].  A command may expand into a transaction function that
    executes further commands, without bound; [fuel] bounds the depth of
    that nesting. *)
Fixpoint execute (fuel : nat) (modelUri : URI) (command : ModelServerCommand)
  : Async ModelUpdateResult :=
  match fuel with
  | 0 => fun c => (OutOfFuel, c)
  | S fuel' => fun c =>
      if negb (isOpen c) then reject "Socket is closed." c
      else autoRollback (doExecute (execute fuel') modelUri command) c
  end.

(** [hasTriggers]. *)
Definition hasTriggers (triggers : Triggers) : bool :=
  match triggers with
  | NoTriggers => false
  | TriggerTransaction _ => true
  | TriggerPatch operations => negb (length operations =? 0)
  end.

Definition performTriggers (fuel : nat) (triggers : Triggers) : Async ModelUpdateResult :=
  let! _ := pushNestedContext in
  try_finally
    match triggers with
    | TriggerTransaction fn =>
        let! _ := runTransaction (execute fuel) fn in resolve tt
    | TriggerPatch operations =>
        let! _ := applyPatch (ManyPatch operations) in resolve tt
    | NoTriggers =>
        let! _ := applyPatch NilPatch in resolve tt
    end
    popNestedContext.

(** The [while] loop of [commit]: the final contents of [updateResult].
    Triggers may produce new deltas for ever; [fuel] bounds the number of
    iterations (and the nesting of commands inside each). *)
Fixpoint commit_loop (fuel : nat) (updateResult : ModelUpdateResult)
    (modelDelta : option (list Operation)) : Async ModelUpdateResult :=
  match fuel with
  | 0 => fun c => (OutOfFuel, c)
  | S fuel' =>
      if has_operations modelDelta then
        let! triggers :=
          autoRollback (await_settled (getTriggers modelURI (default [] modelDelta))) in
        if negb (hasTriggers triggers) then resolve updateResult
        else
          let! triggerResult := performTriggers fuel' triggers in
          commit_loop fuel'
            (mergeModelUpdateResult updateResult (Some triggerResult))
            (patch triggerResult)
      else resolve updateResult
  end.

Definition commit (fuel : nat) : Async ModelUpdateResult :=
  let! updateResult := popNestedContext in
  fun c =>
    if negb (isOpen c) then resolve transactionClosed c
    else
      (let! updateResult' := commit_loop fuel updateResult (patch updateResult) in
       let! _ := socket_send (message close_msg EmptyData) in
       resolve updateResult') c.

(** [edit]: a command goes to [execute], anything else to [applyPatch]. *)
Definition edit (fuel : nat) (patchOrCommand : PatchArg + ModelServerCommand)
  : Async ModelUpdateResult :=
  match patchOrCommand with
  | inr command => execute fuel modelURI command
  | inl p => applyPatch p
  end.

(** The members of the object returned by [openTransaction()], each bound
    to a method of the parent. *)
Inductive ChildMethod : Type :=
| child_edit (patchOrCommand : PatchArg + ModelServerCommand)
| child_applyPatch (p : PatchArg)
| child_execute (modelUri : URI) (command : ModelServerCommand)
| child_rollback (error : Reason)
| child_commit.

Definition openTransaction : Async unit :=
  let! _ := pushNestedContext in resolve tt.

Definition child_call (fuel : nat) (m : ChildMethod) : Async ModelUpdateResult :=
  match m with
  | child_edit patchOrCommand => edit fuel patchOrCommand
  | child_applyPatch p => applyPatch p
  | child_execute modelUri command => execute fuel modelUri command
  | child_rollback error => rollback error
  | child_commit => popNestedContext
  end.

End Methods.

(** ** The socket handlers installed by [open] *)

(** A context as constructed, after [open] has run its executor: no socket
    yet, the promise of the UUID pending, the root frame pushed. *)
Definition opening (replies : list Incoming) : Context :=
  mkContext None PromisePending [mkNested emptyUpdateResult] [] replies.

(** [socket.onopen]: the socket is stored; the first textual message is
    awaited. *)
Definition onopen (c : Context) : Context := set_socket (Some OPEN) c.

(** The first textual message resolves [uuid] (and the promise of [open]). *)
Definition on_uuid (uuid_ : string) (c : Context) : Context :=
  match uuid c with
  | PromisePending => set_uuid (PromiseResolved uuid_) c
  | _ => c
  end.

(** [socket.onclose]: after the close call-back, [this.socket = undefined]. *)
Definition onclose (c : Context) : Context := set_socket None c.

(** ** The steps of a context *)

(** Every change that [execute], [applyPatch] and the triggers of [commit]
    make to a context is one of these: the stack of frames or the pending
    replies change; the socket is lost; a [roll-back] goes out on an open
    socket; an [execute] goes out on an open socket whose UUID has arrived. *)
Inductive step (modelURI : URI) : Context -> Context -> Prop :=
| step_frames c frames :
    step modelURI c (set_nestedContexts frames c)
| step_reply c replies :
    step modelURI c (set_upstream replies c)
| step_socket_closed c :
    step modelURI c (set_socket None c)
| step_roll_back c error :
    isOpen c = true ->
    step modelURI c
      (set_sent (sent c ++ [mkMessage roll_back_msg modelURI (ErrorData error)]) c)
| step_execute c body u :
    isOpen c = true ->
    uuid c = PromiseResolved u ->
    step modelURI c
      (set_sent (sent c ++ [mkMessage execute_msg modelURI (ExecuteData body)]) c).

(** An asynchronous method that only makes such steps. *)
Definition stepwise (modelURI : URI) {A} (m : Async A) : Prop :=
  forall c o c', m c = (o, c') -> rtc (step modelURI) c c'.

#[global] Instance MessageType_eq_dec : EqDecision MessageType.
Proof. solve_decision. Defined.

(** The messages of a given type among those sent. *)
Definition of_type (t : MessageType) (l : list MessageBody) : list MessageBody :=
  filter (fun m => type m = t) l.

(** A method that sends no [roll-back]. *)
Definition sends_no_roll_back {A} (m : Async A) : Prop :=
  forall c o c', m c = (o, c') ->
    exists l, sent c' = sent c ++ l /\ of_type roll_back_msg l = [].

(** A method that sends at most one [roll-back], and none unless it
    rejects. *)
Definition rolls_back_once {A} (m : Async A) : Prop :=
  forall c o c', m c = (o, c') ->
    exists l, sent c' = sent c ++ l /\
      match o with
      | Rejected _ => length (of_type roll_back_msg l) <= 1
      | _ => of_type roll_back_msg l = []
      end.

(** ** The commit algorithm of the design *)

Section CommitAlgorithm.

Variable modelURI : URI.
Variable hasProvider : string -> bool.
Variable getCommands : URI -> ModelServerCommand -> Settled Provided.
Variable getTriggers : URI -> list Operation -> Settled Triggers.

(** How a call ended, as the caller that awaits it sees it. *)
Definition settlement {A} (s : Settled A) : Outcome A :=
  match s with
  | Fulfilled a => Resolved a
  | Failed reason => Rejected reason
  end.

(** The same ending, whatever was returned. *)
Definition discard {A} (o : Outcome A) : Outcome unit :=
  match o with
  | Resolved _ => Resolved tt
  | Rejected reason => Rejected reason
  | Suspended => Suspended
  | OutOfFuel => OutOfFuel
  end.

(** "It calls t(this)" (4.3.5).  [Calls fn c o c']: called on the context
    [c], the transaction function [fn] makes its calls of [execute] and
    [applyPatch] one after the other, each on the context as the one before
    left it, and goes on with the way each call settled, until it returns or
    throws ([o]), leaving the context [c']; it is left waiting when one of
    its calls is. *)
Inductive Calls : Transaction -> Context -> Outcome bool -> Context -> Prop :=
| calls_return result c :
    Calls (TxReturn result) c (Resolved result) c
| calls_throw reason c :
    Calls (TxThrow reason) c (Rejected reason) c
| calls_execute modelUri command k fuel c s c1 o c' :
    execute modelURI hasProvider getCommands fuel modelUri command c = (settlement s, c1) ->
    Calls (k s) c1 o c' ->
    Calls (TxExecute modelUri command k) c o c'
| calls_execute_waits modelUri command k fuel c c1 :
    execute modelURI hasProvider getCommands fuel modelUri command c = (Suspended, c1) ->
    Calls (TxExecute modelUri command k) c Suspended c1
| calls_applyPatch p k c s c1 o c' :
    applyPatch modelURI p c = (settlement s, c1) ->
    Calls (k s) c1 o c' ->
    Calls (TxApplyPatch p k) c o c'
| calls_applyPatch_waits p k c c1 :
    applyPatch modelURI p c = (Suspended, c1) ->
    Calls (TxApplyPatch p k) c Suspended c1.

(** "pushFrame() pushes a new frame with an empty aggregated
    ModelUpdateResult of shape {success: true, patch: []}" (4.3.3). *)
Definition pushed (c : Context) : Context :=
  set_nestedContexts (mkNested (mkResult true (Some []) None) :: nestedContexts c) c.

(** "popFrame() returns the top frame's aggregated result, and - if there is
    still a parent frame - merges it into the parent" (4.3.3).
    [Popped c r c']: the frame on top of the stack of [c] holds [r], and
    [c'] is [c] without it. *)
Inductive Popped : Context -> ModelUpdateResult -> Context -> Prop :=
| popped_last c r :
    nestedContexts c = [mkNested r] ->
    Popped c r (set_nestedContexts [] c)
| popped_into_parent c r parent rest :
    nestedContexts c = mkNested r :: mkNested parent :: rest ->
    Popped c r
      (set_nestedContexts (mkNested (mergeModelUpdateResult parent (Some r)) :: rest) c).

(** "If t is a transaction function it calls t(this); otherwise it calls
    applyPatch(t)" (4.3.5), and how that ends. *)
Inductive TriggersCalled : Triggers -> Context -> Outcome unit -> Context -> Prop :=
| called_function fn c o c' :
    Calls fn c o c' ->
    TriggersCalled (TriggerTransaction fn) c (discard o) c'
| called_patch operations c o c' :
    applyPatch modelURI (ManyPatch operations) c = (o, c') ->
    TriggersCalled (TriggerPatch operations) c (discard o) c'.

(** "performTriggers(t) pushes a frame, then [calls the triggers].  It pops
    the frame (even on error) and returns the popped aggregated result"
    (4.3.5). *)
Inductive PerformTriggers : Triggers -> Context -> Outcome ModelUpdateResult -> Context -> Prop :=
| triggers_popped t c c1 r c' :
    TriggersCalled t (pushed c) (Resolved tt) c1 ->
    Popped c1 r c' ->
    PerformTriggers t c (Resolved r) c'
| triggers_popped_on_error t c reason c1 r c' :
    TriggersCalled t (pushed c) (Rejected reason) c1 ->
    Popped c1 r c' ->
    PerformTriggers t c (Rejected reason) c'
| triggers_waiting t c c1 :
    TriggersCalled t (pushed c) Suspended c1 ->
    PerformTriggers t c Suspended c1.

(** Triggers that are empty: none at all, or an empty patch. *)
Definition triggers_are_empty (t : Triggers) : Prop :=
  t = NoTriggers \/ t = TriggerPatch [].

(** Auto-rollback (4.3.2, 7): "the context sends roll-back (if the socket is
    still open) ... and re-raises". *)
Definition rolled_back (reason : Reason) (c : Context) : Context :=
  if isOpen c
  then set_sent (sent c ++ [mkMessage roll_back_msg modelURI (ErrorData reason)]) c
  else c.

(** The loop of the design (4.3.5), from the aggregate [u], the delta and
    the context at its entry to its outcome and the context at its exit:
    "if delta is empty: break; t <- getTriggers(modelURI, delta); if t is
    empty: break; r <- performTriggers(t); merge(u, r); delta <- r.patch",
    and "if the triggers step rejects, auto-rollback applies". *)
Inductive TriggerLoop :
  ModelUpdateResult -> option (list Operation) -> Context ->
  Outcome ModelUpdateResult -> Context -> Prop :=
| loop_no_delta u c :
    TriggerLoop u None c (Resolved u) c
| loop_delta_empty u c :
    TriggerLoop u (Some []) c (Resolved u) c
| loop_triggers_empty u operations c t :
    operations <> [] ->
    getTriggers modelURI operations = Fulfilled t ->
    triggers_are_empty t ->
    TriggerLoop u (Some operations) c (Resolved u) c
| loop_again u operations c t r c1 o c' :
    operations <> [] ->
    getTriggers modelURI operations = Fulfilled t ->
    ~ triggers_are_empty t ->
    PerformTriggers t c (Resolved r) c1 ->
    TriggerLoop (mergeModelUpdateResult u (Some r)) (patch r) c1 o c' ->
    TriggerLoop u (Some operations) c o c'
| loop_triggers_reject u operations c t reason c' :
    operations <> [] ->
    getTriggers modelURI operations = Fulfilled t ->
    ~ triggers_are_empty t ->
    PerformTriggers t c (Rejected reason) c' ->
    TriggerLoop u (Some operations) c (Rejected reason) c'
| loop_triggers_wait u operations c t c' :
    operations <> [] ->
    getTriggers modelURI operations = Fulfilled t ->
    ~ triggers_are_empty t ->
    PerformTriggers t c Suspended c' ->
    TriggerLoop u (Some operations) c Suspended c'
| loop_registry_rejects u operations c reason :
    operations <> [] ->
    getTriggers modelURI operations = Failed reason ->
    TriggerLoop u (Some operations) c (Rejected reason) (rolled_back reason c).

(** [commit] of the design (4.3.5): "u <- popFrame(); if !isOpen(): return
    closed; [the loop]; send close; return u".  The [close] is sent on the
    socket that the context still has. *)
Inductive Commit : Context -> Outcome ModelUpdateResult -> Context -> Prop :=
| commit_closed c u c1 :
    Popped c u c1 ->
    isOpen c = false ->
    Commit c (Resolved (mkResult false None None)) c1
| commit_close c u c1 u' c2 :
    Popped c u c1 ->
    isOpen c = true ->
    TriggerLoop u (patch u) c1 (Resolved u') c2 ->
    socket c2 <> None ->
    Commit c (Resolved u')
      (set_sent (sent c2 ++ [mkMessage close_msg modelURI EmptyData]) c2)
| commit_rejects c u c1 reason c2 :
    Popped c u c1 ->
    isOpen c = true ->
    TriggerLoop u (patch u) c1 (Rejected reason) c2 ->
    Commit c (Rejected reason) c2
| commit_waits c u c1 c2 :
    Popped c u c1 ->
    isOpen c = true ->
    TriggerLoop u (patch u) c1 Suspended c2 ->
    Commit c Suspended c2.

(** What the design leaves open: the socket is closed while the loop runs,
    and the loop comes to its end all the same. *)
Definition SocketLost (c : Context) : Prop :=
  exists u c1 u' c2,
    Popped c u c1 /\ isOpen c = true /\
    TriggerLoop u (patch u) c1 (Resolved u') c2 /\
    socket c2 = None.

End CommitAlgorithm.

(** [m'] settles as [m] does wherever [m] does not run out of fuel. *)
Definition fuel_extends {A} (m m' : Async A) : Prop :=
  forall c o c', m c = (o, c') -> o <> OutOfFuel -> m' c = (o, c').

(** ** Properties of methods used further on *)

(** The aggregate after merging a run of results, one after the other. *)
Definition merge_all (dst : ModelUpdateResult) (results : list ModelUpdateResult)
  : ModelUpdateResult :=
  foldl (fun aggregate result => mergeModelUpdateResult aggregate (Some result)) dst results.

(** A method that leaves alone every part [base] of the stack that lies
    below some frame: after the call [base] still lies below some frame. *)
Definition keeps_frames_below {A} (m : Async A) : Prop :=
  forall c o c' above frame base,
    m c = (o, c') ->
    nestedContexts c = above ++ frame :: base ->
    exists above' frame', nestedContexts c' = above' ++ frame' :: base.

(** A method that takes the replies of Upstream in order, one for each
    [execute] that it sends; only a call left suspended may have sent one
    [execute] more than it has had replies. *)
Definition in_lockstep {A} (m : Async A) : Prop :=
  forall c o c', m c = (o, c') ->
    exists l consumed,
      sent c' = sent c ++ l /\
      upstream c = consumed ++ upstream c' /\
      match o with
      | Suspended =>
          length consumed <= length (of_type execute_msg l) <= S (length consumed)
      | _ => length (of_type execute_msg l) = length consumed
      end.

End Transaction.

Module Manager.

(** ** [InternalModelServerClient]: the map of open transactions *)

(** A [DefaultTransactionContext] object is known by its identity (what [===]
    compares); the store keeps, for each one, the URI object captured by its
    close call-back and its state. *)
Definition ContextId : Type := nat.

Record Client : Type := mkClient {
  transactions : gmap string ContextId;
  contexts : gmap ContextId (URI * Transaction.Context);
  next_context : ContextId
}.

(** What [openTransaction] hands back: the new root context, or the object
    made by [openTransaction()] of an existing one. *)
Inductive TransactionHandle : Type :=
| RootContext (tc : ContextId)
| ChildOf (parent : ContextId).

(** Where the synchronous part of [openTransaction] stops. *)
Inductive OpenRequest : Type :=
| Nested (child : TransactionHandle)
| Posting (uriKey : string) (modelUri : URI).

Section Client.

(** [URI.normalize()] of urijs rewrites the receiver in place and returns
    it; [normalize] is the string form of the URI object afterwards.  The
    object that [openTransaction] received is the one that the close
    call-back captures, so the call-back sees the normalized form. *)
Variable normalize : URI -> URI.

Definition toString (u : URI) : string := u.

(** [openTransaction], up to the [axios.post]. *)
Definition openTransaction_request (modelUri : URI) (s : Client) : OpenRequest * Client :=
  let modelUri := normalize modelUri in
  let uriKey := toString modelUri in
  match transactions s !! uriKey with
  | Some tc =>
      (Nested (ChildOf tc),
       mkClient (transactions s)
         (alter (fun entry => (entry.1, (Transaction.openTransaction entry.2).2)) tc (contexts s))
         (next_context s))
  | None => (Posting uriKey modelUri, s)
  end.

(** The [then] of the [axios.post]: a context is constructed, registered
    and opened. *)
Definition openTransaction_response (uriKey : string) (modelUri : URI)
    (replies : list Transaction.Incoming) (s : Client) : TransactionHandle * Client :=
  let result := next_context s in
  (RootContext result,
   mkClient (<[uriKey := result]> (transactions s))
     (<[result := (modelUri, Transaction.opening replies)]> (contexts s))
     (S result)).

Definition closeTransaction (modeluri : URI) (tc : ContextId) (s : Client) : Client :=
  if decide (transactions s !! toString modeluri = Some tc) then
    mkClient (delete (toString modeluri) (transactions s)) (contexts s) (next_context s)
  else s.

(** [socket.onclose] of the context [tc]: the close call-back given to
    [open], then [this.socket = undefined]. *)
Definition socket_onclose (tc : ContextId) (s : Client) : Client :=
  match contexts s !! tc with
  | Some (modelUri, c) =>
      let s' := closeTransaction modelUri tc s in
      mkClient (transactions s')
        (<[tc := (modelUri, Transaction.onclose c)]> (contexts s'))
        (next_context s')
  | None => s
  end.

End Client.

(** ** The map and the store *)

(** Every context in the map is registered under the string of the URI that
    its close call-back holds, and every context constructed so far has an
    identity below the next one. *)
Definition well_formed (s : Client) : Prop :=
  (forall uriKey tc,
     transactions s !! uriKey = Some tc ->
     exists c, contexts s !! tc = Some (uriKey, c)) /\
  (forall tc, is_Some (contexts s !! tc) -> tc < next_context s).

End Manager.

Module Gateway.

(** ** [ModelServer]: the backstop set and the forwarding handler *)

Definition STANDARD_ROUTES : gset string :=
  list_to_set
    ["/models"; "/modelelement"; "/modeluris"; "/server/ping"; "/server/configure";
     "/subscribe"; "/close"; "/save"; "/saveall"; "/undo"; "/redo"; "/transaction";
     "/validation"; "/validation/constraints"; "/typeschema"; "/uischema"].

(** [RoutingOptions] of the plug-in API. *)
Record RoutingOptions : Type := mkOptions {
  routerId : option string;
  forwardToUpstream : option bool
}.

(** A layer of [router.stack]; [layer_path] is [layer.route?.path]. *)
Record Layer : Type := mkLayer {
  layer_path : option string
}.

(** An element of [routes.routers]: [{ route, router, options? }]. *)
Record RouterEntry : Type := mkRouter {
  route : string;
  stack : list Layer;
  options : option RoutingOptions
}.

(** [s.replace(/\/+$/, '')]: the trailing slashes removed. *)
Fixpoint strip_trailing_slashes (s : string) : string :=
  match s with
  | EmptyString => EmptyString
  | String a rest =>
      match strip_trailing_slashes rest with
      | EmptyString => if Ascii.eqb a "/"%char then EmptyString else String a EmptyString
      | stripped => String a stripped
      end
  end.

(** The character class [[0-9.]]. *)
Definition version_char (a : Ascii.ascii) : bool :=
  Ascii.eqb a "."%char || ((48 <=? Ascii.nat_of_ascii a) && (Ascii.nat_of_ascii a <=? 57)).

(** A line terminator, which [.] does not match. *)
Definition line_terminator (a : Ascii.ascii) : bool :=
  Ascii.eqb a "010"%char || Ascii.eqb a "013"%char.

Fixpoint drop_prefix (prefix s : string) : option string :=
  match prefix, s with
  | EmptyString, _ => Some s
  | String a prefix', String b s' => if Ascii.eqb a b then drop_prefix prefix' s' else None
  | String _ _, EmptyString => None
  end.

(** The longest prefix of characters satisfying [p], and the rest. *)
Fixpoint span (p : Ascii.ascii -> bool) (s : string) : string * string :=
  match s with
  | String a rest =>
      if p a then let (taken, left) := span p rest in (String a taken, left)
      else (EmptyString, s)
  | EmptyString => (EmptyString, EmptyString)
  end.

(** [route.match] with the regular expression of [isModelServerRoute]: at the
    start of the route, the text /api/v, then one or more characters of
    [[0-9.]], then the group [match[1]]: a slash and any characters but line
    terminators, as many as there are.  The result is the group, if the route
    matches.  The class is greedy and cannot give back a character, as the
    next one has to be a slash. *)
Definition match_api_route (route : string) : option string :=
  match drop_prefix "/api/v" route with
  | Some rest =>
      match span version_char rest with
      | (String _ _, String a tail) =>
          if Ascii.eqb a "/"%char then Some (String a (span (fun b => negb (line_terminator b)) tail).1)
          else None
      | _ => None
      end
  | None => None
  end.

Definition isModelServerRoute (route : string) : bool :=
  match match_api_route route with
  | Some group => bool_decide (group ∈ STANDARD_ROUTES)
  | None => false
  end.

(** [!r.options?.forwardToUpstream]. *)
Definition needs_backstop (r : RouterEntry) : bool :=
  match options r with
  | Some o => negb (default false (forwardToUpstream o))
  | None => true
  end.

(** [typeof r.options?.forwardToUpstream !== 'undefined']. *)
Definition explicitlyBackstopped (r : RouterEntry) : bool :=
  match options r with
  | Some o => bool_decide (is_Some (forwardToUpstream o))
  | None => false
  end.

(** The routes that [install] records for one router. *)
Definition backstopped_routes (r : RouterEntry) : list string :=
  filter (fun handledRoute => explicitlyBackstopped r || negb (isModelServerRoute handledRoute))
    (map strip_trailing_slashes
       (map (fun layer => route r +:+ default "" (layer_path layer)) (stack r))).

(** One round of the [forEach] of [routes.install], on [this.backstopPaths]. *)
Definition install_router (backstopPaths : gset string) (r : RouterEntry) : gset string :=
  if needs_backstop r then
    foldl (fun paths backstopped => paths ∪ {[backstopped]}) backstopPaths (backstopped_routes r)
  else backstopPaths.

Definition install (routers : list RouterEntry) (backstopPaths : gset string) : gset string :=
  foldl install_router backstopPaths routers.

(** The part of an [express.Request] that the handler reads. *)
Record Request : Type := mkRequest {
  req_path : string;
  req_url : string;
  req_method : string;
  req_body : AnyObject;
  req_upgrade : bool   (* WSUpgradeRequest.is(req) *)
}.

(** [AxiosRequestConfig] of the relayed request. *)
Record RelayRequest : Type := mkRelay {
  relay_url : string;
  relay_method : string;
  relay_data : AnyObject
}.

(** What the handler made by [forward] does with a request. *)
Inductive Dispatch : Type :=
| Next                              (* left to the websocket middleware *)
| NotForwarded                      (* returns without a request to Upstream *)
| Forwarded (relayReq : RelayRequest).

Definition shouldBackstop (backstopPaths : gset string) (req : Request) : bool :=
  bool_decide (req_path req ∈ backstopPaths).

(** [toUpperCase] on a method name. *)
Definition upper_ascii (a : Ascii.ascii) : Ascii.ascii :=
  let n := Ascii.nat_of_ascii a in
  if (97 <=? n) && (n <=? 122) then Ascii.ascii_of_nat (n - 32) else a.

Fixpoint toUpperCase (s : string) : string :=
  match s with
  | EmptyString => EmptyString
  | String a rest => String (upper_ascii a) (toUpperCase rest)
  end.

Definition forward (backstopPaths : gset string) (req : Request) : Dispatch :=
  if req_upgrade req then Next
  else if shouldBackstop backstopPaths req then NotForwarded
  else Forwarded (mkRelay (req_url req) (toUpperCase (req_method req)) (req_body req)).

(** ** The backstop set as the design describes it *)

Fixpoint string_forall (p : Ascii.ascii -> bool) (s : string) : bool :=
  match s with
  | EmptyString => true
  | String a rest => p a && string_forall p rest
  end.

(** A path in which [.] of a regular expression matches every character. *)
Definition single_line (s : string) : Prop :=
  string_forall (fun a => negb (line_terminator a)) s = true.

(** A path "of the form /api/v<version> plus a member of STANDARD_ROUTES",
    the version being digits and dots. *)
Definition standard_api_path (p : string) : Prop :=
  exists version standard,
    p = "/api/v" +:+ version +:+ standard /\
    version <> "" /\
    string_forall version_char version = true /\
    standard ∈ STANDARD_ROUTES.

(** What [install] computes for the layers of a router: a handled route,
    as the code strips it. *)
Definition full_path_of (r : RouterEntry) (p : string) : Prop :=
  exists layer,
    layer ∈ stack r /\
    p = strip_trailing_slashes (route r +:+ default "" (layer_path layer)).

(** A run of [n] slashes. *)
Fixpoint slashes (n : nat) : string :=
  match n with
  | 0 => EmptyString
  | S n' => String "/" (slashes n')
  end.

(** "With trailing slashes stripped": [p] is [s] without the slashes at
    its end, that is, [s] is [p] followed by slashes only, and [p] does not
    end in a slash. *)
Definition without_trailing_slashes (s p : string) : Prop :=
  (exists n, s = p +:+ slashes n) /\ (forall q, p <> q +:+ "/").

(** The full paths of the routes of a router (the route of the router
    followed by the path of a layer), trailing slashes stripped. *)
Definition stripped_full_path (r : RouterEntry) (p : string) : Prop :=
  exists layer,
    layer ∈ stack r /\
    without_trailing_slashes (route r +:+ default "" (layer_path layer)) p.

(** Membership in the backstop set, in the words of the design: a full path
    of a route of a router that does not forward to Upstream, except the
    standard paths of the API of routers that did not set
    [forwardToUpstream: false] themselves. *)
Definition in_backstop_set (routers : list RouterEntry) (p : string) : Prop :=
  exists r,
    r ∈ routers /\
    options r ≫= forwardToUpstream <> Some true /\
    stripped_full_path r p /\
    (standard_api_path p -> options r ≫= forwardToUpstream = Some false).

End Gateway.

Module Scenarios.

(** ** Concrete inputs used by the examples below *)

Import Transaction.

Definition m1 : URI := "file:/m1".

Definition P_a : list Operation := [mkOperation "replace" "/name" (Some "X")].
Definition P_b : list Operation := [mkOperation "add" "/label" (Some "Y")].

(** A successful reply carrying a patch, and a failed one. *)
Definition succeeded (p : list Operation) : ModelUpdateResult := mkResult true (Some p) None.
Definition failed : ModelUpdateResult := mkResult false None None.

(** A context that [open] has resolved: socket open, UUID received, the root
    frame on the stack. *)
Definition open_context (replies : list Incoming) : Context :=
  on_uuid "0a1b" (onopen (opening replies)).

(** The same context once Upstream has closed the socket. *)
Definition closed_context : Context := onclose (open_context []).

(** Between [socket.onopen] and the first message: the socket is open, the
    UUID is still awaited. *)
Definition awaiting_uuid (replies : list Incoming) : Context := onopen (opening replies).

Definition no_provider (_ : string) : bool := false.
Definition no_commands (_ : URI) (_ : ModelServerCommand) : Settled Provided :=
  Failed "no provider".
Definition no_triggers (_ : URI) (_ : list Operation) : Settled Triggers :=
  Fulfilled NoTriggers.

Definition T1 : ModelServerCommand := mkCommand "T1" "{}".
Definition provides_T1 (t : string) : bool := String.eqb t "T1".

(** A transaction function that applies [P_a] and then reports failure
    (scenario S3). *)
Definition apply_then_fail : Transaction :=
  TxApplyPatch (ManyPatch P_a) (fun settled =>
    match settled with
    | Fulfilled _ => TxReturn false
    | Failed reason => TxThrow reason
    end).
Definition commands_S3 (_ : URI) (_ : ModelServerCommand) : Settled Provided :=
  Fulfilled (ProvidedTransaction apply_then_fail).

(** A transaction function that applies [P_a], does not catch, and reports
    success. *)
Definition apply_then_succeed : Transaction :=
  TxApplyPatch (ManyPatch P_a) (fun settled =>
    match settled with
    | Fulfilled _ => TxReturn true
    | Failed reason => TxThrow reason
    end).
Definition commands_nested (_ : URI) (_ : ModelServerCommand) : Settled Provided :=
  Fulfilled (ProvidedTransaction apply_then_succeed).

(** Triggers of scenario S4: [P_b] in answer to [P_a], then nothing. *)
Definition triggers_S4 (_ : URI) (delta : list Operation) : Settled Triggers :=
  match delta with
  | o :: _ =>
      if String.eqb (path o) "/name" then Fulfilled (TriggerPatch P_b)
      else Fulfilled (TriggerPatch [])
  | [] => Fulfilled (TriggerPatch [])
  end.

(** A transaction function that issues the two patches of scenario S2. *)
Definition apply_both : Transaction :=
  TxApplyPatch (ManyPatch P_a) (fun first =>
    match first with
    | Fulfilled _ =>
        TxApplyPatch (ManyPatch P_b) (fun second =>
          match second with
          | Fulfilled _ => TxReturn true
          | Failed reason => TxThrow reason
          end)
    | Failed reason => TxThrow reason
    end).
Definition commands_S2 (_ : URI) (_ : ModelServerCommand) : Settled Provided :=
  Fulfilled (ProvidedTransaction apply_both).

(** The root context of scenario S4 when [commit] is called: [P_a] has been
    applied, the reply to the trigger patch is still to come. *)
Definition before_commit_S4 : Context :=
  mkContext (Some OPEN) (PromiseResolved "0a1b") [mkNested (succeeded P_a)] []
    [Reply (succeeded P_b)].

(** [normalize] on the URIs of the examples: the scheme is lower-cased. *)
Definition normalize_scheme (u : URI) : URI :=
  if String.eqb u "FILE:/m1" then "file:/m1" else u.

(** A client with no transaction, and the client of scenario S5 after its
    first [openTransaction]: the [POST] has returned and the root context is
    registered. *)
Definition no_transaction : Manager.Client := Manager.mkClient ∅ ∅ 0.
Definition one_transaction : Manager.Client :=
  (Manager.openTransaction_response "file:/m1" "file:/m1" [] no_transaction).2.

(** Two requests for the same model, both sent before either [POST] has
    returned: each response registers a root of its own. *)
Definition two_responses : Manager.Client :=
  (Manager.openTransaction_response "file:/m1" "file:/m1" [] one_transaction).2.

(** The router of scenario S6: a plug-in serves [/foo] and [/models] under
    [/api/v2] and sets no option. *)
Definition plugin_router : Gateway.RouterEntry :=
  Gateway.mkRouter "/api/v2"
    [Gateway.mkLayer (Some "/foo"); Gateway.mkLayer (Some "/models")] None.

Definition get (p : string) : Gateway.Request :=
  Gateway.mkRequest p p "get" "" false.


(** A transaction function that applies the given patches one after the
    other, gives up at the first that rejects, and reports success. *)
Fixpoint apply_all (patches : list (list Operation)) : Transaction :=
  match patches with
  | [] => TxReturn true
  | p :: patches' =>
      TxApplyPatch (ManyPatch p) (fun settled =>
        match settled with
        | Fulfilled _ => apply_all patches'
        | Failed reason => TxThrow reason
        end)
  end.

(** A command whose provider expands it into a function that executes the
    same command again. *)
Definition and_then_succeed (settled : Settled ModelUpdateResult) : Transaction :=
  match settled with
  | Fulfilled _ => TxReturn true
  | Failed reason => TxThrow reason
  end.
Definition commands_again (modelUri : URI) (command : ModelServerCommand) : Settled Provided :=
  Fulfilled (ProvidedTransaction (TxExecute modelUri command and_then_succeed)).

(** A provider that expands every command into the two patches [P_a] and
    [P_b]. *)
Definition commands_all (_ : URI) (_ : ModelServerCommand) : Settled Provided :=
  Fulfilled (ProvidedTransaction (apply_all [P_a; P_b])).

(** A transaction function that throws at once. *)
Definition commands_throw (_ : URI) (_ : ModelServerCommand) : Settled Provided :=
  Fulfilled (ProvidedTransaction (TxThrow "refused")).

(** A trigger registry that rejects. *)
Definition triggers_fail (_ : URI) (_ : list Operation) : Settled Triggers :=
  Failed "no triggers today".

(** A root context that has applied [P_a], with no reply outstanding. *)
Definition applied_P_a : Context :=
  mkContext (Some OPEN) (PromiseResolved "0a1b") [mkNested (succeeded P_a)] [] [].

(** A root context after its [commit]: the socket still open, no frame. *)
Definition committed : Context :=
  mkContext (Some OPEN) (PromiseResolved "0a1b") [] [] [].

(** The root context of [applied_P_a] with a child transaction open: the
    frame of the child lies on the root frame. *)
Definition child_open : Context := (openTransaction applied_P_a).2.

(** Triggers that are a transaction function: it applies [P_b] and then
    throws. *)
Definition apply_then_throw : Transaction :=
  TxApplyPatch (ManyPatch P_b) (fun _ => TxThrow "refused").
Definition triggers_throw (_ : URI) (_ : list Operation) : Settled Triggers :=
  Fulfilled (TriggerTransaction apply_then_throw).

(** Triggers that are a transaction function: it applies [P_b], catches
    whatever that throws, and returns. *)
Definition apply_and_catch : Transaction :=
  TxApplyPatch (ManyPatch P_b) (fun _ => TxReturn true).
Definition triggers_catch (_ : URI) (_ : list Operation) : Settled Triggers :=
  Fulfilled (TriggerTransaction apply_and_catch).

(** The root context that has applied [P_a], on which Upstream closes the
    socket in place of its next reply. *)
Definition before_socket_close : Context :=
  mkContext (Some OPEN) (PromiseResolved "0a1b") [mkNested (succeeded P_a)] []
    [SocketClose "gone"].

End Scenarios.

(** * Properties *)

Module TransactionFacts.

Import Transaction.

(** ** Merging update results *)

(** Where the merged result has operations, the aggregate follows the monoid
    of the design: conjunction, concatenation, latest non-null patch model
    while successful. *)
Lemma mergeModelUpdateResult_operations (dst src : ModelUpdateResult) :
  has_operations (patch src) = true ->
  let merged := mergeModelUpdateResult dst (Some src) in
  success merged = success dst && success src /\
  patch merged = Some (default [] (patch dst) ++ default [] (patch src)) /\
  patchModel merged =
    (if success dst && success src && truthy (patchModel src)
     then patchModel src else patchModel dst).
Proof.
  intros Hops. unfold mergeModelUpdateResult. rewrite Hops. simpl.
  repeat split.
Qed.

(** The operations of the aggregate are always those of both results, an
    absent patch counting for none. *)
Lemma mergeModelUpdateResult_patch (dst : ModelUpdateResult) (src : option ModelUpdateResult) :
  default [] (patch (mergeModelUpdateResult dst src)) =
  default [] (patch dst) ++ default [] (src ≫= patch).
Proof.
  destruct src as [[s [[|o ops]|] pm]|]; simpl; rewrite ?app_nil_r; reflexivity.
Qed.

(** C2 (the code at the input where it departs from the claim): a result
    without operations is not merged at all, so a failed reply that carries
    no patch leaves the success flag of the aggregate as it was. *)
Theorem mergeModelUpdateResult_without_operations (dst src : ModelUpdateResult) :
  patch src = None \/ patch src = Some [] ->
  mergeModelUpdateResult dst (Some src) = dst.
Proof.
  intros [H | H]; unfold mergeModelUpdateResult; rewrite H; reflexivity.
Qed.

Lemma mergeModelUpdateResult_without_operations_witness :
  success Scenarios.failed = false /\
  mergeModelUpdateResult emptyUpdateResult (Some Scenarios.failed) = emptyUpdateResult /\
  success (mergeModelUpdateResult emptyUpdateResult (Some Scenarios.failed)) = true.
Proof.
  split; [reflexivity|].
  rewrite (mergeModelUpdateResult_without_operations emptyUpdateResult Scenarios.failed);
    [split; reflexivity | left; reflexivity].
Defined.

(** ** Sending on an open socket *)

Lemma isOpen_socket c : isOpen c = true -> socket c = Some OPEN.
Proof. unfold isOpen. by destruct (socket c) as [[]|]. Qed.

Lemma socket_send_open m c :
  isOpen c = true -> socket_send m c = (Resolved tt, set_sent (sent c ++ [m]) c).
Proof. intros H. unfold socket_send. by rewrite (isOpen_socket _ H). Qed.

(** [rollback] tests [isOpen] before it sends, so its send succeeds. *)
Lemma rollback_sends modelURI error c :
  rollback modelURI error c =
  if isOpen c
  then (Resolved transactionClosed,
        set_sent (sent c ++ [mkMessage roll_back_msg modelURI (ErrorData error)]) c)
  else (Resolved transactionClosed, c).
Proof.
  unfold rollback. destruct (isOpen c) eqn:Hopen; [|reflexivity].
  unfold bind. by rewrite socket_send_open.
Qed.

(** ** Methods as sequences of steps *)

Section Steps.

Variable modelURI : URI.
Variable hasProvider : string -> bool.
Variable getCommands : URI -> ModelServerCommand -> Settled Provided.
Variable getTriggers : URI -> list Operation -> Settled Triggers.

Local Abbreviation stepwise := (stepwise modelURI).
Local Abbreviation steps := (rtc (step modelURI)).

Lemma stepwise_resolve {A} (a : A) : stepwise (resolve a).
Proof. intros c o c' [= <- <-]. constructor. Qed.

Lemma stepwise_reject {A} reason : stepwise (@reject A reason).
Proof. intros c o c' [= <- <-]. constructor. Qed.

Lemma stepwise_bind {A B} (m : Async A) (k : A -> Async B) :
  stepwise m -> (forall a, stepwise (k a)) -> stepwise (bind m k).
Proof.
  intros Hm Hk c o c'. unfold bind.
  destruct (m c) as [[a|reason| |] c1] eqn:E; specialize (Hm _ _ _ E).
  - intros Hka. etrans; [exact Hm|]. eapply Hk, Hka.
  - intros [= <- <-]. exact Hm.
  - intros [= <- <-]. exact Hm.
  - intros [= <- <-]. exact Hm.
Qed.

Lemma stepwise_catch {A} (m : Async A) (handler : Reason -> Async A) :
  stepwise m -> (forall reason, stepwise (handler reason)) -> stepwise (catch m handler).
Proof.
  intros Hm Hh c o c'. unfold catch.
  destruct (m c) as [[a|reason| |] c1] eqn:E; specialize (Hm _ _ _ E).
  - intros [= <- <-]. exact Hm.
  - intros Hr. etrans; [exact Hm|]. eapply Hh, Hr.
  - intros [= <- <-]. exact Hm.
  - intros [= <- <-]. exact Hm.
Qed.

Lemma stepwise_try_finally {A B} (body : Async A) (cleanup : Async B) :
  stepwise body -> stepwise cleanup -> stepwise (try_finally body cleanup).
Proof.
  intros Hb Hc c o c'. unfold try_finally.
  destruct (body c) as [[a|reason| |] c1] eqn:E; specialize (Hb _ _ _ E).
  - intros Hcl. etrans; [exact Hb|]. eapply Hc, Hcl.
  - destruct (cleanup c1) as [[b|reason'| |] c2] eqn:E2; specialize (Hc _ _ _ E2);
      intros [= <- <-]; (etrans; [exact Hb | exact Hc]).
  - intros [= <- <-]. exact Hb.
  - intros [= <- <-]. exact Hb.
Qed.

Lemma stepwise_await_settled {A} (s : Settled A) : stepwise (await_settled s).
Proof. destruct s; [apply stepwise_resolve | apply stepwise_reject]. Qed.

Lemma stepwise_pushNestedContext : stepwise pushNestedContext.
Proof. intros c o c' [= <- <-]. apply rtc_once. constructor. Qed.

Lemma stepwise_popNestedContext : stepwise popNestedContext.
Proof.
  intros c o c'. unfold popNestedContext.
  destruct (nestedContexts c) as [|[result] [|[current] rest]];
    intros [= <- <-]; [constructor | apply rtc_once; constructor ..].
Qed.

Lemma stepwise_rollback error : stepwise (rollback modelURI error).
Proof.
  intros c o c'. rewrite rollback_sends.
  destruct (isOpen c) eqn:Hopen; intros [= <- <-]; [|constructor].
  apply rtc_once. by constructor.
Qed.

Lemma stepwise_autoRollback {A} (m : Async A) :
  stepwise m -> stepwise (autoRollback modelURI m).
Proof.
  intros Hm. apply stepwise_catch; [exact Hm|].
  intros reason. apply stepwise_bind; [apply stepwise_rollback|].
  intros _. apply stepwise_reject.
Qed.

Lemma stepwise_await_reply : stepwise await_reply.
Proof.
  intros c o c'. unfold await_reply.
  destruct (upstream c) as [|[r|reason|reason] rest].
  - intros [= <- <-]. constructor.
  - destruct (nestedContexts c) as [|[current] below]; intros [= <- <-].
    + apply rtc_once. constructor.
    + eapply rtc_l; [apply step_frames|]. apply rtc_once. constructor.
  - intros [= <- <-]. apply rtc_once. constructor.
  - intros [= <- <-].
    eapply rtc_l; [apply step_socket_closed|]. apply rtc_once. constructor.
Qed.

Lemma stepwise_sendExecuteMessage body : stepwise (sendExecuteMessage modelURI body).
Proof.
  intros c o c'. unfold sendExecuteMessage.
  destruct (isOpen c) eqn:Hopen; simpl; [|intros [= <- <-]; constructor].
  unfold bind at 1, await_uuid.
  destruct (uuid c) as [|u|reason] eqn:Hu; try (intros [= <- <-]; constructor).
  destruct (peekNestedContext c) as [top|]; [|intros [= <- <-]; constructor].
  unfold bind. rewrite socket_send_open by done. intros Hreply.
  eapply rtc_l; [eapply step_execute; eassumption|].
  eapply stepwise_await_reply, Hreply.
Qed.

Lemma stepwise_applyPatch p : stepwise (applyPatch modelURI p).
Proof.
  intros c o c'. unfold applyPatch.
  destruct (isOpen c); simpl; [|intros [= <- <-]; constructor].
  destruct (is_empty_patch p); [intros [= <- <-]; constructor|].
  apply stepwise_autoRollback, stepwise_sendExecuteMessage.
Qed.

Lemma stepwise_runTransaction execute fn :
  (forall modelUri command, stepwise (execute modelUri command)) ->
  stepwise (runTransaction modelURI execute fn).
Proof.
  intros Hexec. induction fn as [result|reason|modelUri command k IH|p k IH];
    intros c o c'; simpl.
  - intros [= <- <-]. constructor.
  - intros [= <- <-]. constructor.
  - destruct (execute modelUri command c) as [[r|reason| |] c1] eqn:E;
      specialize (Hexec _ _ _ _ _ E).
    + intros Hk. etrans; [exact Hexec|]. eapply IH, Hk.
    + intros Hk. etrans; [exact Hexec|]. eapply IH, Hk.
    + intros [= <- <-]. exact Hexec.
    + intros [= <- <-]. exact Hexec.
  - destruct (applyPatch modelURI p c) as [[r|reason| |] c1] eqn:E;
      apply stepwise_applyPatch in E.
    + intros Hk. etrans; [exact E|]. eapply IH, Hk.
    + intros Hk. etrans; [exact E|]. eapply IH, Hk.
    + intros [= <- <-]. exact E.
    + intros [= <- <-]. exact E.
Qed.

Lemma stepwise_doExecute execute modelUri command :
  (forall modelUri command, stepwise (execute modelUri command)) ->
  stepwise (doExecute modelURI hasProvider getCommands execute modelUri command).
Proof.
  intros Hexec. unfold doExecute, sendCommand, sendPatch.
  destruct (hasProvider (command_type command)); simpl;
    [|apply stepwise_sendExecuteMessage].
  apply stepwise_bind; [apply stepwise_await_settled|].
  intros [fn|substitute|substitute]; try apply stepwise_sendExecuteMessage.
  apply stepwise_bind; [apply stepwise_pushNestedContext|]. intros _.
  apply stepwise_bind; [by apply stepwise_runTransaction|].
  intros []; simpl; [apply stepwise_popNestedContext|].
  apply stepwise_bind; [apply stepwise_popNestedContext|].
  intros _. apply stepwise_reject.
Qed.

Lemma stepwise_execute fuel modelUri command :
  stepwise (execute modelURI hasProvider getCommands fuel modelUri command).
Proof.
  revert modelUri command. induction fuel as [|fuel IH]; intros modelUri command c o c'; simpl.
  - intros [= <- <-]. constructor.
  - destruct (isOpen c); simpl; [|intros [= <- <-]; constructor].
    by apply stepwise_autoRollback, stepwise_doExecute.
Qed.

Lemma stepwise_performTriggers fuel triggers :
  stepwise (performTriggers modelURI hasProvider getCommands fuel triggers).
Proof.
  unfold performTriggers.
  apply stepwise_bind; [apply stepwise_pushNestedContext|]. intros _.
  apply stepwise_try_finally; [|apply stepwise_popNestedContext].
  destruct triggers as [|operations|fn];
    (apply stepwise_bind; [|intros _; apply stepwise_resolve]).
  - apply stepwise_applyPatch.
  - apply stepwise_applyPatch.
  - apply stepwise_runTransaction. intros. apply stepwise_execute.
Qed.

Lemma stepwise_commit_loop fuel updateResult modelDelta :
  stepwise (commit_loop modelURI hasProvider getCommands getTriggers fuel updateResult modelDelta).
Proof.
  revert updateResult modelDelta.
  induction fuel as [|fuel IH]; intros updateResult modelDelta; simpl.
  - intros c o c' [= <- <-]. constructor.
  - destruct (has_operations modelDelta); [|apply stepwise_resolve].
    apply stepwise_bind; [apply stepwise_autoRollback, stepwise_await_settled|].
    intros triggers. destruct (hasTriggers triggers); simpl; [|apply stepwise_resolve].
    apply stepwise_bind; [apply stepwise_performTriggers|].
    intros triggerResult. apply IH.
Qed.

(** What a sequence of steps does to the wire: the UUID is as it was, a
    closed socket stays closed, and what was sent is a run of [roll-back]
    and [execute] messages of this model, sent on an open socket, the
    [execute] ones with the UUID in hand. *)
Lemma steps_sent c c' :
  steps c c' ->
  uuid c' = uuid c /\
  (isOpen c = false -> isOpen c' = false) /\
  exists l,
    sent c' = sent c ++ l /\
    (isOpen c = false -> l = []) /\
    Forall (fun m =>
              modeluri m = modelURI /\
              (type m = roll_back_msg \/
               type m = execute_msg /\ exists u, uuid c = PromiseResolved u)) l.
Proof.
  induction 1 as [c|c c1 c' Hstep _ (Hu & Hclosed & l & Hl & Hnil & Hall)].
  { repeat split; [done|]. exists []. rewrite app_nil_r. repeat split; done. }
  inversion Hstep as [c0 frames|c0 replies|c0|c0 error Hopen|c0 body u Hopen Huuid];
    subst; simpl in *.
  - repeat split; [done..|]. exists l. done.
  - repeat split; [done..|]. exists l. done.
  - rewrite (Hnil eq_refl) in Hl. rewrite app_nil_r in Hl.
    split; [done|]. split; [auto|].
    exists []. rewrite app_nil_r. repeat split; done.
  - split; [done|]. split; [congruence|].
    eexists (_ :: l). rewrite Hl, <- app_assoc. split; [reflexivity|].
    split; [congruence|]. constructor; [simpl; auto | exact Hall].
  - split; [done|]. split; [congruence|].
    eexists (_ :: l). rewrite Hl, <- app_assoc. split; [reflexivity|].
    split; [congruence|]. constructor; [simpl; eauto | exact Hall].
Qed.

End Steps.

(** ** A socket that is not open *)

Section Closed.

Variable modelURI : URI.
Variable hasProvider : string -> bool.
Variable getCommands : URI -> ModelServerCommand -> Settled Provided.
Variable getTriggers : URI -> list Operation -> Settled Triggers.

Local Abbreviation execute := (execute modelURI hasProvider getCommands).
Local Abbreviation commit := (commit modelURI hasProvider getCommands getTriggers).
Local Abbreviation roll_back error := (mkMessage roll_back_msg modelURI (ErrorData error)).

Lemma isOpen_popNestedContext c o c' :
  popNestedContext c = (o, c') -> isOpen c' = isOpen c /\ sent c' = sent c.
Proof.
  unfold popNestedContext.
  destruct (nestedContexts c) as [|[result] [|[current] rest]]; intros [= <- <-]; done.
Qed.

(** C6 (as amended): on a socket that is not open [execute] and
    [applyPatch] (and every send of an [execute] message) reject with
    'Socket is closed.' and change nothing; [commit] on a context with a
    frame on its stack does not fail: it pops that frame and resolves with
    the closed sentinel, and whatever the stack it sends nothing;
    [rollback] resolves with the sentinel whatever the state of the socket,
    and sends a [roll-back] exactly when the socket is open. *)
Theorem closed_socket_operations (c : Context) :
  (isOpen c = false ->
   (forall fuel modelUri command,
      execute (S fuel) modelUri command c = (Rejected "Socket is closed.", c)) /\
   (forall p, applyPatch modelURI p c = (Rejected "Socket is closed.", c)) /\
   (forall body, sendExecuteMessage modelURI body c = (Rejected "Socket is closed.", c)) /\
   (forall fuel top rest,
      nestedContexts c = top :: rest ->
      exists c',
        popNestedContext c = (Resolved (aggregatedUpdateResult top), c') /\
        nestedContexts c' =
          match rest with
          | parent :: rest' =>
              mkNested (mergeModelUpdateResult (aggregatedUpdateResult parent)
                          (Some (aggregatedUpdateResult top))) :: rest'
          | [] => []
          end /\
        commit fuel c = (Resolved (mkResult false None None), c') /\
        sent c' = sent c) /\
   (forall fuel o c', commit fuel c = (o, c') -> sent c' = sent c)) /\
  (forall error,
     rollback modelURI error c =
     (Resolved (mkResult false None None),
      if isOpen c then set_sent (sent c ++ [roll_back error]) c else c)).
Proof.
  split.
  - intros Hclosed. split; [|split; [|split; [|split]]].
    + intros fuel modelUri command. simpl. by rewrite Hclosed.
    + intros p. unfold applyPatch. by rewrite Hclosed.
    + intros body. unfold sendExecuteMessage. by rewrite Hclosed.
    + intros fuel [top] rest Hstack. unfold Transaction.commit, bind, popNestedContext.
      rewrite Hstack. destruct rest as [|[parent] rest'].
      * eexists. split; [reflexivity|]. split; [reflexivity|].
        change (isOpen (set_nestedContexts [] c)) with (isOpen c).
        by rewrite Hclosed.
      * eexists. split; [reflexivity|]. split; [reflexivity|].
        change (isOpen (set_nestedContexts
                          (mkNested (mergeModelUpdateResult parent (Some top)) :: rest') c))
          with (isOpen c).
        by rewrite Hclosed.
    + intros fuel o c'. unfold Transaction.commit, bind.
      destruct (popNestedContext c) as [[r|reason| |] c1] eqn:E;
        apply isOpen_popNestedContext in E as [E1 E2];
        try (intros [= <- <-]; exact E2).
      rewrite E1, Hclosed. simpl. intros [= <- <-]. exact E2.
  - intros error. rewrite rollback_sends. destruct (isOpen c); reflexivity.
Qed.

(** C7 (as amended): an empty or nil patch is answered with
    [{ success: false }] and nothing is sent, provided that the socket is
    open; on a socket that is not open the call rejects, for this test
    comes first. *)
Theorem applyPatch_empty (c : Context) (p : PatchArg) :
  is_empty_patch p = true ->
  applyPatch modelURI p c =
  if isOpen c then (Resolved (mkResult false None None), c)
  else (Rejected "Socket is closed.", c).
Proof.
  intros Hempty. unfold applyPatch. destruct (isOpen c); simpl; [|reflexivity].
  by rewrite Hempty.
Qed.

(** ** Before the UUID has arrived *)

(** C9 (the code at the input where it departs from the claim): between
    [socket.onopen] and the first message the socket is open and the UUID
    is pending; [rollback] (also through a child obtained in the meantime)
    sends [roll-back] and [commit] sends [close] without awaiting the
    UUID. *)
Theorem rollback_and_commit_do_not_await_uuid (replies : list Incoming) (error : Reason)
    (fuel : nat) :
  let c := onopen (opening replies) in
  uuid c = PromisePending /\
  rollback modelURI error c =
    (Resolved transactionClosed, set_sent [roll_back error] c) /\
  (let! _ := openTransaction in
   child_call modelURI hasProvider getCommands fuel (child_rollback error)) c =
    (Resolved transactionClosed,
     set_sent [roll_back error]
       (set_nestedContexts [mkNested emptyUpdateResult; mkNested emptyUpdateResult] c)) /\
  commit (S fuel) c =
    (Resolved emptyUpdateResult,
     set_sent [mkMessage close_msg modelURI EmptyData] (set_nestedContexts [] c)).
Proof. repeat split. Qed.

(** An [execute] message, in contrast, is never sent without the UUID:
    whatever [execute], [applyPatch] or the triggers of [commit] do on a
    context whose UUID has not been resolved, they send no [execute]. *)
Lemma no_execute_before_uuid c c' :
  rtc (step modelURI) c c' ->
  (forall u, uuid c <> PromiseResolved u) ->
  exists l, sent c' = sent c ++ l /\ of_type execute_msg l = [].
Proof.
  intros Hsteps Hpending.
  destruct (steps_sent _ _ _ Hsteps) as (_ & _ & l & Hl & _ & Hall).
  exists l. split; [exact Hl|].
  clear Hl. induction Hall as [|m l [_ Hm] _ IH]; [reflexivity|].
  unfold of_type in *. rewrite filter_cons. destruct Hm as [Hm | [_ [u Hu]]].
  - rewrite decide_False by congruence. exact IH.
  - by destruct (Hpending u).
Qed.

Lemma execute_awaits_uuid fuel modelUri command c o c' :
  execute fuel modelUri command c = (o, c') ->
  (forall u, uuid c <> PromiseResolved u) ->
  exists l, sent c' = sent c ++ l /\ of_type execute_msg l = [].
Proof. intros E. apply no_execute_before_uuid. eapply stepwise_execute, E. Qed.

Lemma applyPatch_awaits_uuid p c o c' :
  applyPatch modelURI p c = (o, c') ->
  (forall u, uuid c <> PromiseResolved u) ->
  exists l, sent c' = sent c ++ l /\ of_type execute_msg l = [].
Proof. intros E. apply no_execute_before_uuid. eapply stepwise_applyPatch, E. Qed.

(** ** Command dispatch *)

Lemma doExecute_not_provided exec modelUri command :
  hasProvider (command_type command) = false ->
  doExecute modelURI hasProvider getCommands exec modelUri command =
  sendExecuteMessage modelURI (ExecuteCommand command).
Proof. intros H. unfold doExecute. rewrite H. reflexivity. Qed.

Lemma doExecute_substitute_command exec modelUri command substitute :
  hasProvider (command_type command) = true ->
  getCommands modelUri command = Fulfilled (ProvidedCommand substitute) ->
  doExecute modelURI hasProvider getCommands exec modelUri command =
  sendExecuteMessage modelURI (ExecuteCommand substitute).
Proof. intros H1 H2. unfold doExecute. rewrite H1, H2. reflexivity. Qed.

Lemma doExecute_substitute_patch exec modelUri command substitute :
  hasProvider (command_type command) = true ->
  getCommands modelUri command = Fulfilled (ProvidedPatch substitute) ->
  doExecute modelURI hasProvider getCommands exec modelUri command =
  sendExecuteMessage modelURI (ExecutePatch substitute).
Proof. intros H1 H2. unfold doExecute. rewrite H1, H2. reflexivity. Qed.

(** A transaction function that reports success: its frame is popped,
    merged into the frame below and returned. *)
Lemma doExecute_transaction_succeeded exec modelUri command fn c c1 child parent rest :
  hasProvider (command_type command) = true ->
  getCommands modelUri command = Fulfilled (ProvidedTransaction fn) ->
  runTransaction modelURI exec fn
    (set_nestedContexts (mkNested emptyUpdateResult :: nestedContexts c) c)
    = (Resolved true, c1) ->
  nestedContexts c1 = mkNested child :: mkNested parent :: rest ->
  doExecute modelURI hasProvider getCommands exec modelUri command c =
  (Resolved child,
   set_nestedContexts (mkNested (mergeModelUpdateResult parent (Some child)) :: rest) c1).
Proof.
  intros H1 H2 Hrun Hstack. unfold doExecute. rewrite H1, H2. simpl.
  unfold bind at 1. simpl. unfold bind at 1. simpl. unfold bind at 1.
  unfold pushNestedContext. simpl. rewrite Hrun. simpl.
  unfold popNestedContext. rewrite Hstack. reflexivity.
Qed.

(** C3 (the code at the input where it departs from the claim): when the
    transaction function reports failure, [popNestedContext] still merges
    the popped aggregate into the frame below before the call rejects; the
    changes of the failed function are not discarded from the parent. *)
Theorem doExecute_failed_transaction_is_merged exec modelUri command fn c c1 child parent rest :
  hasProvider (command_type command) = true ->
  getCommands modelUri command = Fulfilled (ProvidedTransaction fn) ->
  runTransaction modelURI exec fn
    (set_nestedContexts (mkNested emptyUpdateResult :: nestedContexts c) c)
    = (Resolved false, c1) ->
  nestedContexts c1 = mkNested child :: mkNested parent :: rest ->
  doExecute modelURI hasProvider getCommands exec modelUri command c =
  (Rejected "Command execution failed.",
   set_nestedContexts (mkNested (mergeModelUpdateResult parent (Some child)) :: rest) c1).
Proof.
  intros H1 H2 Hrun Hstack. unfold doExecute. rewrite H1, H2. simpl.
  unfold bind at 1. simpl. unfold bind at 1. simpl. unfold bind at 1.
  unfold pushNestedContext. simpl. rewrite Hrun. simpl.
  unfold bind, popNestedContext. rewrite Hstack. reflexivity.
Qed.

End Closed.

(** ** Automatic roll-back *)

Section AutoRollback.

Variable modelURI : URI.
Variable hasProvider : string -> bool.
Variable getCommands : URI -> ModelServerCommand -> Settled Provided.
Variable getTriggers : URI -> list Operation -> Settled Triggers.

Local Abbreviation execute := (execute modelURI hasProvider getCommands).
Local Abbreviation commit := (commit modelURI hasProvider getCommands getTriggers).
Local Abbreviation commit_loop := (commit_loop modelURI hasProvider getCommands getTriggers).
Local Abbreviation performTriggers := (performTriggers modelURI hasProvider getCommands).

(** Steps never send [close]. *)
Lemma steps_no_close c c' :
  rtc (step modelURI) c c' ->
  exists l, sent c' = sent c ++ l /\ of_type close_msg l = [].
Proof.
  intros Hsteps. destruct (steps_sent _ _ _ Hsteps) as (_ & _ & l & Hl & _ & Hall).
  exists l. split; [exact Hl|]. clear Hl.
  induction Hall as [|m l [_ Hm] _ IH]; [reflexivity|].
  unfold of_type in *. rewrite filter_cons.
  rewrite decide_False; [exact IH|]. destruct Hm as [Hm | [Hm _]]; congruence.
Qed.

Lemma sends_no_roll_back_resolve {A} (a : A) : sends_no_roll_back (resolve a).
Proof. intros c o c' [= <- <-]. exists []. by rewrite app_nil_r. Qed.

Lemma sends_no_roll_back_reject {A} reason : sends_no_roll_back (@reject A reason).
Proof. intros c o c' [= <- <-]. exists []. by rewrite app_nil_r. Qed.

Lemma sends_no_roll_back_await_settled {A} (s : Settled A) :
  sends_no_roll_back (await_settled s).
Proof.
  destruct s; [apply sends_no_roll_back_resolve | apply sends_no_roll_back_reject].
Qed.

Lemma sent_await_reply c o c' : await_reply c = (o, c') -> sent c' = sent c.
Proof.
  unfold await_reply.
  destruct (upstream c) as [|[r|reason|reason] rest];
    [|destruct (nestedContexts c) as [|[current] below]|..]; by intros [= <- <-].
Qed.

Lemma sends_no_roll_back_sendExecuteMessage body :
  sends_no_roll_back (sendExecuteMessage modelURI body).
Proof.
  intros c o c'. unfold sendExecuteMessage.
  destruct (isOpen c) eqn:Hopen; simpl;
    [|intros [= <- <-]; exists []; by rewrite app_nil_r].
  unfold bind at 1, await_uuid.
  destruct (uuid c) as [|u|reason];
    try (intros [= <- <-]; exists []; by rewrite app_nil_r).
  destruct (peekNestedContext c);
    [|intros [= <- <-]; exists []; by rewrite app_nil_r].
  unfold bind. rewrite socket_send_open by done. intros Hreply.
  apply sent_await_reply in Hreply. simpl in Hreply.
  eexists. split; [exact Hreply|]. reflexivity.
Qed.

Lemma rolls_back_once_resolve {A} (a : A) : rolls_back_once (resolve a).
Proof. intros c o c' [= <- <-]. exists []. by rewrite app_nil_r. Qed.

Lemma rolls_back_once_reject {A} reason : rolls_back_once (@reject A reason).
Proof. intros c o c' [= <- <-]. exists []. rewrite app_nil_r. split; [done|]. simpl. lia. Qed.

Lemma rolls_back_once_silent {A} (m : Async A) :
  (forall c o c', m c = (o, c') -> sent c' = sent c) -> rolls_back_once m.
Proof.
  intros Hm c o c' E. exists []. rewrite app_nil_r. split; [eauto|].
  destruct o; simpl; [done|lia|done..].
Qed.

Lemma rolls_back_once_bind {A B} (m : Async A) (k : A -> Async B) :
  rolls_back_once m -> (forall a, rolls_back_once (k a)) -> rolls_back_once (bind m k).
Proof.
  intros Hm Hk c o c'. unfold bind.
  destruct (m c) as [[a|reason| |] c1] eqn:E; destruct (Hm _ _ _ E) as (l & Hl & Hcount).
  - intros Hka. destruct (Hk _ _ _ _ Hka) as (l' & Hl' & Hcount').
    exists (l ++ l'). rewrite Hl', Hl, app_assoc. split; [done|].
    unfold of_type in *. rewrite filter_app, Hcount. exact Hcount'.
  - intros [= <- <-]. eauto.
  - intros [= <- <-]. eauto.
  - intros [= <- <-]. eauto.
Qed.

(** The wrapper sends one [roll-back] on top of what the wrapped edit
    sends, when that edit rejects (and the socket is open). *)
Lemma rolls_back_once_autoRollback {A} (m : Async A) :
  sends_no_roll_back m -> rolls_back_once (autoRollback modelURI m).
Proof.
  intros Hm c o c'. unfold autoRollback, catch.
  destruct (m c) as [[a|reason| |] c1] eqn:E; destruct (Hm _ _ _ E) as (l & Hl & Hcount);
    try (intros [= <- <-]; eauto).
  unfold bind. rewrite rollback_sends. destruct (isOpen c1); simpl; intros [= <- <-].
  - eexists (l ++ [_]). simpl. rewrite Hl, app_assoc. split; [done|].
    unfold of_type in *. rewrite filter_app, Hcount. simpl. lia.
  - exists l. split; [done|]. rewrite Hcount. simpl. lia.
Qed.

Lemma rolls_back_once_applyPatch p : rolls_back_once (applyPatch modelURI p).
Proof.
  intros c o c'. unfold applyPatch.
  destruct (isOpen c); simpl; [|apply (rolls_back_once_reject _ c)].
  destruct (is_empty_patch p); [apply (rolls_back_once_resolve _ c)|].
  apply rolls_back_once_autoRollback, sends_no_roll_back_sendExecuteMessage.
Qed.

Lemma rolls_back_once_popNestedContext : rolls_back_once popNestedContext.
Proof.
  apply rolls_back_once_silent. intros c o c' E.
  by apply isOpen_popNestedContext in E as [_ E].
Qed.

Lemma rolls_back_once_try_finally_pop {A} (body : Async A) :
  rolls_back_once body -> rolls_back_once (try_finally body popNestedContext).
Proof.
  intros Hb c o c'. unfold try_finally.
  destruct (body c) as [[a|reason| |] c1] eqn:E; destruct (Hb _ _ _ E) as (l & Hl & Hcount);
    try (intros [= <- <-]; eauto).
  - intros Hpop. exists l.
    apply isOpen_popNestedContext in Hpop as Hsent. destruct Hsent as [_ Hsent].
    rewrite Hsent, Hl. split; [done|]. rewrite Hcount. destruct o; simpl; [done|lia|done..].
  - destruct (popNestedContext c1) as [[r|reason'| |] c2] eqn:Hpop.
    3,4: unfold popNestedContext in Hpop;
         destruct (nestedContexts c1) as [|[result] [|[current] rest]]; discriminate Hpop.
    all: apply isOpen_popNestedContext in Hpop as [_ Hsent];
         intros [= <- <-]; exists l; rewrite Hsent, Hl; done.
Qed.

Section Flat.

(** The registries yield substitutes and patches only, no transaction
    function. *)
Hypothesis no_command_transaction :
  forall modelUri command fn,
    getCommands modelUri command <> Fulfilled (ProvidedTransaction fn).
Hypothesis no_trigger_transaction :
  forall delta fn, getTriggers modelURI delta <> Fulfilled (TriggerTransaction fn).

Lemma rolls_back_once_execute fuel modelUri command :
  rolls_back_once (execute fuel modelUri command).
Proof.
  destruct fuel as [|fuel]; simpl.
  { apply rolls_back_once_silent. by intros c o c' [= <- <-]. }
  intros c o c'. destruct (isOpen c); simpl; [|apply (rolls_back_once_reject _ c)].
  apply rolls_back_once_autoRollback. clear c o c'.
  unfold doExecute, sendCommand, sendPatch.
  destruct (hasProvider (command_type command)); simpl;
    [|apply sends_no_roll_back_sendExecuteMessage].
  pose proof (no_command_transaction modelUri command) as Hflat.
  destruct (getCommands modelUri command) as [[fn|substitute|substitute]|reason].
  - by destruct (Hflat fn).
  - intros c o c'. unfold bind. simpl. apply sends_no_roll_back_sendExecuteMessage.
  - intros c o c'. unfold bind. simpl. apply sends_no_roll_back_sendExecuteMessage.
  - intros c o c'. unfold bind. simpl. intros [= <- <-]. exists []. by rewrite app_nil_r.
Qed.

Lemma rolls_back_once_performTriggers fuel triggers :
  (forall fn, triggers <> TriggerTransaction fn) ->
  rolls_back_once (performTriggers fuel triggers).
Proof.
  intros Hflat. unfold Transaction.performTriggers.
  apply rolls_back_once_bind.
  { apply rolls_back_once_silent. by intros c o c' [= <- <-]. }
  intros _. apply rolls_back_once_try_finally_pop.
  destruct triggers as [|operations|fn]; [| |by destruct (Hflat fn)];
    (apply rolls_back_once_bind;
     [apply rolls_back_once_applyPatch | intros _; apply rolls_back_once_resolve]).
Qed.

Lemma rolls_back_once_commit_loop fuel updateResult modelDelta :
  rolls_back_once (commit_loop fuel updateResult modelDelta).
Proof.
  revert updateResult modelDelta.
  induction fuel as [|fuel IH]; intros updateResult modelDelta; simpl.
  { apply rolls_back_once_silent. by intros c o c' [= <- <-]. }
  destruct (has_operations modelDelta); [|apply rolls_back_once_resolve].
  pose proof (no_trigger_transaction (default [] modelDelta)) as Hflat.
  destruct (getTriggers modelURI (default [] modelDelta)) as [triggers|reason].
  - change (rolls_back_once
              (if negb (hasTriggers triggers) then resolve updateResult
               else let! triggerResult := performTriggers fuel triggers in
                    commit_loop fuel
                      (mergeModelUpdateResult updateResult (Some triggerResult))
                      (patch triggerResult))).
    destruct (hasTriggers triggers); simpl; [|apply rolls_back_once_resolve].
    apply rolls_back_once_bind; [|intros triggerResult; apply IH].
    apply rolls_back_once_performTriggers. intros fn ->. by apply (Hflat fn).
  - intros c o c'. unfold bind, autoRollback, catch, bind. simpl.
    rewrite rollback_sends. destruct (isOpen c); simpl; intros [= <- <-].
    + eexists [_]. split; [reflexivity|]. simpl. lia.
    + exists []. rewrite app_nil_r. split; [reflexivity|]. simpl. lia.
Qed.

Lemma rolls_back_once_commit fuel : rolls_back_once (commit fuel).
Proof.
  intros c o c'. unfold Transaction.commit. unfold bind at 1.
  destruct (popNestedContext c) as [[updateResult|reason| |] c1] eqn:Hpop;
    apply isOpen_popNestedContext in Hpop as [_ Hsent]; rewrite <- Hsent;
    try (apply (rolls_back_once_silent (fun c => (_, c))); by intros ? ? ? [= <- <-]).
  destruct (isOpen c1); simpl; [|apply (rolls_back_once_resolve _ c1)].
  apply rolls_back_once_bind; [apply rolls_back_once_commit_loop|].
  intros updateResult'. apply rolls_back_once_bind; [|intros _; apply rolls_back_once_resolve].
  clear. intros c o c'. unfold socket_send.
  destruct (socket c); intros [= <- <-]; [eexists [_]; split; reflexivity|].
  exists []. rewrite app_nil_r. split; [done|]. simpl. lia.
Qed.

End Flat.

Lemma commit_unresolved_no_close fuel c o c' :
  commit fuel c = (o, c') ->
  (forall r, o <> Resolved r) ->
  exists l, sent c' = sent c ++ l /\ of_type close_msg l = [].
Proof.
  unfold Transaction.commit. unfold bind at 1.
  destruct (popNestedContext c) as [[updateResult|reason| |] c1] eqn:Hpop;
    apply isOpen_popNestedContext in Hpop as [_ Hsent]; rewrite <- Hsent;
    try (intros [= <- <-] _; exists []; by rewrite app_nil_r).
  destruct (isOpen c1); simpl; [|intros [= <- <-] Ho; by destruct (Ho transactionClosed)].
  unfold bind at 1.
  destruct (commit_loop fuel updateResult (patch updateResult) c1)
    as [[updateResult'|reason| |] c2] eqn:Hloop;
    apply stepwise_commit_loop, steps_no_close in Hloop;
    try (intros [= <- <-] _; exact Hloop).
  unfold bind, socket_send. destruct (socket c2); intros [= <- <-] Ho.
  - by destruct (Ho updateResult').
  - exact Hloop.
Qed.

Lemma closed_socket_sends_nothing c c' :
  rtc (step modelURI) c c' -> isOpen c = false -> sent c' = sent c.
Proof.
  intros Hsteps Hclosed.
  destruct (steps_sent _ _ _ Hsteps) as (_ & _ & l & Hl & Hnil & _).
  rewrite Hl, (Hnil Hclosed). apply app_nil_r.
Qed.

(** C4 (as amended): a call that rejects sends no [close]; it sends at most
    one [roll-back] when it is [applyPatch], or when it is [execute] or
    [commit] and the registries yield no transaction function (with one,
    each enclosing wrapper adds its own); and a context whose socket is
    not open sends nothing at all. *)
Theorem rejection_rolls_back_without_close (c : Context) :
  let flat :=
    (forall modelUri command fn,
       getCommands modelUri command <> Fulfilled (ProvidedTransaction fn)) /\
    (forall delta fn, getTriggers modelURI delta <> Fulfilled (TriggerTransaction fn)) in
  (forall p reason c',
     applyPatch modelURI p c = (Rejected reason, c') ->
     exists l, sent c' = sent c ++ l /\ of_type close_msg l = [] /\
               length (of_type roll_back_msg l) <= 1) /\
  (forall fuel modelUri command reason c',
     execute fuel modelUri command c = (Rejected reason, c') ->
     exists l, sent c' = sent c ++ l /\ of_type close_msg l = [] /\
               (flat -> length (of_type roll_back_msg l) <= 1)) /\
  (forall fuel reason c',
     commit fuel c = (Rejected reason, c') ->
     exists l, sent c' = sent c ++ l /\ of_type close_msg l = [] /\
               (flat -> length (of_type roll_back_msg l) <= 1)) /\
  (isOpen c = false ->
   forall fuel modelUri command p error o c',
     execute fuel modelUri command c = (o, c') \/
     applyPatch modelURI p c = (o, c') \/
     commit fuel c = (o, c') \/
     rollback modelURI error c = (o, c') ->
     sent c' = sent c).
Proof.
  intros flat. repeat split.
  - intros p reason c' E.
    destruct (steps_no_close _ _ (stepwise_applyPatch _ _ _ _ _ E)) as (l & Hl & Hclose).
    exists l. repeat split; [done..|].
    destruct (rolls_back_once_applyPatch _ _ _ _ E) as (l' & Hl' & Hcount).
    rewrite Hl in Hl'. by apply app_inv_head in Hl' as ->.
  - intros fuel modelUri command reason c' E.
    destruct (steps_no_close _ _ (stepwise_execute _ _ _ _ _ _ _ _ _ E))
      as (l & Hl & Hclose).
    exists l. repeat split; [done..|]. intros [Hcommands _].
    destruct (rolls_back_once_execute Hcommands _ _ _ _ _ _ E) as (l' & Hl' & Hcount).
    rewrite Hl in Hl'. by apply app_inv_head in Hl' as ->.
  - intros fuel reason c' E.
    destruct (commit_unresolved_no_close _ _ _ _ E) as (l & Hl & Hclose); [done|].
    exists l. repeat split; [done..|]. intros [Hcommands Htriggers].
    destruct (rolls_back_once_commit Htriggers _ _ _ _ E) as (l' & Hl' & Hcount).
    rewrite Hl in Hl'. by apply app_inv_head in Hl' as ->.
  - intros Hclosed fuel modelUri command p error o c' [E | [E | [E | E]]].
    + eapply closed_socket_sends_nothing; [|exact Hclosed].
      eapply stepwise_execute, E.
    + eapply closed_socket_sends_nothing; [|exact Hclosed].
      eapply stepwise_applyPatch, E.
    + revert E. unfold Transaction.commit, bind.
      destruct (popNestedContext c) as [[r|reason| |] c1] eqn:Hpop;
        apply isOpen_popNestedContext in Hpop as [E1 E2];
        try (intros [= <- <-]; exact E2).
      rewrite E1, Hclosed. simpl. intros [= <- <-]. exact E2.
    + eapply closed_socket_sends_nothing; [|exact Hclosed].
      eapply stepwise_rollback, E.
Qed.

End AutoRollback.

(** ** Enough fuel *)

Section Fuel.

Variable modelURI : URI.
Variable hasProvider : string -> bool.
Variable getCommands : URI -> ModelServerCommand -> Settled Provided.
Variable getTriggers : URI -> list Operation -> Settled Triggers.

Local Abbreviation execute := (execute modelURI hasProvider getCommands).
Local Abbreviation commit := (commit modelURI hasProvider getCommands getTriggers).
Local Abbreviation commit_loop := (commit_loop modelURI hasProvider getCommands getTriggers).
Local Abbreviation performTriggers := (performTriggers modelURI hasProvider getCommands).

Lemma fuel_extends_refl {A} (m : Async A) : fuel_extends m m.
Proof. by intros c o c' E _. Qed.

Lemma fuel_extends_bind {A B} (m m' : Async A) (k k' : A -> Async B) :
  fuel_extends m m' -> (forall a, fuel_extends (k a) (k' a)) ->
  fuel_extends (bind m k) (bind m' k').
Proof.
  intros Hm Hk c o c'. unfold bind.
  destruct (m c) as [[a|reason| |] c1] eqn:E.
  - rewrite (Hm _ _ _ E) by done. apply Hk.
  - rewrite (Hm _ _ _ E) by done. by intros [= <- <-].
  - rewrite (Hm _ _ _ E) by done. by intros [= <- <-].
  - by intros [= <- <-].
Qed.

Lemma fuel_extends_catch {A} (m m' : Async A) (h h' : Reason -> Async A) :
  fuel_extends m m' -> (forall reason, fuel_extends (h reason) (h' reason)) ->
  fuel_extends (catch m h) (catch m' h').
Proof.
  intros Hm Hh c o c'. unfold catch.
  destruct (m c) as [[a|reason| |] c1] eqn:E.
  - rewrite (Hm _ _ _ E) by done. by intros [= <- <-].
  - rewrite (Hm _ _ _ E) by done. apply Hh.
  - rewrite (Hm _ _ _ E) by done. by intros [= <- <-].
  - by intros [= <- <-].
Qed.

Lemma fuel_extends_try_finally {A B} (body body' : Async A) (cleanup : Async B) :
  fuel_extends body body' ->
  fuel_extends (try_finally body cleanup) (try_finally body' cleanup).
Proof.
  intros Hb c o c'. unfold try_finally.
  destruct (body c) as [[a|reason| |] c1] eqn:E.
  - by rewrite (Hb _ _ _ E) by done.
  - by rewrite (Hb _ _ _ E) by done.
  - by rewrite (Hb _ _ _ E) by done.
  - by intros [= <- <-].
Qed.

Lemma fuel_extends_runTransaction exec exec' fn :
  (forall modelUri command, fuel_extends (exec modelUri command) (exec' modelUri command)) ->
  fuel_extends (runTransaction modelURI exec fn) (runTransaction modelURI exec' fn).
Proof.
  intros Hexec. induction fn as [result|reason|modelUri command k IH|p k IH];
    intros c o c'; simpl; try done.
  - destruct (exec modelUri command c) as [[r|reason| |] c1] eqn:E.
    + rewrite (Hexec _ _ _ _ _ E) by done. apply IH.
    + rewrite (Hexec _ _ _ _ _ E) by done. apply IH.
    + by rewrite (Hexec _ _ _ _ _ E) by done.
    + by intros [= <- <-].
  - destruct (applyPatch modelURI p c) as [[r|reason| |] c1] eqn:E; try done.
    + apply IH.
    + apply IH.
Qed.

Lemma fuel_extends_doExecute exec exec' modelUri command :
  (forall modelUri command, fuel_extends (exec modelUri command) (exec' modelUri command)) ->
  fuel_extends (doExecute modelURI hasProvider getCommands exec modelUri command)
               (doExecute modelURI hasProvider getCommands exec' modelUri command).
Proof.
  intros Hexec. unfold doExecute.
  destruct (hasProvider (command_type command)); simpl; [|apply fuel_extends_refl].
  apply fuel_extends_bind; [apply fuel_extends_refl|].
  intros [fn|substitute|substitute]; try apply fuel_extends_refl.
  apply fuel_extends_bind; [apply fuel_extends_refl|]. intros _.
  apply fuel_extends_bind; [by apply fuel_extends_runTransaction|].
  intros success. apply fuel_extends_refl.
Qed.

Lemma fuel_extends_execute fuel fuel' modelUri command :
  fuel <= fuel' ->
  fuel_extends (execute fuel modelUri command) (execute fuel' modelUri command).
Proof.
  revert fuel' modelUri command.
  induction fuel as [|fuel IH]; intros fuel' modelUri command Hle.
  { intros c o c' [= <- <-]. done. }
  destruct fuel' as [|fuel']; [lia|]. simpl.
  intros c o c'. destruct (isOpen c); simpl; [|done].
  apply fuel_extends_catch; [|intros; apply fuel_extends_refl].
  apply fuel_extends_doExecute. intros. apply IH. lia.
Qed.

Lemma fuel_extends_performTriggers fuel fuel' triggers :
  fuel <= fuel' ->
  fuel_extends (performTriggers fuel triggers) (performTriggers fuel' triggers).
Proof.
  intros Hle. unfold Transaction.performTriggers.
  apply fuel_extends_bind; [apply fuel_extends_refl|]. intros _.
  apply fuel_extends_try_finally.
  destruct triggers as [|operations|fn]; try apply fuel_extends_refl.
  apply fuel_extends_bind; [|intros; apply fuel_extends_refl].
  apply fuel_extends_runTransaction. intros. by apply fuel_extends_execute.
Qed.

Lemma fuel_extends_commit_loop fuel fuel' updateResult modelDelta :
  fuel <= fuel' ->
  fuel_extends (commit_loop fuel updateResult modelDelta)
               (commit_loop fuel' updateResult modelDelta).
Proof.
  revert fuel' updateResult modelDelta.
  induction fuel as [|fuel IH]; intros fuel' updateResult modelDelta Hle.
  { intros c o c' [= <- <-]. done. }
  destruct fuel' as [|fuel']; [lia|]. simpl.
  destruct (has_operations modelDelta); [|apply fuel_extends_refl].
  apply fuel_extends_bind; [apply fuel_extends_refl|].
  intros triggers. destruct (hasTriggers triggers); simpl; [|apply fuel_extends_refl].
  apply fuel_extends_bind; [apply fuel_extends_performTriggers; lia|].
  intros triggerResult. apply IH. lia.
Qed.

Lemma fuel_extends_commit fuel fuel' :
  fuel <= fuel' -> fuel_extends (commit fuel) (commit fuel').
Proof.
  intros Hle. unfold Transaction.commit.
  apply fuel_extends_bind; [apply fuel_extends_refl|]. intros updateResult.
  intros c o c'. destruct (isOpen c); simpl; [|done].
  apply fuel_extends_bind; [by apply fuel_extends_commit_loop|].
  intros. apply fuel_extends_refl.
Qed.

End Fuel.

(** C6: [commit] touches the wire, yet on a closed socket it does not fail:
    it resolves with the sentinel. *)
Lemma commit_on_closed_socket_resolves :
  isOpen Scenarios.closed_context = false /\
  Transaction.commit Scenarios.m1 Scenarios.no_provider Scenarios.no_commands
    Scenarios.no_triggers 1 Scenarios.closed_context
  = (Resolved transactionClosed, set_nestedContexts [] Scenarios.closed_context) /\
  ~ exists reason c',
      Transaction.commit Scenarios.m1 Scenarios.no_provider Scenarios.no_commands
        Scenarios.no_triggers 1 Scenarios.closed_context
      = (Rejected reason, c').
Proof.
  split; [reflexivity|]. split; [reflexivity|].
  intros (reason & c' & H). vm_compute in H. discriminate H.
Qed.

(** C6 on the root context whose socket Upstream has closed. *)
Lemma closed_socket_operations_witness :
  isOpen Scenarios.closed_context = false /\
  nestedContexts Scenarios.closed_context = [mkNested emptyUpdateResult] /\
  Transaction.execute Scenarios.m1 Scenarios.no_provider Scenarios.no_commands 1
    Scenarios.m1 Scenarios.T1 Scenarios.closed_context
  = (Rejected "Socket is closed.", Scenarios.closed_context) /\
  (exists c',
     Transaction.commit Scenarios.m1 Scenarios.no_provider Scenarios.no_commands
       Scenarios.no_triggers 1 Scenarios.closed_context
     = (Resolved (mkResult false None None), c') /\
     nestedContexts c' = [] /\
     sent c' = sent Scenarios.closed_context).
Proof.
  split; [reflexivity|]. split; [reflexivity|].
  destruct (closed_socket_operations Scenarios.m1 Scenarios.no_provider Scenarios.no_commands
              Scenarios.no_triggers Scenarios.closed_context) as [Hclosed _].
  destruct (Hclosed eq_refl) as (Hexecute & _ & _ & Hcommit & _).
  split; [apply Hexecute|].
  destruct (Hcommit 1 (mkNested emptyUpdateResult) [] eq_refl)
    as (c' & _ & Hstack & Hresolved & Hsent).
  exists c'. split; [exact Hresolved|]. split; [exact Hstack | exact Hsent].
Defined.

(** C7: with the socket closed, an empty patch is rejected. *)
Lemma applyPatch_empty_on_closed_socket_rejects :
  is_empty_patch (ManyPatch []) = true /\
  applyPatch Scenarios.m1 (ManyPatch []) Scenarios.closed_context
  = (Rejected "Socket is closed.", Scenarios.closed_context) /\
  ~ exists c',
      applyPatch Scenarios.m1 (ManyPatch []) Scenarios.closed_context
      = (Resolved (mkResult false None None), c').
Proof.
  split; [reflexivity|]. split; [reflexivity|].
  intros (c' & H). vm_compute in H. discriminate H.
Qed.

Lemma applyPatch_empty_witness :
  is_empty_patch NilPatch = true /\
  applyPatch Scenarios.m1 NilPatch (Scenarios.open_context [])
  = (Resolved (mkResult false None None), Scenarios.open_context []).
Proof.
  split; [reflexivity|].
  apply (applyPatch_empty Scenarios.m1 (Scenarios.open_context []) NilPatch).
  reflexivity.
Defined.

(** C3 at scenario S3: the function applies [P_a] and returns [false]; the
    call rejects, and the root frame now holds [P_a]. *)
Lemma doExecute_failed_transaction_is_merged_witness :
  exists c',
    doExecute Scenarios.m1 Scenarios.provides_T1 Scenarios.commands_S3
      (Transaction.execute Scenarios.m1 Scenarios.provides_T1 Scenarios.commands_S3 0)
      Scenarios.m1 Scenarios.T1 (Scenarios.open_context [Reply (Scenarios.succeeded Scenarios.P_a)])
    = (Rejected "Command execution failed.", c') /\
    nestedContexts c' = [mkNested (Scenarios.succeeded Scenarios.P_a)].
Proof.
  eexists. split.
  - eapply (doExecute_failed_transaction_is_merged Scenarios.m1 Scenarios.provides_T1
              Scenarios.commands_S3); reflexivity.
  - reflexivity.
Defined.

(** C4: a failing [applyPatch] inside a transaction function that does not
    catch is rolled back by the wrapper of [applyPatch] and again by the
    wrapper of the enclosing [execute]: two [roll-back] messages. *)
Lemma nested_rejection_rolls_back_twice :
  exists c',
    Transaction.execute Scenarios.m1 Scenarios.provides_T1 Scenarios.commands_nested 1
      Scenarios.m1 Scenarios.T1 (Scenarios.open_context [ReplyError "boom"])
    = (Rejected "boom", c') /\
    of_type roll_back_msg (sent c') =
      [mkMessage roll_back_msg Scenarios.m1 (ErrorData "boom");
       mkMessage roll_back_msg Scenarios.m1 (ErrorData "boom")] /\
    ~ length (of_type roll_back_msg (sent c')) <= 1.
Proof.
  eexists. split; [reflexivity|]. split; [reflexivity|]. vm_compute. lia.
Qed.

(** Nor is a later [close] excluded while Upstream has not yet closed the
    socket: a [commit] that follows the rejected [execute] of scenario S3
    finds the socket open and sends [close] after the [roll-back]. *)
Lemma close_after_roll_back :
  exists c',
    (let! _ := catch (Transaction.execute Scenarios.m1 Scenarios.provides_T1
                        Scenarios.commands_S3 1 Scenarios.m1 Scenarios.T1)
                     (fun _ => resolve Scenarios.failed) in
     Transaction.commit Scenarios.m1 Scenarios.provides_T1 Scenarios.commands_S3
       Scenarios.no_triggers 2)
      (Scenarios.open_context [Reply (Scenarios.succeeded Scenarios.P_a)])
    = (Resolved (Scenarios.succeeded Scenarios.P_a), c') /\
    map type (sent c') = [execute_msg; roll_back_msg; close_msg].
Proof. eexists. split; reflexivity. Qed.

Lemma rejection_rolls_back_without_close_witness :
  exists c' l,
    applyPatch Scenarios.m1 (ManyPatch Scenarios.P_a) (Scenarios.open_context [ReplyError "boom"])
    = (Rejected "boom", c') /\
    sent c' = sent (Scenarios.open_context [ReplyError "boom"]) ++ l /\
    of_type close_msg l = [] /\
    length (of_type roll_back_msg l) <= 1.
Proof.
  eexists.
  destruct (rejection_rolls_back_without_close Scenarios.m1 Scenarios.no_provider
              Scenarios.no_commands Scenarios.no_triggers
              (Scenarios.open_context [ReplyError "boom"])) as [Hpatch _].
  destruct (Hpatch (ManyPatch Scenarios.P_a) "boom" _ eq_refl) as (l & Hl).
  exists l. split; [reflexivity | exact Hl].
Defined.

(** ** The scenarios of the design, run *)

(** S1: a patch, then [commit] without triggers. *)
Example scenario_S1 :
  exists c',
    (let! _ := applyPatch Scenarios.m1 (ManyPatch Scenarios.P_a) in
     Transaction.commit Scenarios.m1 Scenarios.no_provider Scenarios.no_commands
       Scenarios.no_triggers 1)
      (Scenarios.open_context [Reply (Scenarios.succeeded Scenarios.P_a)])
    = (Resolved (Scenarios.succeeded Scenarios.P_a), c') /\
    map type (sent c') = [execute_msg; close_msg] /\
    nestedContexts c' = [].
Proof. eexists. repeat split. Qed.

(** S2: a command expanded by a transaction function into two patches. *)
Example scenario_S2 :
  exists c',
    Transaction.execute Scenarios.m1 Scenarios.provides_T1 Scenarios.commands_S2 1
      Scenarios.m1 Scenarios.T1
      (Scenarios.open_context
         [Reply (Scenarios.succeeded Scenarios.P_a); Reply (Scenarios.succeeded Scenarios.P_b)])
    = (Resolved (Scenarios.succeeded (Scenarios.P_a ++ Scenarios.P_b)), c') /\
    map data (sent c') =
      [ExecuteData (ExecutePatch (ManyPatch Scenarios.P_a));
       ExecuteData (ExecutePatch (ManyPatch Scenarios.P_b))] /\
    nestedContexts c' = [mkNested (Scenarios.succeeded (Scenarios.P_a ++ Scenarios.P_b))].
Proof. eexists. repeat split. Qed.

(** S3: the transaction function fails after [P_a]; the call rejects and a
    [roll-back] is sent. *)
Example scenario_S3 :
  exists c',
    Transaction.execute Scenarios.m1 Scenarios.provides_T1 Scenarios.commands_S3 1
      Scenarios.m1 Scenarios.T1
      (Scenarios.open_context [Reply (Scenarios.succeeded Scenarios.P_a)])
    = (Rejected "Command execution failed.", c') /\
    map type (sent c') = [execute_msg; roll_back_msg] /\
    nestedContexts c' = [mkNested (Scenarios.succeeded Scenarios.P_a)].
Proof. eexists. repeat split. Qed.

(** A failed reply without a patch, received by [sendExecuteMessage], leaves
    the aggregate of the current frame successful. *)
Example failed_reply_leaves_aggregate_successful :
  exists c',
    applyPatch Scenarios.m1 (ManyPatch Scenarios.P_a) (Scenarios.open_context [Reply Scenarios.failed])
    = (Resolved Scenarios.failed, c') /\
    nestedContexts c' = [mkNested emptyUpdateResult] /\
    success emptyUpdateResult = true.
Proof. eexists. repeat split. Qed.

(** ** Edits and their replies *)

Section Edits.

Variable modelURI : URI.
Variable hasProvider : string -> bool.
Variable getCommands : URI -> ModelServerCommand -> Settled Provided.
Variable getTriggers : URI -> list Operation -> Settled Triggers.

Local Abbreviation execute := (execute modelURI hasProvider getCommands).
Local Abbreviation commit := (commit modelURI hasProvider getCommands getTriggers).
Local Abbreviation execute_message body := (mkMessage execute_msg modelURI (ExecuteData body)).
Local Abbreviation roll_back error := (mkMessage roll_back_msg modelURI (ErrorData error)).

(** With the socket open, the UUID in hand and a frame on the stack, the
    message goes out and the reply is awaited. *)
Lemma sendExecuteMessage_sends body c u top rest :
  isOpen c = true -> uuid c = PromiseResolved u -> nestedContexts c = top :: rest ->
  sendExecuteMessage modelURI body c =
  await_reply (set_sent (sent c ++ [execute_message body]) c).
Proof.
  intros Hopen Hu Hstack. unfold sendExecuteMessage. rewrite Hopen. simpl.
  unfold bind at 1, await_uuid. rewrite Hu.
  unfold peekNestedContext. rewrite Hstack.
  unfold bind. by rewrite socket_send_open.
Qed.

(** X1: on an open context whose UUID has arrived and whose stack holds a
    frame, an edit to which Upstream replies sends one [execute] message,
    takes that reply off the queue, merges it into the frame on top of the
    stack and into no other, and returns it.  The message carries the patch
    for [applyPatch], the command for a command without provider, and the
    substitute, not the command, where a provider substitutes. *)
Theorem edit_reply (c : Context) u top rest r replies :
  isOpen c = true ->
  uuid c = PromiseResolved u ->
  nestedContexts c = mkNested top :: rest ->
  upstream c = Reply r :: replies ->
  let answered body :=
    (Resolved r,
     mkContext (socket c) (uuid c)
       (mkNested (mergeModelUpdateResult top (Some r)) :: rest)
       (sent c ++ [execute_message body]) replies) in
  (forall p, is_empty_patch p = false ->
     applyPatch modelURI p c = answered (ExecutePatch p)) /\
  (forall fuel modelUri command,
     hasProvider (command_type command) = false ->
     execute (S fuel) modelUri command c = answered (ExecuteCommand command)) /\
  (forall fuel modelUri command substitute,
     hasProvider (command_type command) = true ->
     getCommands modelUri command = Fulfilled (ProvidedCommand substitute) ->
     execute (S fuel) modelUri command c = answered (ExecuteCommand substitute)) /\
  (forall fuel modelUri command substitute,
     hasProvider (command_type command) = true ->
     getCommands modelUri command = Fulfilled (ProvidedPatch substitute) ->
     execute (S fuel) modelUri command c = answered (ExecutePatch substitute)).
Proof.
  intros Hopen Hu Hstack Hreply answered.
  assert (Hsend : forall body,
             autoRollback modelURI (sendExecuteMessage modelURI body) c = answered body).
  { intros body. unfold autoRollback, catch.
    rewrite (sendExecuteMessage_sends body c u _ _ Hopen Hu Hstack).
    unfold await_reply. simpl. rewrite Hreply, Hstack. reflexivity. }
  repeat split.
  - intros p Hp. unfold applyPatch. rewrite Hopen, Hp. apply Hsend.
  - intros fuel modelUri command Hnone. simpl. rewrite Hopen. simpl.
    unfold doExecute. rewrite Hnone. apply Hsend.
  - intros fuel modelUri command substitute Hsome Hsubstitute. simpl. rewrite Hopen. simpl.
    unfold doExecute. rewrite Hsome, Hsubstitute. apply Hsend.
  - intros fuel modelUri command substitute Hsome Hsubstitute. simpl. rewrite Hopen. simpl.
    unfold doExecute. rewrite Hsome, Hsubstitute. apply Hsend.
Qed.

(** X2: when no reply comes.  If the awaited reply fails, [applyPatch]
    rejects for the same reason after one [roll-back]; if the socket closes
    instead, it rejects and no [roll-back] follows the [execute], the socket
    being gone; if nothing arrives the call stays suspended after its
    [execute].  In each case the frames are as they were. *)
Theorem edit_without_reply (c : Context) u top rest p :
  isOpen c = true ->
  uuid c = PromiseResolved u ->
  nestedContexts c = top :: rest ->
  is_empty_patch p = false ->
  (forall reason replies,
     upstream c = ReplyError reason :: replies ->
     applyPatch modelURI p c =
     (Rejected reason,
      mkContext (socket c) (uuid c) (nestedContexts c)
        (sent c ++ [execute_message (ExecutePatch p); roll_back reason]) replies)) /\
  (forall reason replies,
     upstream c = SocketClose reason :: replies ->
     applyPatch modelURI p c =
     (Rejected reason,
      mkContext None (uuid c) (nestedContexts c)
        (sent c ++ [execute_message (ExecutePatch p)]) replies)) /\
  (upstream c = [] ->
   applyPatch modelURI p c =
   (Suspended, set_sent (sent c ++ [execute_message (ExecutePatch p)]) c)).
Proof.
  intros Hopen Hu Hstack Hp.
  assert (Hsend : applyPatch modelURI p c =
                  autoRollback modelURI
                    (fun _ => await_reply
                                (set_sent (sent c ++ [execute_message (ExecutePatch p)]) c)) c).
  { unfold applyPatch. rewrite Hopen, Hp. simpl. unfold autoRollback, catch, sendPatch.
    by rewrite (sendExecuteMessage_sends _ c u _ _ Hopen Hu Hstack). }
  rewrite Hsend. unfold autoRollback, catch, await_reply. simpl.
  repeat split.
  - intros reason replies ->. unfold bind. rewrite rollback_sends.
    unfold isOpen. simpl. fold (isOpen c). rewrite Hopen. simpl. by rewrite <- app_assoc.
  - intros reason replies ->. reflexivity.
  - intros ->. reflexivity.
Qed.

(** X3: with no frame on the stack (as after the [commit] of the root),
    [commit] and the [commit] of a child reject with the type error of
    destructuring [undefined] and change nothing, whether the socket is
    open or not; a non-empty [applyPatch] on the open socket rejects in the
    same way, sending no [execute] but a [roll-back]. *)
Theorem no_frame_left (c : Context) :
  nestedContexts c = [] ->
  (forall fuel, commit fuel c = (Rejected TypeError, c)) /\
  (forall fuel, child_call modelURI hasProvider getCommands fuel child_commit c
                = (Rejected TypeError, c)) /\
  (forall u p,
     isOpen c = true -> uuid c = PromiseResolved u -> is_empty_patch p = false ->
     applyPatch modelURI p c =
     (Rejected TypeError, set_sent (sent c ++ [roll_back TypeError]) c)).
Proof.
  intros Hstack. repeat split.
  - intros fuel. unfold Transaction.commit, bind, popNestedContext. by rewrite Hstack.
  - intros fuel. simpl. unfold popNestedContext. by rewrite Hstack.
  - intros u p Hopen Hu Hp. unfold applyPatch. rewrite Hopen, Hp. simpl.
    unfold autoRollback, catch, sendPatch, sendExecuteMessage. rewrite Hopen. simpl.
    unfold bind at 1, await_uuid. rewrite Hu.
    unfold peekNestedContext. rewrite Hstack. simpl.
    unfold bind. rewrite rollback_sends. by rewrite Hopen.
Qed.

(** X4: a child transaction that is opened and committed at once leaves the
    context exactly as it was, returns the empty aggregate and sends
    nothing: the frame pushed by [openTransaction] is the one that the
    child's [commit] pops, and an aggregate without operations changes no
    parent. *)
Theorem child_transaction_round_trip (c : Context) (fuel : nat) :
  (let! _ := openTransaction in
   child_call modelURI hasProvider getCommands fuel child_commit) c
  = (Resolved emptyUpdateResult, c).
Proof.
  destruct c as [sock uu stack snt ups].
  unfold bind, openTransaction, bind, pushNestedContext. simpl.
  unfold popNestedContext. simpl.
  destruct stack as [|[top] rest]; reflexivity.
Qed.

End Edits.

(** ** Aggregation over nested frames *)

Lemma merge_all_agree (a b : ModelUpdateResult) (results : list ModelUpdateResult) :
  success a = success b -> patch a = patch b ->
  success (merge_all a results) = success (merge_all b results) /\
  patch (merge_all a results) = patch (merge_all b results).
Proof.
  revert a b. induction results as [|r results IH]; intros a b Hs Hp; [done|].
  change (merge_all a (r :: results))
    with (merge_all (mergeModelUpdateResult a (Some r)) results).
  change (merge_all b (r :: results))
    with (merge_all (mergeModelUpdateResult b (Some r)) results).
  apply IH; unfold mergeModelUpdateResult; destruct (has_operations (patch r));
    simpl; congruence.
Qed.

Lemma merge_child_step (parent child r : ModelUpdateResult) l :
  patch child = Some l -> (l = [] -> success child = true) ->
  let merged := mergeModelUpdateResult child (Some r) in
  (exists l', patch merged = Some l' /\ (l' = [] -> success merged = true)) /\
  success (mergeModelUpdateResult parent (Some merged)) =
    success (mergeModelUpdateResult (mergeModelUpdateResult parent (Some child)) (Some r)) /\
  patch (mergeModelUpdateResult parent (Some merged)) =
    patch (mergeModelUpdateResult (mergeModelUpdateResult parent (Some child)) (Some r)).
Proof.
  intros Hl Hfresh. destruct parent as [ps pp pm], child as [cs cp cm], r as [rs rp rm].
  simpl in *. subst cp. unfold mergeModelUpdateResult. simpl.
  destruct rp as [[|o lr]|]; simpl.
  - split; [eauto|done].
  - destruct l as [|o' l]; simpl.
    + rewrite (Hfresh eq_refl). split; [|done]. eexists. split; [done|]. done.
    + split; [eexists; split; [done|done]|].
      split; [by rewrite !andb_assoc|]. by rewrite <- !app_assoc.
  - split; [eauto|done].
Qed.

(** X5: nesting does not change what a parent aggregates.  Merging a run of
    results into a fresh frame and then merging that frame into the parent,
    as [popNestedContext] does, gives the parent the same success flag and
    the same patch as merging the results into the parent one by one. *)
Theorem nested_frame_is_transparent (parent : ModelUpdateResult)
    (results : list ModelUpdateResult) :
  let child := merge_all emptyUpdateResult results in
  success (mergeModelUpdateResult parent (Some child)) = success (merge_all parent results) /\
  patch (mergeModelUpdateResult parent (Some child)) = patch (merge_all parent results).
Proof.
  simpl.
  enough (H : forall child l,
             patch child = Some l -> (l = [] -> success child = true) ->
             success (mergeModelUpdateResult parent (Some (merge_all child results))) =
               success (merge_all (mergeModelUpdateResult parent (Some child)) results) /\
             patch (mergeModelUpdateResult parent (Some (merge_all child results))) =
               patch (merge_all (mergeModelUpdateResult parent (Some child)) results)).
  { apply (H emptyUpdateResult []); done. }
  induction results as [|r results IH]; intros child l Hl Hfresh; [done|].
  change (merge_all child (r :: results))
    with (merge_all (mergeModelUpdateResult child (Some r)) results).
  change (merge_all (mergeModelUpdateResult parent (Some child)) (r :: results))
    with (merge_all (mergeModelUpdateResult (mergeModelUpdateResult parent (Some child))
                       (Some r)) results).
  destruct (merge_child_step parent child r l Hl Hfresh) as ((l' & Hl' & Hfresh') & Hs & Hp).
  destruct (IH _ _ Hl' Hfresh') as [IHs IHp].
  destruct (merge_all_agree _ _ results Hs Hp) as [Hs' Hp'].
  split; congruence.
Qed.

(** ** The frames below the current one *)

Section Frames.

Variable modelURI : URI.
Variable hasProvider : string -> bool.
Variable getCommands : URI -> ModelServerCommand -> Settled Provided.
Variable getTriggers : URI -> list Operation -> Settled Triggers.

Local Abbreviation execute := (execute modelURI hasProvider getCommands).
Local Abbreviation commit := (commit modelURI hasProvider getCommands getTriggers).
Local Abbreviation commit_loop := (commit_loop modelURI hasProvider getCommands getTriggers).
Local Abbreviation performTriggers := (performTriggers modelURI hasProvider getCommands).

Lemma keeps_frames_below_same {A} (m : Async A) :
  (forall c o c', m c = (o, c') -> nestedContexts c' = nestedContexts c) ->
  keeps_frames_below m.
Proof.
  intros Hm c o c' above frame base E Hstack.
  exists above, frame. by rewrite (Hm _ _ _ E).
Qed.

Lemma keeps_frames_below_bind {A B} (m : Async A) (k : A -> Async B) :
  keeps_frames_below m -> (forall a, keeps_frames_below (k a)) ->
  keeps_frames_below (bind m k).
Proof.
  intros Hm Hk c o c' above frame base. unfold bind.
  destruct (m c) as [[a|reason| |] c1] eqn:E; intros Hrun Hstack;
    destruct (Hm _ _ _ _ _ _ E Hstack) as (above1 & frame1 & Hstack1).
  - eapply Hk; eauto.
  - injection Hrun as <- <-. eauto.
  - injection Hrun as <- <-. eauto.
  - injection Hrun as <- <-. eauto.
Qed.

Lemma keeps_frames_below_catch {A} (m : Async A) (h : Reason -> Async A) :
  keeps_frames_below m -> (forall reason, keeps_frames_below (h reason)) ->
  keeps_frames_below (catch m h).
Proof.
  intros Hm Hh c o c' above frame base. unfold catch.
  destruct (m c) as [[a|reason| |] c1] eqn:E; intros Hrun Hstack;
    destruct (Hm _ _ _ _ _ _ E Hstack) as (above1 & frame1 & Hstack1).
  - injection Hrun as <- <-. eauto.
  - eapply Hh; eauto.
  - injection Hrun as <- <-. eauto.
  - injection Hrun as <- <-. eauto.
Qed.

Lemma frames_rollback error c o c' :
  rollback modelURI error c = (o, c') -> nestedContexts c' = nestedContexts c.
Proof. rewrite rollback_sends. destruct (isOpen c); by intros [= <- <-]. Qed.

Lemma keeps_frames_below_autoRollback {A} (m : Async A) :
  keeps_frames_below m -> keeps_frames_below (autoRollback modelURI m).
Proof.
  intros Hm. apply keeps_frames_below_catch; [done|]. intros reason.
  apply keeps_frames_below_bind.
  - apply keeps_frames_below_same. apply frames_rollback.
  - intros _. apply keeps_frames_below_same. by intros c o c' [= <- <-].
Qed.

(** A reply changes the frame on top of the stack, and no other. *)
Lemma frames_await_reply c o c' :
  await_reply c = (o, c') ->
  nestedContexts c' = nestedContexts c \/
  exists top r rest,
    nestedContexts c = mkNested top :: rest /\
    nestedContexts c' = mkNested (mergeModelUpdateResult top (Some r)) :: rest.
Proof.
  unfold await_reply.
  destruct (upstream c) as [|[r|reason|reason] replies];
    [|destruct (nestedContexts c) as [|[current] below] eqn:Hstack|..];
    intros [= <- <-]; simpl; eauto 10.
Qed.

Lemma frames_sendExecuteMessage body c o c' :
  sendExecuteMessage modelURI body c = (o, c') ->
  nestedContexts c' = nestedContexts c \/
  exists top r rest,
    nestedContexts c = mkNested top :: rest /\
    nestedContexts c' = mkNested (mergeModelUpdateResult top (Some r)) :: rest.
Proof.
  unfold sendExecuteMessage.
  destruct (isOpen c) eqn:Hopen; simpl; [|intros [= <- <-]; by left].
  unfold bind at 1, await_uuid.
  destruct (uuid c); try (intros [= <- <-]; by left).
  destruct (peekNestedContext c); [|intros [= <- <-]; by left].
  unfold bind. rewrite socket_send_open by done. intros E. by apply frames_await_reply in E.
Qed.

Lemma frames_applyPatch p c o c' :
  applyPatch modelURI p c = (o, c') ->
  nestedContexts c' = nestedContexts c \/
  exists top r rest,
    nestedContexts c = mkNested top :: rest /\
    nestedContexts c' = mkNested (mergeModelUpdateResult top (Some r)) :: rest.
Proof.
  unfold applyPatch. destruct (isOpen c); simpl; [|intros [= <- <-]; by left].
  destruct (is_empty_patch p); [intros [= <- <-]; by left|].
  unfold autoRollback, catch, sendPatch.
  destruct (sendExecuteMessage modelURI (ExecutePatch p) c) as [[r|reason| |] c1] eqn:E;
    apply frames_sendExecuteMessage in E; try (intros [= <- <-]; exact E).
  unfold bind. destruct (rollback modelURI reason c1) as [[r| | |] c2] eqn:E2;
    apply frames_rollback in E2; intros [= <- <-]; by rewrite E2.
Qed.

Lemma head_changed_keeps_below (stack stack' : list NestedEditContext) x x' tail
    above frame base :
  stack = x :: tail -> stack' = x' :: tail ->
  stack = above ++ frame :: base ->
  exists above' frame', stack' = above' ++ frame' :: base.
Proof.
  intros -> -> Hstack. destruct above as [|a above]; simpl in Hstack.
  - injection Hstack as -> ->. by exists [], x'.
  - injection Hstack as -> ->. by exists (x' :: above), frame.
Qed.

Lemma keeps_frames_below_applyPatch p : keeps_frames_below (applyPatch modelURI p).
Proof.
  intros c o c' above frame base E Hstack.
  destruct (frames_applyPatch _ _ _ _ E) as [-> | (top & r & rest & H1 & H2)]; [eauto|].
  exact (head_changed_keeps_below _ _ _ _ _ _ _ _ H1 H2 Hstack).
Qed.

Lemma keeps_frames_below_sendExecuteMessage body :
  keeps_frames_below (sendExecuteMessage modelURI body).
Proof.
  intros c o c' above frame base E Hstack.
  destruct (frames_sendExecuteMessage _ _ _ _ E) as [-> | (top & r & rest & H1 & H2)]; [eauto|].
  exact (head_changed_keeps_below _ _ _ _ _ _ _ _ H1 H2 Hstack).
Qed.

Lemma keeps_frames_below_runTransaction exec fn :
  (forall modelUri command, keeps_frames_below (exec modelUri command)) ->
  keeps_frames_below (runTransaction modelURI exec fn).
Proof.
  intros Hexec. induction fn as [result|reason|modelUri command k IH|p k IH];
    intros c o c' above frame base; simpl.
  - intros [= <- <-]. eauto.
  - intros [= <- <-]. eauto.
  - destruct (exec modelUri command c) as [[r|reason| |] c1] eqn:E; intros Hrun Hstack;
      destruct (Hexec _ _ _ _ _ _ _ _ E Hstack) as (above1 & frame1 & Hstack1).
    + eapply IH; eauto.
    + eapply IH; eauto.
    + injection Hrun as <- <-. eauto.
    + injection Hrun as <- <-. eauto.
  - destruct (applyPatch modelURI p c) as [[r|reason| |] c1] eqn:E; intros Hrun Hstack;
      destruct (keeps_frames_below_applyPatch _ _ _ _ _ _ _ E Hstack)
        as (above1 & frame1 & Hstack1).
    + eapply IH; eauto.
    + eapply IH; eauto.
    + injection Hrun as <- <-. eauto.
    + injection Hrun as <- <-. eauto.
Qed.

(** Popping from a stack that holds a frame above [frame] leaves [base]
    below a frame. *)
Lemma popNestedContext_above c o c' a above frame base :
  popNestedContext c = (o, c') ->
  nestedContexts c = a :: above ++ frame :: base ->
  exists above' frame', nestedContexts c' = above' ++ frame' :: base.
Proof.
  unfold popNestedContext. intros E Hstack. rewrite Hstack in E. destruct a as [result].
  destruct above as [|[current] above]; simpl in E.
  - destruct frame as [current]. injection E as <- <-. simpl. by eexists [], _.
  - injection E as <- <-. simpl. by eexists (_ :: above), frame.
Qed.

Lemma keeps_frames_below_doExecute exec modelUri command :
  (forall modelUri command, keeps_frames_below (exec modelUri command)) ->
  keeps_frames_below (doExecute modelURI hasProvider getCommands exec modelUri command).
Proof.
  intros Hexec. unfold doExecute, sendCommand, sendPatch.
  destruct (hasProvider (command_type command)); simpl;
    [|apply keeps_frames_below_sendExecuteMessage].
  destruct (getCommands modelUri command) as [[fn|substitute|substitute]|reason].
  2,3: intros c o c'; unfold bind; simpl; apply keeps_frames_below_sendExecuteMessage.
  2: intros c o c' above frame base; unfold bind; simpl; intros [= <- <-]; eauto.
  intros c o c' above frame base. unfold bind at 1. simpl.
  unfold bind at 1, pushNestedContext. simpl.
  set (c0 := set_nestedContexts (mkNested emptyUpdateResult :: nestedContexts c) c).
  unfold bind at 1.
  destruct (runTransaction modelURI exec fn c0) as [[success|reason| |] c1] eqn:Hrun;
    intros E Hstack;
    destruct (keeps_frames_below_runTransaction exec fn Hexec c0 _ c1 []
                (mkNested emptyUpdateResult) (nestedContexts c) Hrun eq_refl)
      as (above1 & frame1 & Hstack1).
  2,3,4: injection E as <- <-; rewrite Hstack1, Hstack;
         exists (above1 ++ frame1 :: above), frame; by rewrite <- app_assoc.
  assert (Hshape : exists a rest, nestedContexts c1 = a :: rest ++ frame :: base).
  { rewrite Hstack1, Hstack. destruct above1 as [|a above1]; simpl.
    - by exists frame1, above.
    - exists a, (above1 ++ frame1 :: above). by rewrite <- app_assoc. }
  destruct Hshape as (a & rest & Hshape).
  destruct success; simpl in E.
  - eapply popNestedContext_above; eauto.
  - unfold bind in E.
    destruct (popNestedContext c1) as [[r|reason| |] c2] eqn:Hpop;
      injection E as <- <-; eapply popNestedContext_above; eauto.
Qed.

Lemma keeps_frames_below_execute fuel modelUri command :
  keeps_frames_below (execute fuel modelUri command).
Proof.
  revert modelUri command. induction fuel as [|fuel IH]; intros modelUri command; simpl.
  - apply keeps_frames_below_same. by intros c o c' [= <- <-].
  - intros c o c'. destruct (isOpen c); simpl.
    + by apply keeps_frames_below_autoRollback, keeps_frames_below_doExecute.
    + intros above frame base [= <- <-]. eauto.
Qed.

(** X6: an edit works on the frame on top of the stack and above it.  The
    frames below the one that was on top when [execute] was called are, after
    the call, still there and unchanged, below at least one frame, however
    the call settles and whatever the transaction functions do; and
    [applyPatch] changes no frame but the one on top. *)
Theorem edits_keep_frames_below (c : Context) top rest :
  nestedContexts c = top :: rest ->
  (forall fuel modelUri command o c',
     execute fuel modelUri command c = (o, c') ->
     exists frames top', nestedContexts c' = frames ++ top' :: rest) /\
  (forall p o c',
     applyPatch modelURI p c = (o, c') ->
     exists top', nestedContexts c' = top' :: rest).
Proof.
  intros Hstack. split.
  - intros fuel modelUri command o c' E.
    by apply (keeps_frames_below_execute fuel modelUri command c o c' [] top rest).
  - intros p o c' E.
    destruct (frames_applyPatch _ _ _ _ E) as [-> | (top0 & r & rest0 & H1 & ->)]; [eauto|].
    rewrite Hstack in H1. injection H1 as -> ->. eauto.
Qed.

(** X7: [doExecute] has no [finally].  When the transaction function of a
    command rejects, its frame is not popped: [execute] rejects for the same
    reason and leaves the stack deeper than it found it, the caller's frames
    lying below the frame that was pushed. *)
Theorem rejected_transaction_leaves_frame (c c1 : Context) fuel modelUri command fn reason :
  isOpen c = true ->
  hasProvider (command_type command) = true ->
  getCommands modelUri command = Fulfilled (ProvidedTransaction fn) ->
  runTransaction modelURI (execute fuel) fn
    (set_nestedContexts (mkNested emptyUpdateResult :: nestedContexts c) c)
    = (Rejected reason, c1) ->
  exists c' frames frame,
    execute (S fuel) modelUri command c = (Rejected reason, c') /\
    nestedContexts c' = frames ++ frame :: nestedContexts c /\
    length (nestedContexts c) < length (nestedContexts c').
Proof.
  intros Hopen Hsome Hfn Hrun.
  destruct (keeps_frames_below_runTransaction (execute fuel) fn
              (keeps_frames_below_execute fuel) _ _ _ []
              (mkNested emptyUpdateResult) (nestedContexts c) Hrun eq_refl)
    as (frames & frame & Hstack1).
  destruct (rollback modelURI reason c1) as [o2 c2] eqn:Hroll.
  exists c2, frames, frame.
  assert (Hstack2 : nestedContexts c2 = frames ++ frame :: nestedContexts c).
  { apply frames_rollback in Hroll. by rewrite Hroll. }
  split; [|split; [exact Hstack2|]].
  - simpl. rewrite Hopen. simpl. unfold autoRollback, catch, doExecute.
    rewrite Hsome, Hfn. simpl. unfold bind at 1. simpl.
    unfold bind at 1, pushNestedContext. simpl. unfold bind at 1. rewrite Hrun.
    unfold bind. rewrite Hroll. rewrite rollback_sends in Hroll.
    destruct (isOpen c1); by injection Hroll as <- <-.
  - rewrite Hstack2, length_app. simpl. lia.
Qed.

Section FlatTriggers.

Hypothesis no_trigger_transaction :
  forall delta fn, getTriggers modelURI delta <> Fulfilled (TriggerTransaction fn).

Lemma applyPatch_settles p c c' : applyPatch modelURI p c <> (OutOfFuel, c').
Proof.
  assert (Hroll : forall reason c1,
             (let! _ := rollback modelURI reason in @reject ModelUpdateResult reason) c1
             <> (OutOfFuel, c')).
  { intros reason c1. unfold bind. rewrite rollback_sends. by destruct (isOpen c1). }
  unfold applyPatch. destruct (isOpen c) eqn:Hopen; simpl; [|done].
  destruct (is_empty_patch p); [done|].
  unfold autoRollback, catch, sendPatch, sendExecuteMessage. rewrite Hopen. simpl.
  unfold bind at 1, await_uuid.
  destruct (uuid c); [done| |apply Hroll].
  destruct (peekNestedContext c); [|apply Hroll].
  unfold bind at 1. rewrite socket_send_open by done. unfold await_reply. simpl.
  destruct (upstream c) as [|[r|reason|reason] replies]; [done| |apply Hroll..].
  by destruct (nestedContexts c) as [|[current] below].
Qed.

Lemma applyPatch_single_frame p c o c' frame :
  nestedContexts c = [frame] ->
  applyPatch modelURI p c = (o, c') ->
  exists frame', nestedContexts c' = [frame'].
Proof.
  intros Hstack E.
  destruct (frames_applyPatch _ _ _ _ E) as [-> | (top & r & rest & H1 & ->)]; [eauto|].
  rewrite Hstack in H1. injection H1 as _ <-. eauto.
Qed.

Lemma performTriggers_patch_no_frame fuel triggers c o c' :
  (forall fn, triggers <> TriggerTransaction fn) ->
  nestedContexts c = [] ->
  performTriggers fuel triggers c = (o, c') ->
  o <> Suspended ->
  nestedContexts c' = [].
Proof.
  intros Hflat Hstack. unfold Transaction.performTriggers, bind at 1. simpl.
  rewrite Hstack. unfold try_finally.
  destruct triggers as [|operations|fn]; [| |by destruct (Hflat fn)].
  all: unfold bind, resolve;
       destruct (applyPatch modelURI _ _) as [[r|reason| |] c1] eqn:E;
       try (by apply applyPatch_settles in E);
       apply (applyPatch_single_frame _
                (set_nestedContexts [mkNested emptyUpdateResult] c) _ _
                (mkNested emptyUpdateResult) eq_refl)
         in E as [[frame] Hframe];
       cbv beta iota; unfold popNestedContext; rewrite ?Hframe; cbv beta iota;
       intros [= <- <-]; done.
Qed.

Lemma commit_loop_no_frame fuel updateResult modelDelta c o c' :
  nestedContexts c = [] ->
  commit_loop fuel updateResult modelDelta c = (o, c') ->
  o <> Suspended ->
  nestedContexts c' = [].
Proof.
  revert updateResult modelDelta c.
  induction fuel as [|fuel IH]; intros updateResult modelDelta c Hstack; simpl.
  { by intros [= <- <-]. }
  destruct (has_operations modelDelta); [|by intros [= <- <-]].
  pose proof (no_trigger_transaction (default [] modelDelta)) as Hflat.
  unfold bind at 1, autoRollback, catch.
  destruct (getTriggers modelURI (default [] modelDelta)) as [triggers|reason]; simpl.
  - destruct (hasTriggers triggers); simpl; [|by intros [= <- <-]].
    unfold bind at 1.
    destruct (performTriggers fuel triggers c) as [[r|reason| |] c1] eqn:E.
    + apply IH. eapply performTriggers_patch_no_frame; eauto.
      intros fn ->. by apply (Hflat fn).
    + intros [= <- <-] _. eapply performTriggers_patch_no_frame; eauto.
      intros fn ->. by apply (Hflat fn).
    + by intros [= <- <-].
    + intros [= <- <-] _. eapply performTriggers_patch_no_frame; eauto.
      intros fn ->. by apply (Hflat fn).
  - unfold bind. destruct (rollback modelURI reason c) as [o2 c2] eqn:Hroll.
    apply frames_rollback in Hroll. destruct o2; intros [= <- <-] _; congruence.
Qed.

(** X8: frame balance of [commit].  When triggers are patches (the registry
    yields no transaction function), a [commit] on a root context that
    resolves or rejects leaves no frame on the stack: the frame of each
    round of triggers is popped, also when its patch is rejected. *)
Theorem commit_leaves_no_frame (c : Context) root fuel o c' :
  nestedContexts c = [mkNested root] ->
  commit fuel c = (o, c') ->
  o <> Suspended ->
  nestedContexts c' = [].
Proof.
  intros Hstack. unfold Transaction.commit. unfold bind at 1, popNestedContext.
  rewrite Hstack. set (c0 := set_nestedContexts [] c).
  destruct (isOpen c0); simpl; [|by intros [= <- <-]].
  unfold bind at 1.
  destruct (commit_loop fuel root (patch root) c0) as [[r|reason| |] c1] eqn:E.
  - unfold bind, socket_send.
    destruct (socket c1); intros [= <- <-] _; simpl;
      (eapply commit_loop_no_frame; eauto; done).
  - intros [= <- <-] _. eapply commit_loop_no_frame; eauto. done.
  - by intros [= <- <-].
  - intros [= <- <-] _. eapply commit_loop_no_frame; eauto. done.
Qed.

End FlatTriggers.

End Frames.

(** ** [commit] against the algorithm of the design *)

Section Design.

Variable modelURI : URI.
Variable hasProvider : string -> bool.
Variable getCommands : URI -> ModelServerCommand -> Settled Provided.
Variable getTriggers : URI -> list Operation -> Settled Triggers.

Local Abbreviation execute := (execute modelURI hasProvider getCommands).
Local Abbreviation commit := (commit modelURI hasProvider getCommands getTriggers).
Local Abbreviation commit_loop := (commit_loop modelURI hasProvider getCommands getTriggers).
Local Abbreviation performTriggers := (performTriggers modelURI hasProvider getCommands).
Local Abbreviation Calls := (Calls modelURI hasProvider getCommands).
Local Abbreviation TriggersCalled := (TriggersCalled modelURI hasProvider getCommands).
Local Abbreviation PerformTriggers := (PerformTriggers modelURI hasProvider getCommands).
Local Abbreviation TriggerLoop := (TriggerLoop modelURI hasProvider getCommands getTriggers).
Local Abbreviation Commit := (Commit modelURI hasProvider getCommands getTriggers).
Local Abbreviation SocketLost := (SocketLost modelURI hasProvider getCommands getTriggers).
Local Abbreviation close := (mkMessage close_msg modelURI EmptyData).

Lemma Popped_popNestedContext c r c' :
  Popped c r c' <-> popNestedContext c = (Resolved r, c').
Proof.
  unfold popNestedContext. split.
  - intros [c0 r0 H | c0 r0 parent rest H]; by rewrite H.
  - destruct (nestedContexts c) as [|[result] [|[current] rest]] eqn:H; intros [= <- <-].
    + by apply popped_last.
    + by apply popped_into_parent.
Qed.

Lemma popNestedContext_frame c :
  nestedContexts c <> [] -> exists r c', popNestedContext c = (Resolved r, c').
Proof.
  unfold popNestedContext.
  destruct (nestedContexts c) as [|[result] [|[current] rest]]; [done|eauto..].
Qed.

Lemma hasTriggers_empty t : hasTriggers t = false <-> triggers_are_empty t.
Proof.
  unfold triggers_are_empty.
  destruct t as [|[|operation operations]|fn]; simpl; split; try done; eauto;
    intros [H | H]; done.
Qed.

(** *** The transaction function *)

Lemma runTransaction_Calls fuel fn c o c' :
  runTransaction modelURI (execute fuel) fn c = (o, c') ->
  o <> OutOfFuel ->
  Calls fn c o c'.
Proof.
  revert c. induction fn as [result|reason|modelUri command k IH|p k IH]; intros c; simpl.
  - intros [= <- <-] _. constructor.
  - intros [= <- <-] _. constructor.
  - destruct (execute fuel modelUri command c) as [[r|reason| |] c1] eqn:E.
    + intros Hk Ho. apply (calls_execute _ _ _ _ _ _ fuel c (Fulfilled r) c1); [exact E|].
      by apply IH.
    + intros Hk Ho. apply (calls_execute _ _ _ _ _ _ fuel c (Failed reason) c1); [exact E|].
      by apply IH.
    + intros [= <- <-] _. by apply (calls_execute_waits _ _ _ _ _ _ fuel).
    + by intros [= <- <-].
  - destruct (applyPatch modelURI p c) as [[r|reason| |] c1] eqn:E.
    + intros Hk Ho. apply (calls_applyPatch _ _ _ _ _ c (Fulfilled r) c1); [exact E|].
      by apply IH.
    + intros Hk Ho. apply (calls_applyPatch _ _ _ _ _ c (Failed reason) c1); [exact E|].
      by apply IH.
    + intros [= <- <-] _. by apply calls_applyPatch_waits.
    + by intros [= <- <-].
Qed.

Lemma Calls_runTransaction fn c o c' :
  Calls fn c o c' ->
  exists fuel0, forall fuel, fuel0 <= fuel ->
    runTransaction modelURI (execute fuel) fn c = (o, c').
Proof.
  induction 1 as [result c|reason c
                 |modelUri command k fuel1 c s c1 o c' E _ [fuel2 IH]
                 |modelUri command k fuel1 c c1 E
                 |p k c s c1 o c' E _ [fuel2 IH]
                 |p k c c1 E].
  - by exists 0.
  - by exists 0.
  - exists (max fuel1 fuel2). intros fuel Hle. simpl.
    rewrite (fuel_extends_execute modelURI hasProvider getCommands fuel1 fuel modelUri command
               ltac:(lia) _ _ _ E) by (by destruct s).
    destruct s; simpl; apply IH; lia.
  - exists fuel1. intros fuel Hle. simpl.
    by rewrite (fuel_extends_execute modelURI hasProvider getCommands fuel1 fuel modelUri command
                  Hle _ _ _ E).
  - exists fuel2. intros fuel Hle. simpl. rewrite E. destruct s; simpl; by apply IH.
  - exists 0. intros fuel _. simpl. by rewrite E.
Qed.

(** *** The triggers *)

Lemma run_TriggersCalled fuel t c o c' :
  ~ triggers_are_empty t ->
  match t with
  | NoTriggers => let! _ := applyPatch modelURI NilPatch in resolve tt
  | TriggerPatch operations => let! _ := applyPatch modelURI (ManyPatch operations) in resolve tt
  | TriggerTransaction fn => let! _ := runTransaction modelURI (execute fuel) fn in resolve tt
  end c = (o, c') ->
  o <> OutOfFuel ->
  TriggersCalled t c o c' /\
  forall frame base, nestedContexts c = frame :: base -> nestedContexts c' <> [].
Proof.
  intros Hsome. destruct t as [|operations|fn]; [destruct Hsome; by left|..]; unfold bind.
  - destruct (applyPatch modelURI (ManyPatch operations) c) as [o1 c1] eqn:E.
    intros Hrun Ho. split.
    + pose proof (called_patch modelURI hasProvider getCommands operations c o1 c1 E) as H.
      destruct o1; simpl in H; injection Hrun as <- <-; exact H.
    + intros frame base Hstack.
      destruct (keeps_frames_below_applyPatch modelURI _ _ _ _ [] frame base E Hstack)
        as (above & frame' & Hstack').
      assert (c' = c1) as -> by (destruct o1; by injection Hrun).
      rewrite Hstack'. by destruct above.
  - destruct (runTransaction modelURI (execute fuel) fn c) as [o1 c1] eqn:E.
    intros Hrun Ho.
    assert (o = discard o1 /\ c' = c1) as [-> ->] by (destruct o1; by injection Hrun).
    split.
    + apply called_function. apply (runTransaction_Calls fuel); [exact E|].
      by destruct o1.
    + intros frame base Hstack.
      destruct (keeps_frames_below_runTransaction modelURI (execute fuel) fn
                  (keeps_frames_below_execute modelURI hasProvider getCommands fuel)
                  _ _ _ [] frame base E Hstack) as (above & frame' & Hstack').
      rewrite Hstack'. by destruct above.
Qed.

Lemma TriggersCalled_run t c o c' :
  TriggersCalled t c o c' ->
  exists fuel0, forall fuel, fuel0 <= fuel ->
    match t with
    | NoTriggers => let! _ := applyPatch modelURI NilPatch in resolve tt
    | TriggerPatch operations =>
        let! _ := applyPatch modelURI (ManyPatch operations) in resolve tt
    | TriggerTransaction fn =>
        let! _ := runTransaction modelURI (execute fuel) fn in resolve tt
    end c = (o, c').
Proof.
  intros [fn c0 o1 c1 Hcalls | operations c0 o1 c1 E].
  - destruct (Calls_runTransaction _ _ _ _ Hcalls) as [fuel0 Hfuel].
    exists fuel0. intros fuel Hle. unfold bind. rewrite (Hfuel fuel Hle). by destruct o1.
  - exists 0. intros fuel _. unfold bind. rewrite E. by destruct o1.
Qed.

Lemma performTriggers_PerformTriggers fuel t c o c' :
  ~ triggers_are_empty t ->
  performTriggers fuel t c = (o, c') ->
  o <> OutOfFuel ->
  PerformTriggers t c o c'.
Proof.
  intros Hsome. unfold Transaction.performTriggers. unfold bind at 1, pushNestedContext.
  cbv beta zeta iota. change (set_nestedContexts _ c) with (pushed c).
  unfold try_finally.
  match goal with |- context [match ?body (pushed c) with _ => _ end] =>
    destruct (body (pushed c)) as [[[]|reason| |] c1] eqn:E
  end.
  - destruct (run_TriggersCalled fuel t _ _ _ Hsome E) as [Hcalled Hstack]; [done|].
    destruct (popNestedContext_frame c1) as (r & c2 & Hpop); [by eapply Hstack|].
    rewrite Hpop. intros [= <- <-] _.
    eapply triggers_popped; [exact Hcalled|]. by apply Popped_popNestedContext.
  - destruct (run_TriggersCalled fuel t _ _ _ Hsome E) as [Hcalled Hstack]; [done|].
    destruct (popNestedContext_frame c1) as (r & c2 & Hpop); [by eapply Hstack|].
    rewrite Hpop. intros [= <- <-] _.
    eapply triggers_popped_on_error; [exact Hcalled|]. by apply Popped_popNestedContext.
  - destruct (run_TriggersCalled fuel t _ _ _ Hsome E) as [Hcalled _]; [done|].
    intros [= <- <-] _. by apply triggers_waiting.
  - by intros [= <- <-].
Qed.

Lemma PerformTriggers_performTriggers t c o c' :
  PerformTriggers t c o c' ->
  exists fuel0, forall fuel, fuel0 <= fuel -> performTriggers fuel t c = (o, c').
Proof.
  intros [t0 c0 c1 r c2 Hcalled Hpop | t0 c0 reason c1 r c2 Hcalled Hpop | t0 c0 c1 Hcalled];
    destruct (TriggersCalled_run _ _ _ _ Hcalled) as [fuel0 Hfuel];
    exists fuel0; intros fuel Hle;
    unfold Transaction.performTriggers; unfold bind at 1, pushNestedContext;
    cbv beta zeta iota; change (set_nestedContexts _ c0) with (pushed c0);
    unfold try_finally; rewrite (Hfuel fuel Hle).
  - by apply Popped_popNestedContext.
  - apply Popped_popNestedContext in Hpop. by rewrite Hpop.
  - reflexivity.
Qed.

(** *** The loop *)

Lemma commit_loop_TriggerLoop fuel u delta c o c' :
  commit_loop fuel u delta c = (o, c') ->
  o <> OutOfFuel ->
  TriggerLoop u delta c o c'.
Proof.
  revert u delta c. induction fuel as [|fuel IH]; intros u delta c; simpl.
  { by intros [= <- <-]. }
  destruct delta as [[|operation operations]|]; simpl.
  - intros [= <- <-] _. constructor.
  - unfold bind at 1, autoRollback, catch.
    destruct (getTriggers modelURI (operation :: operations)) as [t|reason] eqn:Ht; simpl.
    + destruct (hasTriggers t) eqn:Hhas; simpl.
      * assert (Hsome : ~ triggers_are_empty t).
        { rewrite <- hasTriggers_empty. congruence. }
        unfold bind at 1.
        destruct (performTriggers fuel t c) as [[r|reason| |] c1] eqn:Hperform.
        -- intros Hloop Ho. eapply loop_again; eauto.
           by apply (performTriggers_PerformTriggers fuel).
        -- intros [= <- <-] _. eapply loop_triggers_reject; eauto.
           by apply (performTriggers_PerformTriggers fuel).
        -- intros [= <- <-] _. eapply loop_triggers_wait; eauto.
           by apply (performTriggers_PerformTriggers fuel).
        -- by intros [= <- <-].
      * intros [= <- <-] _. eapply loop_triggers_empty; eauto.
        by apply hasTriggers_empty.
    + unfold bind. rewrite rollback_sends. intros Hroll _.
      assert (o = Rejected reason /\ c' = rolled_back modelURI reason c) as [-> ->].
      { unfold rolled_back. destruct (isOpen c); by injection Hroll as <- <-. }
      by apply loop_registry_rejects.
  - intros [= <- <-] _. constructor.
Qed.

Lemma TriggerLoop_commit_loop u delta c o c' :
  TriggerLoop u delta c o c' ->
  exists fuel0, forall fuel, fuel0 <= fuel -> commit_loop fuel u delta c = (o, c').
Proof.
  induction 1 as [u c|u c|u operations c t Hsome Ht Hempty
                 |u operations c t r c1 o c' Hsome Ht Hhas Hperform _ [fuel2 IH]
                 |u operations c t reason c' Hsome Ht Hhas Hperform
                 |u operations c t c' Hsome Ht Hhas Hperform
                 |u operations c reason Hsome Ht].
  - exists 1. intros [|fuel] Hle; [lia|]. reflexivity.
  - exists 1. intros [|fuel] Hle; [lia|]. reflexivity.
  - exists 1. intros [|fuel] Hle; [lia|]. simpl.
    destruct operations as [|operation operations]; [done|]. simpl.
    unfold bind, autoRollback, catch. rewrite Ht. simpl.
    apply hasTriggers_empty in Hempty. by rewrite Hempty.
  - destruct (PerformTriggers_performTriggers _ _ _ _ Hperform) as [fuel1 Hfuel].
    exists (S (max fuel1 fuel2)). intros [|fuel] Hle; [lia|]. simpl.
    destruct operations as [|operation operations]; [done|]. simpl.
    unfold bind at 1, autoRollback, catch. rewrite Ht. simpl.
    destruct (hasTriggers t) eqn:Hhas'; [|by apply hasTriggers_empty in Hhas'].
    simpl. unfold bind at 1. rewrite (Hfuel fuel ltac:(lia)). apply IH. lia.
  - destruct (PerformTriggers_performTriggers _ _ _ _ Hperform) as [fuel1 Hfuel].
    exists (S fuel1). intros [|fuel] Hle; [lia|]. simpl.
    destruct operations as [|operation operations]; [done|]. simpl.
    unfold bind at 1, autoRollback, catch. rewrite Ht. simpl.
    destruct (hasTriggers t) eqn:Hhas'; [|by apply hasTriggers_empty in Hhas'].
    simpl. unfold bind at 1. by rewrite (Hfuel fuel ltac:(lia)).
  - destruct (PerformTriggers_performTriggers _ _ _ _ Hperform) as [fuel1 Hfuel].
    exists (S fuel1). intros [|fuel] Hle; [lia|]. simpl.
    destruct operations as [|operation operations]; [done|]. simpl.
    unfold bind at 1, autoRollback, catch. rewrite Ht. simpl.
    destruct (hasTriggers t) eqn:Hhas'; [|by apply hasTriggers_empty in Hhas'].
    simpl. unfold bind at 1. by rewrite (Hfuel fuel ltac:(lia)).
  - exists 1. intros [|fuel] Hle; [lia|]. simpl.
    destruct operations as [|operation operations]; [done|]. simpl.
    unfold bind, autoRollback, catch. rewrite Ht.
    unfold await_settled, reject. cbv beta iota. unfold bind.
    rewrite rollback_sends. unfold rolled_back. by destruct (isOpen c).
Qed.

(** C1 (as amended): [commit] on a root context, against the algorithm of
    the design.  Every call on a context with a frame on its stack that
    settles or is left waiting is a run of [Commit]: the frame on top of the
    stack is popped first (the root frame when no child frame is open;
    otherwise it is merged into the frame below); on a socket that is not
    open the closed sentinel is returned; otherwise the loop asks the
    registry for the triggers of the most recent delta and, while there are
    some, performs them in a fresh frame (calling the transaction function,
    or [applyPatch] for a patch, and popping the frame also when that
    rejects), merges their result into the aggregate and goes on with the
    patch of that result, until the delta or the triggers are empty; then
    the [close] message is sent on the socket that the context still has,
    and the aggregate is returned.  The one exception is a socket lost while
    the loop runs to its end, which the design does not consider.
    Conversely every run of [Commit] is what [commit] does, given enough
    fuel.  A [commit] that resolves on an open socket sends exactly one
    [close], as its last message.  And in scenario S4 (patch [p1] in the
    popped frame, triggers [p2] for it, applied with a reply of patch [p2],
    then no triggers) the returned patch is [p1 ++ p2], and one [execute]
    and one [close] are sent. *)
Theorem commit_root (c : Context) :
  (forall fuel o c',
     nestedContexts c <> [] ->
     commit fuel c = (o, c') ->
     o <> OutOfFuel ->
     Commit c o c' \/ SocketLost c) /\
  (forall o c',
     Commit c o c' ->
     exists fuel0, forall fuel, fuel0 <= fuel -> commit fuel c = (o, c')) /\
  (forall fuel r c',
     isOpen c = true ->
     commit fuel c = (Resolved r, c') ->
     exists l, sent c' = sent c ++ l ++ [close] /\ of_type close_msg l = []) /\
  (forall root rest u p1 p2 r2 replies t,
     nestedContexts c = mkNested root :: rest ->
     isOpen c = true ->
     uuid c = PromiseResolved u ->
     patch root = Some p1 -> p1 <> [] -> p2 <> [] ->
     getTriggers modelURI p1 = Fulfilled (TriggerPatch p2) ->
     upstream c = Reply r2 :: replies ->
     patch r2 = Some p2 ->
     getTriggers modelURI p2 = Fulfilled t -> triggers_are_empty t ->
     forall fuel, 2 <= fuel ->
     exists r c',
       commit fuel c = (Resolved r, c') /\
       patch r = Some (p1 ++ p2) /\
       success r = success root && success r2 /\
       sent c' =
         sent c ++ [mkMessage execute_msg modelURI (ExecuteData (ExecutePatch (ManyPatch p2)));
                    close]).
Proof.
  split; [|split; [|split]].
  - intros fuel o c' Hstack. unfold Transaction.commit. unfold bind at 1.
    destruct (popNestedContext_frame c Hstack) as (u & c1 & Hpop). rewrite Hpop.
    destruct (isOpen_popNestedContext _ _ _ Hpop) as [Hopen1 _].
    apply Popped_popNestedContext in Hpop. rewrite Hopen1.
    destruct (isOpen c) eqn:Hopen; simpl.
    + unfold bind at 1.
      destruct (commit_loop fuel u (patch u) c1) as [[u'|reason| |] c2] eqn:Hloop.
      * apply commit_loop_TriggerLoop in Hloop; [|done].
        unfold bind, socket_send. destruct (socket c2) as [state|] eqn:Hsocket.
        -- intros [= <- <-] _. left. eapply commit_close; eauto. congruence.
        -- intros _ _. right. by exists u, c1, u', c2.
      * apply commit_loop_TriggerLoop in Hloop; [|done].
        intros [= <- <-] _. left. eapply commit_rejects; eauto.
      * apply commit_loop_TriggerLoop in Hloop; [|done].
        intros [= <- <-] _. left. eapply commit_waits; eauto.
      * by intros [= <- <-].
    + intros [= <- <-] _. left. eapply commit_closed; eauto.
  - intros o c' [c0 u c1 Hpop Hclosed | c0 u c1 u' c2 Hpop Hopen Hloop Hsocket
                |c0 u c1 reason c2 Hpop Hopen Hloop | c0 u c1 c2 Hpop Hopen Hloop].
    + exists 0. intros fuel _. apply Popped_popNestedContext in Hpop.
      unfold Transaction.commit, bind. rewrite Hpop.
      destruct (isOpen_popNestedContext _ _ _ Hpop) as [-> _]. by rewrite Hclosed.
    + destruct (TriggerLoop_commit_loop _ _ _ _ _ Hloop) as [fuel0 Hfuel].
      exists fuel0. intros fuel Hle. apply Popped_popNestedContext in Hpop.
      unfold Transaction.commit. unfold bind at 1. rewrite Hpop.
      destruct (isOpen_popNestedContext _ _ _ Hpop) as [-> _]. rewrite Hopen. simpl.
      unfold bind at 1. rewrite (Hfuel fuel Hle). unfold bind, socket_send.
      by destruct (socket c2).
    + destruct (TriggerLoop_commit_loop _ _ _ _ _ Hloop) as [fuel0 Hfuel].
      exists fuel0. intros fuel Hle. apply Popped_popNestedContext in Hpop.
      unfold Transaction.commit. unfold bind at 1. rewrite Hpop.
      destruct (isOpen_popNestedContext _ _ _ Hpop) as [-> _]. rewrite Hopen. simpl.
      unfold bind at 1. by rewrite (Hfuel fuel Hle).
    + destruct (TriggerLoop_commit_loop _ _ _ _ _ Hloop) as [fuel0 Hfuel].
      exists fuel0. intros fuel Hle. apply Popped_popNestedContext in Hpop.
      unfold Transaction.commit. unfold bind at 1. rewrite Hpop.
      destruct (isOpen_popNestedContext _ _ _ Hpop) as [-> _]. rewrite Hopen. simpl.
      unfold bind at 1. by rewrite (Hfuel fuel Hle).
  - intros fuel r c' Hopen. unfold Transaction.commit. unfold bind at 1.
    destruct (popNestedContext c) as [[u|reason| |] c1] eqn:Hpop; try done.
    destruct (isOpen_popNestedContext _ _ _ Hpop) as [-> <-]. rewrite Hopen. simpl.
    unfold bind at 1.
    destruct (commit_loop fuel u (patch u) c1) as [[u'|reason| |] c2] eqn:Hloop; try done.
    destruct (steps_no_close _ _ _
                (stepwise_commit_loop _ _ _ _ _ _ _ _ _ _ Hloop)) as (l & Hl & Hclose).
    unfold bind, socket_send. destruct (socket c2); [|done]. intros [= <- <-].
    exists l. simpl. by rewrite Hl, app_assoc.
  - intros root rest u p1 p2 r2 replies t Hstack Hopen Hu Hp1 Hne1 Hne2 Ht1 Hups Hr2 Ht2
      Hempty%hasTriggers_empty fuel Hle.
    destruct fuel as [|[|fuel]]; [lia..|].
    destruct p1 as [|o1 p1]; [done|]. destruct p2 as [|o2 p2]; [done|].
    destruct root as [s1 patch1 pm1]. destruct r2 as [s2 patch2 pm2].
    simpl in Hp1, Hr2. subst patch1 patch2.
    destruct c as [sock uu stack snt ups]. simpl in *. subst uu stack ups.
    destruct sock as [[]|]; try discriminate Hopen.
    destruct rest as [|[parent] rest'];
      unfold Transaction.commit, bind at 1; simpl;
      unfold bind at 1; simpl;
      unfold bind at 1, autoRollback, catch; rewrite Ht1; simpl;
      unfold bind at 1; simpl;
      unfold bind at 1, autoRollback, catch; rewrite Ht2; simpl; rewrite Hempty; simpl;
      (do 2 eexists; split; [reflexivity|]; simpl; rewrite <- app_assoc; repeat split).
Qed.

End Design.

(** C1: [commit] pops the frame that is on top of the stack, whichever it
    is.  On the root context that has applied [P_a] and on which a child
    transaction is open, the frame popped is the child's, not the root
    frame: the empty aggregate of the child is returned, [close] is sent,
    and the root frame with [P_a] is still on the stack. *)
Lemma commit_over_child_frame_pops_child :
  let root := mkNested (Scenarios.succeeded Scenarios.P_a) in
  let commit :=
    Transaction.commit Scenarios.m1 Scenarios.no_provider Scenarios.no_commands
      Scenarios.no_triggers in
  isOpen Scenarios.child_open = true /\
  nestedContexts Scenarios.child_open = [mkNested emptyUpdateResult; root] /\
  (exists c',
     commit 1 Scenarios.child_open = (Resolved emptyUpdateResult, c') /\
     nestedContexts c' = [root] /\
     sent c' = [mkMessage close_msg Scenarios.m1 EmptyData]) /\
  ~ (exists fuel c',
       commit fuel Scenarios.child_open = (Resolved (Scenarios.succeeded Scenarios.P_a), c')).
Proof.
  intros root commit. split; [reflexivity|]. split; [reflexivity|]. split.
  - eexists. repeat split.
  - intros ([|fuel] & c' & H); vm_compute in H; discriminate H.
Qed.

(** What the design leaves open, in the code: the function of the triggers
    catches the failure of its patch, for which Upstream closed the socket;
    the loop comes to its end, [this.socket] is [undefined] by then, and
    [commit] throws where it would send [close]. *)
Example commit_after_socket_lost :
  exists c',
    Transaction.commit Scenarios.m1 Scenarios.no_provider Scenarios.no_commands
      Scenarios.triggers_catch 2 Scenarios.before_socket_close
    = (Rejected NoSocket, c') /\
    socket c' = None /\
    nestedContexts c' = [] /\
    sent c' =
      [mkMessage execute_msg Scenarios.m1 (ExecuteData (ExecutePatch (ManyPatch Scenarios.P_b)))].
Proof. eexists. repeat split. Qed.

(** C1 at scenario S4, whose run is a run of the design; and with triggers
    that are a function which throws after its patch: the frame of the
    triggers is popped all the same, and [commit] rejects without a
    [close]. *)
Lemma commit_root_witness :
  let execute_P_b :=
    mkMessage execute_msg Scenarios.m1 (ExecuteData (ExecutePatch (ManyPatch Scenarios.P_b))) in
  let close := mkMessage close_msg Scenarios.m1 EmptyData in
  (exists r c',
     Transaction.commit Scenarios.m1 Scenarios.no_provider Scenarios.no_commands
       Scenarios.triggers_S4 2 Scenarios.before_commit_S4 = (Resolved r, c') /\
     patch r = Some (Scenarios.P_a ++ Scenarios.P_b) /\
     success r = true /\
     sent c' = [execute_P_b; close]) /\
  (Commit Scenarios.m1 Scenarios.no_provider Scenarios.no_commands Scenarios.triggers_S4
     Scenarios.before_commit_S4
     (Resolved (Scenarios.succeeded (Scenarios.P_a ++ Scenarios.P_b)))
     (mkContext (Some OPEN) (PromiseResolved "0a1b") [] [execute_P_b; close] []) \/
   SocketLost Scenarios.m1 Scenarios.no_provider Scenarios.no_commands Scenarios.triggers_S4
     Scenarios.before_commit_S4) /\
  (exists fuel0, forall fuel, fuel0 <= fuel ->
     Transaction.commit Scenarios.m1 Scenarios.no_provider Scenarios.no_commands
       Scenarios.triggers_throw fuel Scenarios.before_commit_S4
     = (Rejected "refused",
        mkContext (Some OPEN) (PromiseResolved "0a1b") [] [execute_P_b] [])).
Proof.
  intros execute_P_b close.
  destruct (commit_root Scenarios.m1 Scenarios.no_provider Scenarios.no_commands
              Scenarios.triggers_S4 Scenarios.before_commit_S4) as (Hsound & _ & _ & HS4).
  destruct (commit_root Scenarios.m1 Scenarios.no_provider Scenarios.no_commands
              Scenarios.triggers_throw Scenarios.before_commit_S4) as (_ & Hcomplete & _).
  split; [|split].
  - destruct (HS4 (Scenarios.succeeded Scenarios.P_a) [] "0a1b" Scenarios.P_a Scenarios.P_b
                (Scenarios.succeeded Scenarios.P_b) [] (TriggerPatch [])
                eq_refl eq_refl eq_refl eq_refl ltac:(discriminate) ltac:(discriminate)
                eq_refl eq_refl eq_refl eq_refl (or_intror eq_refl) 2 (le_n 2))
      as (r & c' & Hcommit & Hpatch & Hsuccess & Hsent).
    exists r, c'. repeat split; assumption.
  - apply (Hsound 2); [discriminate|reflexivity|discriminate].
  - apply Hcomplete. eapply commit_rejects.
    + apply popped_last. reflexivity.
    + reflexivity.
    + eapply loop_triggers_reject.
      * discriminate.
      * reflexivity.
      * intros [H | H]; discriminate H.
      * eapply triggers_popped_on_error.
        -- apply (called_function _ _ _ Scenarios.apply_then_throw _ (Rejected "refused")).
           eapply (calls_applyPatch _ _ _ _ _ _ (Fulfilled (Scenarios.succeeded Scenarios.P_b)));
             [reflexivity|]. apply calls_throw.
        -- apply popped_last. reflexivity.
Defined.

(** ** Requests and replies in step *)

Section Lockstep.

Variable modelURI : URI.
Variable hasProvider : string -> bool.
Variable getCommands : URI -> ModelServerCommand -> Settled Provided.
Variable getTriggers : URI -> list Operation -> Settled Triggers.

Local Abbreviation execute := (execute modelURI hasProvider getCommands).
Local Abbreviation commit := (commit modelURI hasProvider getCommands getTriggers).
Local Abbreviation commit_loop := (commit_loop modelURI hasProvider getCommands getTriggers).
Local Abbreviation performTriggers := (performTriggers modelURI hasProvider getCommands).

Lemma in_lockstep_quiet {A} (m : Async A) :
  (forall c o c', m c = (o, c') -> sent c' = sent c /\ upstream c' = upstream c) ->
  in_lockstep m.
Proof.
  intros Hm c o c' E. destruct (Hm _ _ _ E) as [Hs Hu].
  exists [], []. rewrite app_nil_r, Hs, Hu. repeat split; destruct o; simpl; lia.
Qed.

Lemma in_lockstep_resolve {A} (a : A) : in_lockstep (resolve a).
Proof. apply in_lockstep_quiet. by intros c o c' [= <- <-]. Qed.

Lemma in_lockstep_reject {A} reason : in_lockstep (@reject A reason).
Proof. apply in_lockstep_quiet. by intros c o c' [= <- <-]. Qed.

Lemma in_lockstep_then {A B} (m : Async A) (k : Async B) c o c1 o' c' :
  in_lockstep m -> in_lockstep k ->
  m c = (o, c1) -> o <> Suspended -> k c1 = (o', c') ->
  exists l consumed,
    sent c' = sent c ++ l /\
    upstream c = consumed ++ upstream c' /\
    match o' with
    | Suspended => length consumed <= length (of_type execute_msg l) <= S (length consumed)
    | _ => length (of_type execute_msg l) = length consumed
    end.
Proof.
  intros Hm Hk E Ho E'.
  destruct (Hm _ _ _ E) as (l1 & u1 & Hl1 & Hu1 & H1).
  destruct (Hk _ _ _ E') as (l2 & u2 & Hl2 & Hu2 & H2).
  exists (l1 ++ l2), (u1 ++ u2).
  rewrite Hl2, Hl1, Hu1, Hu2, !app_assoc. split; [done|]. split; [done|].
  unfold of_type in *. rewrite filter_app, !length_app.
  destruct o; try done; destruct o'; lia.
Qed.

Lemma in_lockstep_bind {A B} (m : Async A) (k : A -> Async B) :
  in_lockstep m -> (forall a, in_lockstep (k a)) -> in_lockstep (bind m k).
Proof.
  intros Hm Hk c o c'. unfold bind.
  destruct (m c) as [[a|reason| |] c1] eqn:E.
  - intros E'. by eapply (in_lockstep_then m (k a)); eauto.
  - intros [= <- <-]. destruct (Hm _ _ _ E) as (l & u & H). by exists l, u.
  - intros [= <- <-]. destruct (Hm _ _ _ E) as (l & u & H). by exists l, u.
  - intros [= <- <-]. destruct (Hm _ _ _ E) as (l & u & H). by exists l, u.
Qed.

Lemma in_lockstep_catch {A} (m : Async A) (h : Reason -> Async A) :
  in_lockstep m -> (forall reason, in_lockstep (h reason)) -> in_lockstep (catch m h).
Proof.
  intros Hm Hh c o c'. unfold catch.
  destruct (m c) as [[a|reason| |] c1] eqn:E.
  - intros [= <- <-]. exact (Hm _ _ _ E).
  - intros E'. by eapply (in_lockstep_then m (h reason)); eauto.
  - intros [= <- <-]. exact (Hm _ _ _ E).
  - intros [= <- <-]. exact (Hm _ _ _ E).
Qed.

Lemma in_lockstep_rollback error : in_lockstep (rollback modelURI error).
Proof.
  intros c o c'. rewrite rollback_sends. destruct (isOpen c); intros [= <- <-].
  - eexists [_], []. simpl. repeat split.
  - exists [], []. rewrite app_nil_r. repeat split.
Qed.

Lemma in_lockstep_autoRollback {A} (m : Async A) :
  in_lockstep m -> in_lockstep (autoRollback modelURI m).
Proof.
  intros Hm. apply in_lockstep_catch; [done|]. intros reason.
  apply in_lockstep_bind; [apply in_lockstep_rollback|]. intros _. apply in_lockstep_reject.
Qed.

Lemma in_lockstep_popNestedContext : in_lockstep popNestedContext.
Proof.
  apply in_lockstep_quiet. intros c o c'. unfold popNestedContext.
  destruct (nestedContexts c) as [|[result] [|[current] rest]]; by intros [= <- <-].
Qed.

Lemma in_lockstep_pushNestedContext : in_lockstep pushNestedContext.
Proof. apply in_lockstep_quiet. by intros c o c' [= <- <-]. Qed.

Lemma in_lockstep_try_finally {A B} (body : Async A) (cleanup : Async B) :
  in_lockstep body ->
  (forall c o c', cleanup c = (o, c') ->
     sent c' = sent c /\ upstream c' = upstream c /\ o <> Suspended /\ o <> OutOfFuel) ->
  in_lockstep (try_finally body cleanup).
Proof.
  intros Hb Hc c o c'. unfold try_finally.
  destruct (body c) as [[a|reason| |] c1] eqn:E;
    destruct (Hb _ _ _ E) as (l & u & Hl & Hu & H); try (intros [= <- <-]; by exists l, u).
  - intros E'. destruct (Hc _ _ _ E') as (Hs & Hups & Ho1 & Ho2).
    exists l, u. rewrite Hs, Hups. repeat split; try done. by destruct o.
  - destruct (cleanup c1) as [[b|reason'| |] c2] eqn:E';
      destruct (Hc _ _ _ E') as (Hs & Hups & Ho1 & Ho2); try done;
      intros [= <- <-]; exists l, u; by rewrite Hs, Hups.
Qed.

(** One [execute] out, one reply in; or none of either. *)
Lemma in_lockstep_sendExecuteMessage body : in_lockstep (sendExecuteMessage modelURI body).
Proof.
  intros c o c'. unfold sendExecuteMessage.
  destruct (isOpen c) eqn:Hopen; simpl; [|apply (in_lockstep_reject _ c)].
  unfold bind at 1, await_uuid.
  destruct (uuid c) as [|u|reason].
  - intros [= <- <-]. exists [], []. rewrite app_nil_r. simpl. repeat split; try done; lia.
  - destruct (peekNestedContext c); [|apply (in_lockstep_reject _ c)].
    unfold bind. rewrite socket_send_open by done. unfold await_reply. simpl.
    destruct (upstream c) as [|[r|reason'|reason'] replies] eqn:Hups.
    + intros [= <- <-]. eexists [_], []. simpl. rewrite Hups. repeat split; try done; lia.
    + destruct (nestedContexts c) as [|[current] below]; intros [= <- <-];
        eexists [_], [_]; simpl; repeat split.
    + intros [= <- <-]. eexists [_], [_]. simpl. repeat split.
    + intros [= <- <-]. eexists [_], [_]. simpl. repeat split.
  - apply (in_lockstep_reject _ c).
Qed.

Lemma in_lockstep_applyPatch p : in_lockstep (applyPatch modelURI p).
Proof.
  intros c o c'. unfold applyPatch.
  destruct (isOpen c); simpl; [|apply (in_lockstep_reject _ c)].
  destruct (is_empty_patch p); [apply (in_lockstep_resolve _ c)|].
  apply in_lockstep_autoRollback, in_lockstep_sendExecuteMessage.
Qed.

Lemma in_lockstep_runTransaction exec fn :
  (forall modelUri command, in_lockstep (exec modelUri command)) ->
  in_lockstep (runTransaction modelURI exec fn).
Proof.
  intros Hexec. induction fn as [result|reason|modelUri command k IH|p k IH].
  - apply in_lockstep_resolve.
  - apply in_lockstep_reject.
  - intros c o c'. simpl.
    destruct (exec modelUri command c) as [[r|reason| |] c1] eqn:E.
    + intros E'. by eapply (in_lockstep_then (exec modelUri command)); eauto.
    + intros E'. by eapply (in_lockstep_then (exec modelUri command)); eauto.
    + intros [= <- <-]. exact (Hexec _ _ _ _ _ E).
    + intros [= <- <-]. exact (Hexec _ _ _ _ _ E).
  - intros c o c'. simpl.
    destruct (applyPatch modelURI p c) as [[r|reason| |] c1] eqn:E.
    + intros E'. by eapply (in_lockstep_then (applyPatch modelURI p));
        eauto using in_lockstep_applyPatch.
    + intros E'. by eapply (in_lockstep_then (applyPatch modelURI p));
        eauto using in_lockstep_applyPatch.
    + intros [= <- <-]. exact (in_lockstep_applyPatch _ _ _ _ E).
    + intros [= <- <-]. exact (in_lockstep_applyPatch _ _ _ _ E).
Qed.

Lemma in_lockstep_doExecute exec modelUri command :
  (forall modelUri command, in_lockstep (exec modelUri command)) ->
  in_lockstep (doExecute modelURI hasProvider getCommands exec modelUri command).
Proof.
  intros Hexec. unfold doExecute, sendCommand, sendPatch.
  destruct (hasProvider (command_type command)); simpl;
    [|apply in_lockstep_sendExecuteMessage].
  apply in_lockstep_bind.
  { destruct (getCommands modelUri command); [apply in_lockstep_resolve|apply in_lockstep_reject]. }
  intros [fn|substitute|substitute]; try apply in_lockstep_sendExecuteMessage.
  apply in_lockstep_bind; [apply in_lockstep_pushNestedContext|]. intros _.
  apply in_lockstep_bind; [by apply in_lockstep_runTransaction|].
  intros []; simpl; [apply in_lockstep_popNestedContext|].
  apply in_lockstep_bind; [apply in_lockstep_popNestedContext|].
  intros _. apply in_lockstep_reject.
Qed.

Lemma in_lockstep_execute fuel modelUri command :
  in_lockstep (execute fuel modelUri command).
Proof.
  revert modelUri command. induction fuel as [|fuel IH]; intros modelUri command; simpl.
  - apply in_lockstep_quiet. by intros c o c' [= <- <-].
  - intros c o c'. destruct (isOpen c); simpl; [|apply (in_lockstep_reject _ c)].
    by apply in_lockstep_autoRollback, in_lockstep_doExecute.
Qed.

Lemma in_lockstep_performTriggers fuel triggers :
  in_lockstep (performTriggers fuel triggers).
Proof.
  unfold Transaction.performTriggers.
  apply in_lockstep_bind; [apply in_lockstep_pushNestedContext|]. intros _.
  apply in_lockstep_try_finally.
  - destruct triggers as [|operations|fn];
      (apply in_lockstep_bind; [|intros _; apply in_lockstep_resolve]).
    + apply in_lockstep_applyPatch.
    + apply in_lockstep_applyPatch.
    + apply in_lockstep_runTransaction. intros. apply in_lockstep_execute.
  - intros c o c'. unfold popNestedContext.
    destruct (nestedContexts c) as [|[result] [|[current] rest]]; by intros [= <- <-].
Qed.

Lemma in_lockstep_commit_loop fuel updateResult modelDelta :
  in_lockstep (commit_loop fuel updateResult modelDelta).
Proof.
  revert updateResult modelDelta.
  induction fuel as [|fuel IH]; intros updateResult modelDelta; simpl.
  - apply in_lockstep_quiet. by intros c o c' [= <- <-].
  - destruct (has_operations modelDelta); [|apply in_lockstep_resolve].
    apply in_lockstep_bind.
    { apply in_lockstep_autoRollback.
      destruct (getTriggers modelURI (default [] modelDelta));
        [apply in_lockstep_resolve|apply in_lockstep_reject]. }
    intros triggers. destruct (hasTriggers triggers); simpl; [|apply in_lockstep_resolve].
    apply in_lockstep_bind; [apply in_lockstep_performTriggers|].
    intros triggerResult. apply IH.
Qed.

Lemma in_lockstep_commit fuel : in_lockstep (commit fuel).
Proof.
  unfold Transaction.commit.
  apply in_lockstep_bind; [apply in_lockstep_popNestedContext|]. intros updateResult.
  intros c o c'. destruct (isOpen c); simpl; [|apply (in_lockstep_resolve _ c)].
  apply in_lockstep_bind; [apply in_lockstep_commit_loop|]. intros updateResult'.
  apply in_lockstep_bind; [|intros _; apply in_lockstep_resolve].
  clear. intros c o c'. unfold socket_send. destruct (socket c); intros [= <- <-].
  - eexists [_], []. simpl. repeat split.
  - exists [], []. rewrite app_nil_r. simpl. repeat split.
Qed.

(** X9: requests and replies go in step.  Whatever [execute], [applyPatch]
    or [commit] do, nested transaction functions and triggers included, the
    replies of Upstream are taken in the order of their arrival, and a call
    that resolves, or rejects, has had one reply for every [execute] message
    that it sent; a call still suspended has sent at most one [execute] that
    is unanswered. *)
Theorem requests_and_replies_in_step (c : Context) fuel modelUri command p o c' :
  execute fuel modelUri command c = (o, c') \/
  applyPatch modelURI p c = (o, c') \/
  commit fuel c = (o, c') ->
  exists l consumed,
    sent c' = sent c ++ l /\
    upstream c = consumed ++ upstream c' /\
    match o with
    | Suspended => length consumed <= length (of_type execute_msg l) <= S (length consumed)
    | _ => length (of_type execute_msg l) = length consumed
    end.
Proof.
  intros [E | [E | E]].
  - exact (in_lockstep_execute fuel modelUri command _ _ _ E).
  - exact (in_lockstep_applyPatch p _ _ _ E).
  - exact (in_lockstep_commit fuel _ _ _ E).
Qed.

End Lockstep.

(** ** What goes on the wire *)

Section Wire.

Variable modelURI : URI.
Variable hasProvider : string -> bool.
Variable getCommands : URI -> ModelServerCommand -> Settled Provided.
Variable getTriggers : URI -> list Operation -> Settled Triggers.

Local Abbreviation execute := (execute modelURI hasProvider getCommands).
Local Abbreviation commit := (commit modelURI hasProvider getCommands getTriggers).
Local Abbreviation commit_loop := (commit_loop modelURI hasProvider getCommands getTriggers).
Local Abbreviation close := (mkMessage close_msg modelURI EmptyData).
Local Abbreviation roll_back error := (mkMessage roll_back_msg modelURI (ErrorData error)).
Local Abbreviation execute_message body := (mkMessage execute_msg modelURI (ExecuteData body)).

(** X10: the wire of an edit.  Whatever [execute] and [applyPatch] do, what
    was sent before stays as it was and messages are only added; each added
    message is an [execute] or a [roll-back] for the model of this context;
    the UUID is not touched; and a socket that was not open is not open
    afterwards. *)
Theorem edits_on_the_wire (c : Context) fuel modelUri command p o c' :
  execute fuel modelUri command c = (o, c') \/ applyPatch modelURI p c = (o, c') ->
  uuid c' = uuid c /\
  (isOpen c = false -> isOpen c' = false) /\
  exists l,
    sent c' = sent c ++ l /\
    Forall (fun m => modeluri m = modelURI /\
                     (type m = execute_msg \/ type m = roll_back_msg)) l.
Proof.
  intros E.
  assert (Hsteps : rtc (step modelURI) c c').
  { destruct E as [E | E]; [eapply stepwise_execute, E | eapply stepwise_applyPatch, E]. }
  destruct (steps_sent _ _ _ Hsteps) as (Hu & Hclosed & l & Hl & _ & Hall).
  split; [exact Hu|]. split; [exact Hclosed|]. exists l. split; [exact Hl|].
  eapply Forall_impl; [exact Hall|]. simpl. intros m [Hm [H | [H _]]]; auto.
Qed.

(** X11: until the UUID has been received no [execute] message is sent,
    neither by [execute] or [applyPatch] nor by the triggers of [commit]; and
    while the UUID is pending a non-empty [applyPatch] on the open socket is
    left suspended, the context unchanged. *)
Theorem execute_messages_await_uuid (c : Context) :
  (forall u, uuid c <> PromiseResolved u) ->
  (forall fuel modelUri command p o c',
     execute fuel modelUri command c = (o, c') \/
     applyPatch modelURI p c = (o, c') \/
     commit fuel c = (o, c') ->
     exists l, sent c' = sent c ++ l /\ of_type execute_msg l = []) /\
  (forall p,
     uuid c = PromisePending -> isOpen c = true -> is_empty_patch p = false ->
     applyPatch modelURI p c = (Suspended, c)).
Proof.
  intros Hpending. split.
  - intros fuel modelUri command p o c' [E | [E | E]].
    + eapply no_execute_before_uuid; [eapply stepwise_execute, E | exact Hpending].
    + eapply no_execute_before_uuid; [eapply stepwise_applyPatch, E | exact Hpending].
    + revert E. unfold Transaction.commit. unfold bind at 1.
      destruct (popNestedContext c) as [[updateResult|reason| |] c1] eqn:Hpop;
        try (apply isOpen_popNestedContext in Hpop as [_ Hsent]; intros [= <- <-];
             exists []; by rewrite app_nil_r).
      assert (Hpending1 : forall u, uuid c1 <> PromiseResolved u).
      { revert Hpop. unfold popNestedContext.
        destruct (nestedContexts c) as [|[result] [|[current] rest]];
          intros [= <- <-]; exact Hpending. }
      apply isOpen_popNestedContext in Hpop as [_ Hsent]. rewrite <- Hsent.
      destruct (isOpen c1); simpl;
        [|intros [= <- <-]; exists []; by rewrite app_nil_r].
      unfold bind at 1.
      destruct (commit_loop fuel updateResult (patch updateResult) c1)
        as [[updateResult'|reason| |] c2] eqn:Hloop;
        apply stepwise_commit_loop in Hloop;
        destruct (no_execute_before_uuid _ _ _ Hloop Hpending1) as (l & Hl & Hnone);
        try (intros [= <- <-]; by exists l).
      unfold bind, socket_send. destruct (socket c2); intros [= <- <-]; [|by exists l].
      simpl. exists (l ++ [close]). rewrite Hl, app_assoc. split; [done|].
      unfold of_type in *. by rewrite filter_app, Hnone.
  - intros p Hu Hopen Hp. unfold applyPatch. rewrite Hopen, Hp. simpl.
    unfold autoRollback, catch, sendPatch, sendExecuteMessage. rewrite Hopen. simpl.
    unfold bind, await_uuid. by rewrite Hu.
Qed.

(** X12: [commit] where there is nothing to trigger.  If the popped
    aggregate has no operations, or the registry has no triggers for them
    (none, or an empty patch), [commit] on the open socket returns the popped
    aggregate as it is and sends the [close] message and nothing else; the
    registry of triggers is not asked about an aggregate without
    operations. *)
Theorem commit_without_triggers (c c1 : Context) root fuel :
  popNestedContext c = (Resolved root, c1) ->
  isOpen c = true ->
  has_operations (patch root) = false \/
  (exists triggers,
     getTriggers modelURI (default [] (patch root)) = Fulfilled triggers /\
     hasTriggers triggers = false) ->
  commit (S fuel) c = (Resolved root, set_sent (sent c ++ [close]) c1).
Proof.
  intros Hpop Hopen Hnone. unfold Transaction.commit. unfold bind at 1. rewrite Hpop.
  apply isOpen_popNestedContext in Hpop as [Hopen1 Hsent]. rewrite Hopen1, Hopen.
  cbn [negb]. unfold bind at 1.
  assert (Hloop : commit_loop (S fuel) root (patch root) c1 = (Resolved root, c1)).
  { simpl. destruct Hnone as [-> | (triggers & Htriggers & Hhas)]; [done|].
    destruct (has_operations (patch root)); [|done].
    unfold bind, autoRollback, catch. rewrite Htriggers. simpl. by rewrite Hhas. }
  rewrite Hloop. unfold bind. rewrite socket_send_open by congruence.
  simpl. by rewrite Hsent.
Qed.

(** X13: when the registry of triggers rejects, [commit] rejects for the
    same reason: the frame has been popped, one [roll-back] is sent and no
    [close]. *)
Theorem commit_with_failing_triggers (c c1 : Context) root fuel reason :
  popNestedContext c = (Resolved root, c1) ->
  isOpen c = true ->
  has_operations (patch root) = true ->
  getTriggers modelURI (default [] (patch root)) = Failed reason ->
  commit (S fuel) c = (Rejected reason, set_sent (sent c ++ [roll_back reason]) c1).
Proof.
  intros Hpop Hopen Hops Hfail. unfold Transaction.commit. unfold bind at 1. rewrite Hpop.
  apply isOpen_popNestedContext in Hpop as [Hopen1 Hsent]. rewrite Hopen1, Hopen. simpl.
  rewrite Hops. unfold bind at 1. unfold bind at 1, autoRollback, catch. rewrite Hfail.
  simpl. unfold bind. rewrite rollback_sends, Hopen1, Hopen. simpl. by rewrite Hsent.
Qed.

(** ** Commands that expand *)

Lemma runTransaction_apply_all exec (patches : list (list Operation))
    (results : list ModelUpdateResult) (c : Context) u top rest replies :
  isOpen c = true ->
  uuid c = PromiseResolved u ->
  nestedContexts c = mkNested top :: rest ->
  upstream c = map Reply results ++ replies ->
  length patches = length results ->
  Forall (fun p => p <> []) patches ->
  runTransaction modelURI exec (Scenarios.apply_all patches) c =
  (Resolved true,
   mkContext (socket c) (uuid c) (mkNested (merge_all top results) :: rest)
     (sent c ++ map (fun p => execute_message (ExecutePatch (ManyPatch p))) patches)
     replies).
Proof.
  revert results c top.
  induction patches as [|p patches IH]; intros results c top Hopen Hu Hstack Hups Hlen Hne.
  - destruct results; [|done]. simpl in *. rewrite app_nil_r.
    destruct c; simpl in *. by subst.
  - destruct results as [|r results]; [done|]. simpl in Hups, Hlen.
    apply Forall_cons in Hne as [Hp Hne].
    assert (Happly : applyPatch modelURI (ManyPatch p) c =
                     (Resolved r,
                      mkContext (socket c) (uuid c)
                        (mkNested (mergeModelUpdateResult top (Some r)) :: rest)
                        (sent c ++ [execute_message (ExecutePatch (ManyPatch p))])
                        (map Reply results ++ replies))).
    { unfold applyPatch. rewrite Hopen. destruct p; [done|]. simpl.
      unfold autoRollback, catch, sendPatch.
      rewrite (sendExecuteMessage_sends modelURI _ c u _ _ Hopen Hu Hstack).
      unfold await_reply. simpl. by rewrite Hups, Hstack. }
    simpl. rewrite Happly.
    rewrite (IH results _ (mergeModelUpdateResult top (Some r))); simpl; try done.
    + by rewrite <- app_assoc.
    + by injection Hlen.
Qed.

(** X14: a command that a provider expands into a transaction function
    applying patches [p1 .. pn], all answered.  Upstream receives [execute]
    for [p1], ..., [pn] in this order and nothing else; the call resolves
    with the aggregate of the replies merged, in this order, into a fresh
    frame; and that aggregate is merged into the frame of the caller, whose
    other frames are unchanged. *)
Theorem execute_expanded_into_patches (c : Context) u top rest replies fuel modelUri command
    (patches : list (list Operation)) (results : list ModelUpdateResult) :
  isOpen c = true ->
  uuid c = PromiseResolved u ->
  nestedContexts c = mkNested top :: rest ->
  upstream c = map Reply results ++ replies ->
  length patches = length results ->
  Forall (fun p => p <> []) patches ->
  hasProvider (command_type command) = true ->
  getCommands modelUri command = Fulfilled (ProvidedTransaction (Scenarios.apply_all patches)) ->
  let aggregate := merge_all emptyUpdateResult results in
  execute (S fuel) modelUri command c =
  (Resolved aggregate,
   mkContext (socket c) (uuid c)
     (mkNested (mergeModelUpdateResult top (Some aggregate)) :: rest)
     (sent c ++ map (fun p => execute_message (ExecutePatch (ManyPatch p))) patches)
     replies).
Proof.
  intros Hopen Hu Hstack Hups Hlen Hne Hsome Hfn aggregate. simpl. rewrite Hopen. simpl.
  unfold autoRollback, catch, doExecute. rewrite Hsome, Hfn. simpl.
  unfold bind at 1. simpl. unfold bind at 1, pushNestedContext. simpl.
  unfold bind at 1.
  rewrite (runTransaction_apply_all (execute fuel) patches results _ u emptyUpdateResult
             (mkNested top :: rest) replies); simpl; try done.
  by rewrite Hstack.
Qed.

(** X15: nothing bounds the expansion of commands.  When the provider of a
    command expands it into a function that executes the same command again,
    [execute] never settles: at whatever depth the expansion is cut off the
    call is still expanding, having pushed one frame for each level and sent
    nothing. *)
Theorem self_expanding_command_never_settles (c : Context) command k :
  isOpen c = true ->
  hasProvider (command_type command) = true ->
  (forall modelUri,
     getCommands modelUri command =
     Fulfilled (ProvidedTransaction (TxExecute modelUri command k))) ->
  forall fuel modelUri,
    execute fuel modelUri command c =
    (OutOfFuel,
     set_nestedContexts (replicate fuel (mkNested emptyUpdateResult) ++ nestedContexts c) c).
Proof.
  intros Hopen Hsome Hagain fuel. revert c Hopen.
  induction fuel as [|fuel IH]; intros c Hopen modelUri.
  - destruct c; reflexivity.
  - simpl. rewrite Hopen. simpl. unfold autoRollback, catch, doExecute.
    rewrite Hsome, Hagain. simpl. unfold bind at 1. simpl.
    unfold bind at 1, pushNestedContext. simpl. unfold bind at 1. simpl.
    rewrite IH by done. simpl.
    replace (replicate fuel (mkNested emptyUpdateResult) ++
             mkNested emptyUpdateResult :: nestedContexts c)
      with (mkNested emptyUpdateResult ::
            replicate fuel (mkNested emptyUpdateResult) ++ nestedContexts c); [done|].
    clear. induction fuel as [|fuel IH]; simpl; [done|]. by rewrite <- IH.
Qed.

End Wire.

(** ** The properties above, at the scenarios *)

Lemma edit_reply_witness :
  applyPatch Scenarios.m1 (ManyPatch Scenarios.P_a)
    (Scenarios.open_context [Reply (Scenarios.succeeded Scenarios.P_a)])
  = (Resolved (Scenarios.succeeded Scenarios.P_a),
     mkContext (Some OPEN) (PromiseResolved "0a1b")
       [mkNested (Scenarios.succeeded Scenarios.P_a)]
       [mkMessage execute_msg Scenarios.m1 (ExecuteData (ExecutePatch (ManyPatch Scenarios.P_a)))]
       []).
Proof.
  destruct (edit_reply Scenarios.m1 Scenarios.no_provider Scenarios.no_commands
              (Scenarios.open_context [Reply (Scenarios.succeeded Scenarios.P_a)])
              "0a1b" emptyUpdateResult [] (Scenarios.succeeded Scenarios.P_a) []
              eq_refl eq_refl eq_refl eq_refl) as [Hpatch _].
  exact (Hpatch (ManyPatch Scenarios.P_a) eq_refl).
Defined.

Lemma edit_without_reply_witness :
  applyPatch Scenarios.m1 (ManyPatch Scenarios.P_a) (Scenarios.open_context [ReplyError "boom"])
  = (Rejected "boom",
     mkContext (Some OPEN) (PromiseResolved "0a1b") [mkNested emptyUpdateResult]
       [mkMessage execute_msg Scenarios.m1 (ExecuteData (ExecutePatch (ManyPatch Scenarios.P_a)));
        mkMessage roll_back_msg Scenarios.m1 (ErrorData "boom")]
       []).
Proof.
  destruct (edit_without_reply Scenarios.m1 (Scenarios.open_context [ReplyError "boom"])
              "0a1b" (mkNested emptyUpdateResult) [] (ManyPatch Scenarios.P_a)
              eq_refl eq_refl eq_refl eq_refl) as [Herror _].
  exact (Herror "boom" [] eq_refl).
Defined.

Lemma no_frame_left_witness :
  nestedContexts Scenarios.committed = [] /\
  Transaction.commit Scenarios.m1 Scenarios.no_provider Scenarios.no_commands
    Scenarios.no_triggers 1 Scenarios.committed
  = (Rejected TypeError, Scenarios.committed).
Proof.
  split; [reflexivity|].
  destruct (no_frame_left Scenarios.m1 Scenarios.no_provider Scenarios.no_commands
              Scenarios.no_triggers Scenarios.committed eq_refl) as [Hcommit _].
  exact (Hcommit 1).
Defined.

Lemma edits_keep_frames_below_witness :
  exists top',
    nestedContexts
      (applyPatch Scenarios.m1 (ManyPatch Scenarios.P_a)
         (Scenarios.open_context [Reply (Scenarios.succeeded Scenarios.P_a)])).2
    = [top'].
Proof.
  destruct (edits_keep_frames_below Scenarios.m1 Scenarios.no_provider Scenarios.no_commands
              (Scenarios.open_context [Reply (Scenarios.succeeded Scenarios.P_a)])
              (mkNested emptyUpdateResult) [] eq_refl) as [_ Hpatch].
  exact (Hpatch (ManyPatch Scenarios.P_a) _ _ eq_refl).
Defined.

Lemma rejected_transaction_leaves_frame_witness :
  exists c' frames frame,
    Transaction.execute Scenarios.m1 Scenarios.provides_T1 Scenarios.commands_throw 1
      Scenarios.m1 Scenarios.T1 (Scenarios.open_context [])
    = (Rejected "refused", c') /\
    nestedContexts c' = frames ++ frame :: nestedContexts (Scenarios.open_context []) /\
    length (nestedContexts (Scenarios.open_context [])) < length (nestedContexts c').
Proof.
  exact (rejected_transaction_leaves_frame Scenarios.m1 Scenarios.provides_T1
           Scenarios.commands_throw (Scenarios.open_context []) _ 0 Scenarios.m1
           Scenarios.T1 (TxThrow "refused") "refused" eq_refl eq_refl eq_refl eq_refl).
Defined.

Lemma triggers_S4_are_patches delta fn :
  Scenarios.triggers_S4 Scenarios.m1 delta <> Fulfilled (TriggerTransaction fn).
Proof.
  unfold Scenarios.triggers_S4. destruct delta as [|o delta]; [discriminate|].
  destruct (String.eqb (path o) "/name"); discriminate.
Qed.

Lemma commit_leaves_no_frame_witness :
  nestedContexts
    (Transaction.commit Scenarios.m1 Scenarios.no_provider Scenarios.no_commands
       Scenarios.triggers_S4 2 Scenarios.before_commit_S4).2
  = [].
Proof.
  apply (commit_leaves_no_frame Scenarios.m1 Scenarios.no_provider Scenarios.no_commands
           Scenarios.triggers_S4 triggers_S4_are_patches Scenarios.before_commit_S4
           (Scenarios.succeeded Scenarios.P_a) 2
           (Transaction.commit Scenarios.m1 Scenarios.no_provider Scenarios.no_commands
              Scenarios.triggers_S4 2 Scenarios.before_commit_S4).1);
    [reflexivity | reflexivity | discriminate].
Defined.

Lemma requests_and_replies_in_step_witness :
  exists l consumed,
    sent (applyPatch Scenarios.m1 (ManyPatch Scenarios.P_a)
            (Scenarios.open_context [Reply (Scenarios.succeeded Scenarios.P_a)])).2
    = [] ++ l /\
    [Reply (Scenarios.succeeded Scenarios.P_a)] = consumed ++ [] /\
    length (of_type execute_msg l) = length consumed.
Proof.
  exact (requests_and_replies_in_step Scenarios.m1 Scenarios.no_provider Scenarios.no_commands
           Scenarios.no_triggers
           (Scenarios.open_context [Reply (Scenarios.succeeded Scenarios.P_a)])
           0 Scenarios.m1 Scenarios.T1 (ManyPatch Scenarios.P_a) _ _
           (or_intror (or_introl eq_refl))).
Defined.

Lemma edits_on_the_wire_witness :
  exists l,
    sent (applyPatch Scenarios.m1 (ManyPatch Scenarios.P_a)
            (Scenarios.open_context [ReplyError "boom"])).2
    = [] ++ l /\
    Forall (fun m => modeluri m = Scenarios.m1 /\
                     (type m = execute_msg \/ type m = roll_back_msg)) l.
Proof.
  destruct (edits_on_the_wire Scenarios.m1 Scenarios.no_provider Scenarios.no_commands
              (Scenarios.open_context [ReplyError "boom"])
              0 Scenarios.m1 Scenarios.T1 (ManyPatch Scenarios.P_a) _ _
              (or_intror eq_refl)) as (_ & _ & H).
  exact H.
Defined.

Lemma execute_messages_await_uuid_witness :
  applyPatch Scenarios.m1 (ManyPatch Scenarios.P_a) (Scenarios.awaiting_uuid [])
  = (Suspended, Scenarios.awaiting_uuid []).
Proof.
  destruct (execute_messages_await_uuid Scenarios.m1 Scenarios.no_provider
              Scenarios.no_commands Scenarios.no_triggers (Scenarios.awaiting_uuid [])
              ltac:(discriminate)) as [_ Hsuspended].
  exact (Hsuspended (ManyPatch Scenarios.P_a) eq_refl eq_refl eq_refl).
Defined.

Lemma commit_without_triggers_witness :
  Transaction.commit Scenarios.m1 Scenarios.no_provider Scenarios.no_commands
    Scenarios.no_triggers 1 Scenarios.applied_P_a
  = (Resolved (Scenarios.succeeded Scenarios.P_a),
     mkContext (Some OPEN) (PromiseResolved "0a1b") []
       [mkMessage close_msg Scenarios.m1 EmptyData] []).
Proof.
  apply (commit_without_triggers Scenarios.m1 Scenarios.no_provider Scenarios.no_commands
           Scenarios.no_triggers Scenarios.applied_P_a
           (set_nestedContexts [] Scenarios.applied_P_a)
           (Scenarios.succeeded Scenarios.P_a) 0 eq_refl eq_refl).
  right. exists NoTriggers. split; reflexivity.
Defined.

Lemma commit_with_failing_triggers_witness :
  Transaction.commit Scenarios.m1 Scenarios.no_provider Scenarios.no_commands
    Scenarios.triggers_fail 1 Scenarios.applied_P_a
  = (Rejected "no triggers today",
     mkContext (Some OPEN) (PromiseResolved "0a1b") []
       [mkMessage roll_back_msg Scenarios.m1 (ErrorData "no triggers today")] []).
Proof.
  exact (commit_with_failing_triggers Scenarios.m1 Scenarios.no_provider Scenarios.no_commands
           Scenarios.triggers_fail Scenarios.applied_P_a
           (set_nestedContexts [] Scenarios.applied_P_a)
           (Scenarios.succeeded Scenarios.P_a) 0 "no triggers today"
           eq_refl eq_refl eq_refl eq_refl).
Defined.

Lemma execute_expanded_into_patches_witness :
  Transaction.execute Scenarios.m1 Scenarios.provides_T1 Scenarios.commands_all 1
    Scenarios.m1 Scenarios.T1
    (Scenarios.open_context
       [Reply (Scenarios.succeeded Scenarios.P_a); Reply (Scenarios.succeeded Scenarios.P_b)])
  = (Resolved (Scenarios.succeeded (Scenarios.P_a ++ Scenarios.P_b)),
     mkContext (Some OPEN) (PromiseResolved "0a1b")
       [mkNested (Scenarios.succeeded (Scenarios.P_a ++ Scenarios.P_b))]
       [mkMessage execute_msg Scenarios.m1 (ExecuteData (ExecutePatch (ManyPatch Scenarios.P_a)));
        mkMessage execute_msg Scenarios.m1 (ExecuteData (ExecutePatch (ManyPatch Scenarios.P_b)))]
       []).
Proof.
  apply (execute_expanded_into_patches Scenarios.m1 Scenarios.provides_T1
           Scenarios.commands_all
           (Scenarios.open_context
              [Reply (Scenarios.succeeded Scenarios.P_a);
               Reply (Scenarios.succeeded Scenarios.P_b)])
           "0a1b" emptyUpdateResult [] [] 0 Scenarios.m1 Scenarios.T1
           [Scenarios.P_a; Scenarios.P_b]
           [Scenarios.succeeded Scenarios.P_a; Scenarios.succeeded Scenarios.P_b]
           eq_refl eq_refl eq_refl eq_refl eq_refl);
    [repeat constructor; discriminate | reflexivity | reflexivity].
Defined.

Lemma self_expanding_command_never_settles_witness :
  Transaction.execute Scenarios.m1 Scenarios.provides_T1 Scenarios.commands_again 3
    Scenarios.m1 Scenarios.T1 (Scenarios.open_context [])
  = (OutOfFuel,
     set_nestedContexts (replicate 4 (mkNested emptyUpdateResult)) (Scenarios.open_context [])).
Proof.
  exact (self_expanding_command_never_settles Scenarios.m1 Scenarios.provides_T1
           Scenarios.commands_again (Scenarios.open_context []) Scenarios.T1
           Scenarios.and_then_succeed eq_refl eq_refl (fun _ => eq_refl) 3 Scenarios.m1).
Defined.

End TransactionFacts.

Module ManagerFacts.

Import Manager.

Section Client.

Variable normalize : URI -> URI.

Local Abbreviation openTransaction_request := (openTransaction_request normalize).

(** No context registered for the model: the request goes on to the
    [POST], and nothing changes until the response. *)
Lemma openTransaction_request_new (s : Client) (modelUri : URI) :
  transactions s !! toString (normalize modelUri) = None ->
  openTransaction_request modelUri s =
  (Posting (toString (normalize modelUri)) (normalize modelUri), s).
Proof. intros H. unfold Manager.openTransaction_request. by rewrite H. Qed.

(** The response registers the new root under the key, in place of
    whatever was there, and leaves the other keys alone. *)
Lemma openTransaction_response_registers uriKey modelUri replies (s : Client) :
  let (handle, s') := openTransaction_response uriKey modelUri replies s in
  handle = RootContext (next_context s) /\
  transactions s' !! uriKey = Some (next_context s) /\
  (forall k, k <> uriKey -> transactions s' !! k = transactions s !! k) /\
  contexts s' !! next_context s = Some (modelUri, Transaction.opening replies).
Proof.
  simpl. split; [done|]. split; [apply lookup_insert_eq|].
  split; [|apply lookup_insert_eq]. intros k Hk. by apply lookup_insert_ne.
Qed.

Lemma closeTransaction_transactions (modeluri : URI) (tc : ContextId) (s : Client) :
  transactions (closeTransaction modeluri tc s) =
  if decide (transactions s !! toString modeluri = Some tc)
  then delete (toString modeluri) (transactions s)
  else transactions s.
Proof. unfold closeTransaction. by case_decide. Qed.

(** A context that is not the registered one closes: the registered one
    stays. *)
Lemma socket_onclose_other (s : Client) (uriKey : string) (tc tc' : ContextId) :
  transactions s !! uriKey = Some tc ->
  tc' <> tc ->
  transactions (socket_onclose tc' s) !! uriKey = Some tc.
Proof.
  intros Hreg Hne. unfold socket_onclose.
  destruct (contexts s !! tc') as [[modelUri c]|]; [|done].
  cbn [transactions]. rewrite closeTransaction_transactions.
  case_decide as Hcur; [|done].
  rewrite lookup_delete_ne; [done|]. intros Hkey. rewrite Hkey in Hcur. congruence.
Qed.

(** C5: while a root context is registered for a model, (1) a further
    [openTransaction] for that model, under any URI with the same
    normalized form, delegates to it: the handle is a child of that
    context, whose stack grows by a frame, and neither the map nor the set
    of root contexts changes; (2) the close call-back removes the entry of
    the model exactly when it is called for the registered context; (3) so
    the socket of any other context closing leaves the registered one in
    place, and the socket of the registered one closing removes it. *)
Theorem one_root_per_model (s : Client) (modelUri : URI) (tc : ContextId) :
  let uriKey := toString (normalize modelUri) in
  transactions s !! uriKey = Some tc ->
  (let (request, s') := openTransaction_request modelUri s in
   request = Nested (ChildOf tc) /\
   transactions s' = transactions s /\
   next_context s' = next_context s /\
   dom (contexts s') = dom (contexts s) /\
   forall closing c,
     contexts s !! tc = Some (closing, c) ->
     contexts s' !! tc =
     Some (closing,
           Transaction.set_nestedContexts
             (Transaction.mkNested Transaction.emptyUpdateResult :: Transaction.nestedContexts c)
             c)) /\
  (forall tc',
     transactions (closeTransaction (normalize modelUri) tc' s) =
     if decide (tc' = tc) then delete uriKey (transactions s) else transactions s) /\
  (forall tc', tc' <> tc ->
     transactions (socket_onclose tc' s) !! uriKey = Some tc) /\
  (forall c,
     contexts s !! tc = Some (normalize modelUri, c) ->
     transactions (socket_onclose tc s) !! uriKey = None).
Proof.
  intros uriKey Hreg. split; [|split; [|split]].
  - unfold Manager.openTransaction_request. fold uriKey. rewrite Hreg. simpl.
    repeat split.
    + apply set_eq. intros k. rewrite !elem_of_dom, lookup_alter.
      case_decide; [subst k|done]. by rewrite <- !not_eq_None_Some, fmap_None.
    + intros closing c Hc. by rewrite lookup_alter_eq, Hc.
  - intros tc'. rewrite closeTransaction_transactions. fold uriKey. rewrite Hreg.
    repeat case_decide; congruence.
  - intros tc' Hne. by apply socket_onclose_other.
  - intros c Hc. unfold socket_onclose. rewrite Hc.
    cbn [transactions]. rewrite closeTransaction_transactions. fold uriKey.
    rewrite decide_True by done. apply lookup_delete_eq.
Qed.

End Client.

(** C5 at scenario S5: the second [openTransaction], here with the scheme in
    upper case, is a child of the registered root. *)
Lemma one_root_per_model_witness :
  transactions Scenarios.one_transaction !! "file:/m1" = Some 0 /\
  (openTransaction_request Scenarios.normalize_scheme "FILE:/m1" Scenarios.one_transaction).1
  = Nested (ChildOf 0) /\
  transactions
    (openTransaction_request Scenarios.normalize_scheme "FILE:/m1" Scenarios.one_transaction).2
  = transactions Scenarios.one_transaction.
Proof.
  assert (H : transactions Scenarios.one_transaction !! "file:/m1" = Some 0)
    by apply lookup_insert_eq.
  split; [exact H|].
  pose proof (one_root_per_model Scenarios.normalize_scheme Scenarios.one_transaction
                "FILE:/m1" 0 H) as [Hopen _].
  destruct (openTransaction_request Scenarios.normalize_scheme "FILE:/m1"
              Scenarios.one_transaction) as [request s'].
  destruct Hopen as (Hrequest & Htransactions & _). split; assumption.
Defined.

(** The entry is the registered root's alone: when two roots were made for
    one model (both requests sent before either response), the map holds the
    later one, the socket of the earlier one closing does not remove it, and
    a further [openTransaction] is a child of it. *)
Example earlier_root_does_not_clobber :
  transactions Scenarios.two_responses !! "file:/m1" = Some 1 /\
  transactions (socket_onclose 0 Scenarios.two_responses) !! "file:/m1" = Some 1 /\
  (openTransaction_request Scenarios.normalize_scheme "file:/m1"
     (socket_onclose 0 Scenarios.two_responses)).1 = Nested (ChildOf 1).
Proof.
  assert (H : transactions Scenarios.two_responses !! "file:/m1" = Some 1)
    by apply lookup_insert_eq.
  assert (H' : transactions (socket_onclose 0 Scenarios.two_responses) !! "file:/m1" = Some 1)
    by (by apply socket_onclose_other).
  split; [exact H|]. split; [exact H'|].
  unfold openTransaction_request. cbv zeta. unfold toString.
  change (Scenarios.normalize_scheme "file:/m1") with "file:/m1".
  destruct (transactions _ !! _) as [tc|] eqn:E; simpl; congruence.
Qed.

(** The root context is in the map as soon as the [POST] has returned, while
    its socket is still connecting and its UUID pending; an [openTransaction]
    for the same model at that time already hands out a child of it. *)
Example child_during_handshake :
  contexts Scenarios.one_transaction !! 0 = Some ("file:/m1", Transaction.opening []) /\
  Transaction.uuid (Transaction.opening []) = Transaction.PromisePending /\
  (openTransaction_request Scenarios.normalize_scheme "file:/m1" Scenarios.one_transaction).1
  = Nested (ChildOf 0).
Proof.
  split; [apply lookup_insert_eq|]. split; [reflexivity|].
  assert (H : transactions Scenarios.one_transaction !! "file:/m1" = Some 0)
    by apply lookup_insert_eq.
  unfold openTransaction_request. cbv zeta. unfold toString.
  change (Scenarios.normalize_scheme "file:/m1") with "file:/m1".
  destruct (transactions _ !! _) as [tc|] eqn:E; simpl; congruence.
Qed.

(** ** The map and the store of contexts *)

Section Store.

Variable normalize : URI -> URI.

Lemma closeTransaction_contexts (modeluri : URI) (tc : ContextId) (s : Client) :
  contexts (closeTransaction modeluri tc s) = contexts s /\
  next_context (closeTransaction modeluri tc s) = next_context s.
Proof. unfold closeTransaction. by case_decide. Qed.

(** X16: a context whose socket has closed is not handed out again.  The
    map keeps each context under the string of the URI that its close
    call-back holds; this is so for a client without transactions and stays
    so after a request to open, after the response to a [POST] (which
    registers under the string of the URI that it passes on), and after the
    closing of a socket.  Therefore, once [socket.onclose] of a context has
    run, no key of the map leads to that context, and no later
    [openTransaction] makes a child of it. *)
Theorem closed_context_is_forgotten (s : Client) :
  well_formed s ->
  (forall modelUri, well_formed (openTransaction_request normalize modelUri s).2) /\
  (forall modelUri replies,
     well_formed (openTransaction_response (toString modelUri) modelUri replies s).2) /\
  (forall tc, well_formed (socket_onclose tc s)) /\
  (forall tc uriKey, transactions (socket_onclose tc s) !! uriKey <> Some tc) /\
  (forall tc modelUri,
     (openTransaction_request normalize modelUri (socket_onclose tc s)).1
     <> Nested (ChildOf tc)).
Proof.
  intros [Hreg Hnext].
  assert (Hforgotten : forall tc uriKey,
             transactions (socket_onclose tc s) !! uriKey <> Some tc).
  { intros tc uriKey. unfold socket_onclose.
    destruct (contexts s !! tc) as [[modelUri c]|] eqn:Hc.
    - cbn [transactions]. rewrite closeTransaction_transactions.
      case_decide as Hcur.
      + intros [Hne H]%lookup_delete_Some.
        destruct (Hreg _ _ H) as [c' Hc'].
        pose proof (eq_trans (eq_sym Hc) Hc') as Heq. injection Heq as Hkey _.
        by destruct Hne.
      + intros H. destruct (Hreg _ _ H) as [c' Hc'].
        pose proof (eq_trans (eq_sym Hc) Hc') as Heq. injection Heq as Hkey _.
        apply Hcur. unfold toString. by rewrite Hkey.
    - intros H. destruct (Hreg _ _ H) as [c' Hc'].
      pose proof (eq_trans (eq_sym Hc) Hc') as Heq. discriminate Heq. }
  split; [|split; [|split; [|split]]].
  - intros modelUri. unfold openTransaction_request.
    destruct (transactions s !! toString (normalize modelUri)) as [tc|]; simpl; [|done].
    split; simpl.
    + intros uriKey tc' H. destruct (Hreg _ _ H) as [c Hc].
      destruct (decide (tc = tc')) as [<-|Hne].
      * exists (Transaction.openTransaction c).2.
        rewrite lookup_alter_eq. by rewrite (fmap_Some_2 _ _ _ Hc).
      * rewrite lookup_alter_ne by done. eauto.
    + intros tc'. rewrite lookup_alter_is_Some. eauto.
  - intros modelUri replies. split; simpl.
    + intros k tc. destruct (decide (toString modelUri = k)) as [<-|Hne].
      * rewrite lookup_insert_eq. intros [= <-]. rewrite lookup_insert_eq. eauto.
      * rewrite lookup_insert_ne by done. intros H. destruct (Hreg _ _ H) as [c Hc].
        rewrite lookup_insert_ne; [eauto|].
        assert (tc < next_context s) by (apply Hnext; by eexists). lia.
    + intros tc. rewrite lookup_insert_is_Some. intros [<- | [_ H]]; [lia|].
      apply Hnext in H. lia.
  - intros tc. unfold socket_onclose.
    destruct (contexts s !! tc) as [[modelUri c]|] eqn:Hc; [|done].
    destruct (closeTransaction_contexts modelUri tc s) as [Hcontexts Hnext'].
    split; simpl.
    + intros k tc'. rewrite closeTransaction_transactions, Hcontexts. intros H.
      assert (Hin : transactions s !! k = Some tc').
      { case_decide; [|done]. by apply lookup_delete_Some in H as [_ H]. }
      destruct (Hreg _ _ Hin) as [c' Hc'].
      destruct (decide (tc = tc')) as [<-|Hne].
      * rewrite lookup_insert_eq.
        pose proof (eq_trans (eq_sym Hc) Hc') as Heq. injection Heq as -> _. eauto.
      * rewrite lookup_insert_ne by done. eauto.
    + intros tc'. rewrite Hcontexts, Hnext', lookup_insert_is_Some.
      intros [<- | [_ H]]; [|by apply Hnext]. apply Hnext. by eexists.
  - exact Hforgotten.
  - intros tc modelUri. unfold openTransaction_request. cbv zeta.
    destruct (transactions (socket_onclose tc s) !! toString (normalize modelUri))
      as [tc'|] eqn:H; simpl; [|done].
    intros [= ->]. by apply Hforgotten in H.
Qed.

(** X17: opening and closing cancel.  When no context is registered for a
    model, registering the root made by the response and then closing its
    socket gives back the map of transactions as it was; the context stays
    in the store with its socket gone, and the next request for the model
    goes to Upstream again. *)
Theorem open_then_close (s : Client) (modelUri : URI) replies :
  transactions s !! toString (normalize modelUri) = None ->
  let uriKey := toString (normalize modelUri) in
  let opened := (openTransaction_response uriKey (normalize modelUri) replies s).2 in
  let closed := socket_onclose (next_context s) opened in
  transactions closed = transactions s /\
  contexts closed !! next_context s =
    Some (normalize modelUri, Transaction.onclose (Transaction.opening replies)) /\
  openTransaction_request normalize modelUri closed
  = (Posting uriKey (normalize modelUri), closed).
Proof.
  intros Hfree uriKey opened closed.
  assert (Hstored : contexts opened !! next_context s =
                    Some (normalize modelUri, Transaction.opening replies))
    by apply lookup_insert_eq.
  assert (Htransactions : transactions closed = transactions s).
  { unfold closed, socket_onclose. rewrite Hstored. cbn [transactions].
    rewrite closeTransaction_transactions. unfold opened. cbn [transactions snd].
    fold uriKey. rewrite decide_True by apply lookup_insert_eq.
    by apply delete_insert_id. }
  split; [exact Htransactions|]. split.
  - unfold closed, socket_onclose. rewrite Hstored. cbn [contexts]. apply lookup_insert_eq.
  - unfold openTransaction_request. cbv zeta. fold uriKey. rewrite Htransactions.
    fold uriKey in Hfree. by rewrite Hfree.
Qed.

(** X18: the closing of a socket concerns its context alone.  After
    [socket.onclose] of a stored context that context has no socket, so that
    [isOpen] is false, and [execute] and [applyPatch] on it reject with
    'Socket is closed.'; every other context is as it was, and so is the
    entry of every key that was not registered to the closing context. *)
Theorem socket_onclose_closes (s : Client) (tc : ContextId) (modelUri : URI)
    (c : Transaction.Context) :
  contexts s !! tc = Some (modelUri, c) ->
  let closed := socket_onclose tc s in
  contexts closed !! tc = Some (modelUri, Transaction.onclose c) /\
  Transaction.isOpen (Transaction.onclose c) = false /\
  (forall uri hasProvider getCommands fuel modelUri' command p,
     Transaction.execute uri hasProvider getCommands (S fuel) modelUri' command
       (Transaction.onclose c)
     = (Transaction.Rejected "Socket is closed.", Transaction.onclose c) /\
     Transaction.applyPatch uri p (Transaction.onclose c)
     = (Transaction.Rejected "Socket is closed.", Transaction.onclose c)) /\
  (forall tc', tc' <> tc -> contexts closed !! tc' = contexts s !! tc') /\
  (forall uriKey, transactions s !! uriKey <> Some tc ->
                  transactions closed !! uriKey = transactions s !! uriKey).
Proof.
  intros Hc closed. unfold closed, socket_onclose. rewrite Hc.
  destruct (closeTransaction_contexts modelUri tc s) as [Hcontexts _].
  split; [apply lookup_insert_eq|]. split; [done|]. split; [done|]. split.
  - intros tc' Hne. cbn [contexts]. rewrite lookup_insert_ne by done. by rewrite Hcontexts.
  - intros uriKey Hother. cbn [transactions]. rewrite closeTransaction_transactions.
    case_decide as Hcur; [|done]. rewrite lookup_delete_ne; [done|].
    intros Hkey. rewrite Hkey in Hcur. congruence.
Qed.

End Store.


Lemma well_formed_no_transaction : well_formed Scenarios.no_transaction.
Proof.
  split.
  - intros uriKey tc H.
    change ((∅ : gmap string ContextId) !! uriKey = Some tc) in H.
    by rewrite lookup_empty in H.
  - intros tc [x H].
    change ((∅ : gmap ContextId (URI * Transaction.Context)) !! tc = Some x) in H.
    by rewrite lookup_empty in H.
Qed.

(** X16 at scenario S5: the root context of [file:/m1] is registered; when
    its socket has closed, the key does not lead to it any more and the next
    [openTransaction] for the model does not make a child of it. *)
Lemma closed_context_is_forgotten_witness :
  well_formed Scenarios.one_transaction /\
  transactions Scenarios.one_transaction !! "file:/m1" = Some 0 /\
  transactions (socket_onclose 0 Scenarios.one_transaction) !! "file:/m1" <> Some 0 /\
  (openTransaction_request Scenarios.normalize_scheme "FILE:/m1"
     (socket_onclose 0 Scenarios.one_transaction)).1 <> Nested (ChildOf 0) /\
  well_formed (socket_onclose 0 Scenarios.one_transaction).
Proof.
  destruct (closed_context_is_forgotten Scenarios.normalize_scheme Scenarios.no_transaction
              well_formed_no_transaction) as (_ & Hresponse & _).
  pose proof (Hresponse "file:/m1" []) as Hone.
  destruct (closed_context_is_forgotten Scenarios.normalize_scheme Scenarios.one_transaction
              Hone) as (_ & _ & Hclosed & Hforgotten & Hparent).
  split; [exact Hone|]. split; [apply lookup_insert_eq|].
  split; [exact (Hforgotten 0 "file:/m1")|].
  split; [exact (Hparent 0 "FILE:/m1") | exact (Hclosed 0)].
Defined.

Lemma open_then_close_witness :
  transactions
    (socket_onclose 0
       (openTransaction_response "file:/m1" "file:/m1" [] Scenarios.no_transaction).2)
  = transactions Scenarios.no_transaction.
Proof.
  destruct (open_then_close Scenarios.normalize_scheme Scenarios.no_transaction "FILE:/m1" []
              (lookup_empty _)) as [Hmap _].
  exact Hmap.
Defined.

Lemma socket_onclose_closes_witness :
  contexts (socket_onclose 0 Scenarios.one_transaction) !! 0 =
    Some ("file:/m1", Transaction.onclose (Transaction.opening [])) /\
  Transaction.isOpen (Transaction.onclose (Transaction.opening [])) = false.
Proof.
  destruct (socket_onclose_closes Scenarios.one_transaction 0 "file:/m1"
              (Transaction.opening []) (lookup_insert_eq _ _ _)) as (Hstored & Hclosed & _).
  split; [exact Hstored | exact Hclosed].
Defined.

End ManagerFacts.

Module GatewayFacts.

Import Gateway.

(** ** Strings *)

Lemma strip_trailing_slashes_no_slash (s q : string) :
  strip_trailing_slashes s <> q +:+ "/".
Proof.
  revert q. induction s as [|a s IH]; intros q; simpl.
  - destruct q; discriminate.
  - destruct (strip_trailing_slashes s) as [|b stripped] eqn:E.
    + destruct (Ascii.eqb_spec a "/") as [->|Hne].
      * destruct q; discriminate.
      * destruct q as [|c q]; simpl; [intros [= Ha]; congruence|].
        destruct q; discriminate.
    + destruct q as [|c q]; simpl; [discriminate|].
      intros [= -> Hq]. by apply (IH q).
Qed.

Lemma string_app_nil_r (s : string) : s +:+ "" = s.
Proof.
  induction s as [|a s IH]; [reflexivity|].
  change (String a s +:+ "") with (String a (s +:+ "")). by rewrite IH.
Qed.

Lemma string_app_assoc (s t u : string) : (s +:+ t) +:+ u = s +:+ (t +:+ u).
Proof.
  induction s as [|a s IH]; [reflexivity|].
  change (String a ((s +:+ t) +:+ u) = String a (s +:+ (t +:+ u))). by rewrite IH.
Qed.

Lemma strip_trailing_slashes_decompose (s : string) :
  exists n, s = strip_trailing_slashes s +:+ slashes n.
Proof.
  induction s as [|a s [n IH]]; simpl.
  - by exists 0.
  - destruct (strip_trailing_slashes s) as [|b stripped] eqn:E.
    + change (s = slashes n) in IH.
      destruct (Ascii.eqb_spec a "/") as [->|Hne].
      * exists (S n). change (String "/" s = String "/" (slashes n)). by rewrite <- IH.
      * exists n. change (String a s = String a (slashes n)). by rewrite <- IH.
    + exists n. change (String a s = String a (String b stripped +:+ slashes n)).
      by rewrite <- IH.
Qed.

Lemma slashes_snoc (n : nat) : String "/" (slashes n) = slashes n +:+ "/".
Proof.
  induction n as [|n IH]; [reflexivity|].
  change (String "/" (String "/" (slashes n)) = String "/" (slashes n +:+ "/")).
  by rewrite <- IH.
Qed.

Lemma strip_trailing_slashes_snoc (s : string) :
  strip_trailing_slashes (s +:+ "/") = strip_trailing_slashes s.
Proof.
  induction s as [|a s IH]; [reflexivity|].
  change (strip_trailing_slashes (String a s +:+ "/"))
    with (match strip_trailing_slashes (s +:+ "/") with
          | EmptyString => if Ascii.eqb a "/" then EmptyString else String a EmptyString
          | String _ _ as stripped => String a stripped
          end).
  by rewrite IH.
Qed.

Lemma strip_trailing_slashes_app_slashes (s : string) (n : nat) :
  strip_trailing_slashes (s +:+ slashes n) = strip_trailing_slashes s.
Proof.
  induction n as [|n IH].
  - change (slashes 0) with EmptyString. by rewrite string_app_nil_r.
  - change (slashes (S n)) with (String "/" (slashes n)).
    by rewrite slashes_snoc, <- string_app_assoc, strip_trailing_slashes_snoc.
Qed.

Lemma strip_trailing_slashes_fixed (s : string) :
  (forall q, s <> q +:+ "/") -> strip_trailing_slashes s = s.
Proof.
  intros Hend. destruct (strip_trailing_slashes_decompose s) as [[|n] Hn].
  - change (slashes 0) with EmptyString in Hn. by rewrite string_app_nil_r in Hn.
  - exfalso. change (slashes (S n)) with (String "/" (slashes n)) in Hn.
    rewrite slashes_snoc, <- string_app_assoc in Hn. exact (Hend _ Hn).
Qed.

(** The expression of the code strips the trailing slashes, in the sense of
    the design. *)
Lemma strip_trailing_slashes_correct (s p : string) :
  without_trailing_slashes s p <-> p = strip_trailing_slashes s.
Proof.
  split.
  - intros [[n ->] Hend].
    by rewrite strip_trailing_slashes_app_slashes, strip_trailing_slashes_fixed.
  - intros ->. split.
    + apply strip_trailing_slashes_decompose.
    + apply strip_trailing_slashes_no_slash.
Qed.

Lemma full_path_of_stripped (r : RouterEntry) (p : string) :
  full_path_of r p <-> stripped_full_path r p.
Proof.
  unfold full_path_of, stripped_full_path.
  split; intros (layer & Hlayer & H); exists layer; (split; [exact Hlayer|]);
    by apply strip_trailing_slashes_correct.
Qed.

Lemma drop_prefix_app (prefix s : string) : drop_prefix prefix (prefix +:+ s) = Some s.
Proof. induction prefix as [|a prefix IH]; simpl; [done|]. by rewrite Ascii.eqb_refl. Qed.

Lemma drop_prefix_Some (prefix s rest : string) :
  drop_prefix prefix s = Some rest -> s = prefix +:+ rest.
Proof.
  revert s. induction prefix as [|a prefix IH]; intros s; simpl; [by intros [= ->]|].
  destruct s as [|b s]; [done|]. destruct (Ascii.eqb_spec a b) as [->|]; [|done].
  intros H. by rewrite (IH _ H).
Qed.

Lemma span_app (p : Ascii.ascii -> bool) (taken : string) a (rest : string) :
  string_forall p taken = true -> p a = false ->
  span p (taken +:+ String a rest) = (taken, String a rest).
Proof.
  intros Hall Ha. induction taken as [|b taken IH]; simpl in *.
  - by rewrite Ha.
  - apply andb_prop in Hall as [Hb Hall]. by rewrite Hb, (IH Hall).
Qed.

Lemma span_Some (p : Ascii.ascii -> bool) (s taken rest : string) :
  span p s = (taken, rest) -> s = taken +:+ rest /\ string_forall p taken = true.
Proof.
  revert taken rest. induction s as [|a s IH]; intros taken rest; simpl.
  - by intros [= <- <-].
  - destruct (p a) eqn:Ha; [|by intros [= <- <-]].
    destruct (span p s) as [taken' rest'] eqn:E. intros [= <- <-].
    destruct (IH _ _ eq_refl) as [-> Hall]. simpl. by rewrite Ha, Hall.
Qed.

Lemma span_all (p : Ascii.ascii -> bool) (s : string) :
  string_forall p s = true -> (span p s).1 = s.
Proof.
  induction s as [|a s IH]; simpl; [done|].
  intros [Ha Hall]%andb_prop. rewrite Ha. specialize (IH Hall).
  destruct (span p s). simpl in *. by rewrite IH.
Qed.

Lemma string_forall_app (p : Ascii.ascii -> bool) (s t : string) :
  string_forall p (s +:+ t) = string_forall p s && string_forall p t.
Proof. induction s as [|a s IH]; simpl; [done|]. by rewrite IH, andb_assoc. Qed.

(** Every standard route begins with a slash and lies on one line. *)
Lemma standard_route_shape (standard : string) :
  standard ∈ STANDARD_ROUTES ->
  exists tail,
    standard = String "/" tail /\
    string_forall (fun a => negb (line_terminator a)) tail = true.
Proof.
  unfold STANDARD_ROUTES. rewrite elem_of_list_to_set, list_elem_of_In. simpl.
  intros H. repeat (destruct H as [<- | H]; [eexists; split; reflexivity|]). done.
Qed.

(** ** The regular expression of [isModelServerRoute] *)

Lemma isModelServerRoute_standard (p : string) :
  standard_api_path p -> isModelServerRoute p = true.
Proof.
  intros (version & standard & -> & Hne & Hversion & Hstandard).
  destruct (standard_route_shape _ Hstandard) as (tail & -> & Htail).
  unfold isModelServerRoute, match_api_route.
  rewrite drop_prefix_app, (span_app version_char version "/" tail Hversion eq_refl).
  destruct version as [|a version]; [done|]. simpl.
  rewrite (span_all _ _ Htail). by apply bool_decide_eq_true.
Qed.

Lemma isModelServerRoute_single_line (p : string) :
  single_line p -> isModelServerRoute p = true -> standard_api_path p.
Proof.
  unfold isModelServerRoute, match_api_route, single_line. intros Hline.
  destruct (drop_prefix "/api/v" p) as [rest|] eqn:Hprefix; [|done].
  apply drop_prefix_Some in Hprefix as ->.
  destruct (span version_char rest) as [version rest'] eqn:Hspan.
  apply span_Some in Hspan as [-> Hversion].
  destruct version as [|a version]; [done|].
  destruct rest' as [|b tail]; [done|].
  destruct (Ascii.eqb_spec b "/") as [->|]; [|done].
  rewrite !string_forall_app in Hline.
  apply andb_prop in Hline as [_ [_ Hline]%andb_prop]. simpl in Hline.
  rewrite (span_all _ _ Hline). intros Hstandard%bool_decide_eq_true.
  exists (String a version), (String "/" tail). done.
Qed.

(** ** What [install] puts into the backstop set *)

Lemma elem_of_add_all (paths : gset string) (l : list string) (p : string) :
  p ∈ foldl (fun paths backstopped => paths ∪ {[backstopped]}) paths l <-> p ∈ paths \/ p ∈ l.
Proof.
  revert paths. induction l as [|q l IH]; intros paths; simpl.
  - rewrite elem_of_nil. tauto.
  - rewrite IH, elem_of_union, elem_of_singleton, elem_of_cons. tauto.
Qed.

Lemma elem_of_backstopped_routes (r : RouterEntry) (p : string) :
  p ∈ backstopped_routes r <->
  (explicitlyBackstopped r = true \/ isModelServerRoute p = false) /\ full_path_of r p.
Proof.
  unfold backstopped_routes, full_path_of.
  rewrite list_elem_of_filter, list_elem_of_In, map_map, in_map_iff.
  rewrite orb_True, negb_True, Is_true_true, Is_true_false.
  split; intros [Hkeep (layer & H1 & H2)]; (split; [exact Hkeep|]); exists layer.
  - by rewrite list_elem_of_In.
  - by rewrite <- list_elem_of_In.
Qed.

Lemma elem_of_install_router (paths : gset string) (r : RouterEntry) (p : string) :
  p ∈ install_router paths r <->
  p ∈ paths \/ needs_backstop r = true /\ p ∈ backstopped_routes r.
Proof.
  unfold install_router. destruct (needs_backstop r).
  - rewrite elem_of_add_all. tauto.
  - split; [tauto|]. intros [H|[H _]]; done.
Qed.

Lemma elem_of_install (routers : list RouterEntry) (paths : gset string) (p : string) :
  p ∈ install routers paths <->
  p ∈ paths \/ exists r, r ∈ routers /\ needs_backstop r = true /\ p ∈ backstopped_routes r.
Proof.
  unfold install. revert paths. induction routers as [|r routers IH]; intros paths; simpl.
  - split; [tauto|]. intros [H|(r & Hr & _)]; [done|]. by apply elem_of_nil in Hr.
  - rewrite IH, elem_of_install_router. split.
    + intros [[H|[H1 H2]]|(r' & Hr' & H)]; [by left|right..].
      * exists r. split; [left|done].
      * exists r'. split; [by right|done].
    + intros [H|(r' & [->|Hr']%elem_of_cons & H)]; [tauto|tauto|].
      right. by exists r'.
Qed.

Lemma needs_backstop_falsy (r : RouterEntry) :
  needs_backstop r = true <-> options r ≫= forwardToUpstream <> Some true.
Proof.
  unfold needs_backstop. destruct (options r) as [[id [[]|]]|]; simpl; split; congruence.
Qed.

Lemma explicitlyBackstopped_false (r : RouterEntry) :
  needs_backstop r = true ->
  explicitlyBackstopped r = true <-> options r ≫= forwardToUpstream = Some false.
Proof.
  unfold needs_backstop, explicitlyBackstopped.
  destruct (options r) as [[id [[]|]]|]; simpl; intros H; split; try congruence; try done.
Qed.

(** Where the design and the code agree.  After route installation (from
    an empty set) every path of the backstop set is, in the words of the
    design, a full path, trailing slashes stripped, of a route of a router
    whose [forwardToUpstream] is falsy, and is not a standard path of the API
    unless that router set [forwardToUpstream: false] itself; every such
    path that lies on one line is in the set; and a request that is not an
    upgrade is forwarded to Upstream exactly when its path is not in the
    set. *)
Lemma backstop_set_and_forwarding (routers : list RouterEntry) :
  let backstopPaths := install routers ∅ in
  (forall p, p ∈ backstopPaths -> in_backstop_set routers p) /\
  (forall p, single_line p -> in_backstop_set routers p -> p ∈ backstopPaths) /\
  (forall req,
     req_upgrade req = false ->
     (req_path req ∈ backstopPaths -> forward backstopPaths req = NotForwarded) /\
     (req_path req ∉ backstopPaths ->
      forward backstopPaths req =
      Forwarded (mkRelay (req_url req) (toUpperCase (req_method req)) (req_body req)))).
Proof.
  intros backstopPaths. split; [|split].
  - intros p [H|(r & Hr & Hneeds & [Hkeep Hfull]%elem_of_backstopped_routes)]%elem_of_install;
      [by apply not_elem_of_empty in H|].
    exists r. split; [done|]. split; [by apply needs_backstop_falsy|].
    split; [by apply full_path_of_stripped|].
    intros Hstandard%isModelServerRoute_standard.
    apply explicitlyBackstopped_false; [done|]. destruct Hkeep; congruence.
  - intros p Hline
      (r & Hr & Hfalsy%needs_backstop_falsy & Hfull%full_path_of_stripped & Hstandard).
    apply elem_of_install. right. exists r. split; [done|]. split; [done|].
    apply elem_of_backstopped_routes. split; [|done].
    destruct (isModelServerRoute p) eqn:Hroute; [left|by right].
    apply explicitlyBackstopped_false; [done|].
    by apply Hstandard, isModelServerRoute_single_line.
  - intros req Hupgrade. unfold forward, shouldBackstop. rewrite Hupgrade. split; intros H.
    + by rewrite bool_decide_eq_true_2.
    + by rewrite bool_decide_eq_false_2.
Qed.





Lemma in_backstop_set_S6 : in_backstop_set [Scenarios.plugin_router] "/api/v2/foo".
Proof.
  exists Scenarios.plugin_router. split; [by left|]. split; [done|]. split.
  - apply full_path_of_stripped. exists (mkLayer (Some "/foo")). split; [by left|done].
  - intros Hstandard%isModelServerRoute_standard. done.
Qed.

(** Scenario S6: [/api/v2/foo] is served locally and not forwarded;
    [/api/v2/models], a standard route of the same router, is forwarded. *)
Lemma scenario_S6 :
  "/api/v2/foo" ∈ install [Scenarios.plugin_router] ∅ /\
  forward (install [Scenarios.plugin_router] ∅) (Scenarios.get "/api/v2/foo") = NotForwarded /\
  forward (install [Scenarios.plugin_router] ∅) (Scenarios.get "/api/v2/models")
  = Forwarded (mkRelay "/api/v2/models" "GET" "").
Proof.
  destruct (backstop_set_and_forwarding [Scenarios.plugin_router]) as (Hsound & Hin & Hforward).
  assert (Hfoo : "/api/v2/foo" ∈ install [Scenarios.plugin_router] ∅)
    by exact (Hin "/api/v2/foo" eq_refl in_backstop_set_S6).
  split; [exact Hfoo|]. split.
  - exact (proj1 (Hforward (Scenarios.get "/api/v2/foo") eq_refl) Hfoo).
  - apply (proj2 (Hforward (Scenarios.get "/api/v2/models") eq_refl)).
    intros (r & [->|[]%elem_of_nil]%elem_of_cons & _ & _ & Hstandard)%Hsound.
    enough (Some false = None) by done. symmetry. apply Hstandard.
    by exists "2", "/models".
Qed.



(** ** Stripping, recognising and installing, in general *)

Lemma strip_trailing_slashes_idempotent (s : string) :
  strip_trailing_slashes (strip_trailing_slashes s) = strip_trailing_slashes s.
Proof.
  induction s as [|a s IH]; simpl; [done|].
  destruct (strip_trailing_slashes s) as [|b stripped] eqn:E.
  - destruct (Ascii.eqb_spec a "/") as [->|Hne]; simpl; [done|].
    by destruct (Ascii.eqb_spec a "/").
  - change (strip_trailing_slashes (String a (String b stripped)))
      with (match strip_trailing_slashes (String b stripped) with
            | EmptyString => if Ascii.eqb a "/" then EmptyString else String a EmptyString
            | String _ _ as stripped' => String a stripped'
            end).
    by rewrite IH.
Qed.

(** X19: what stripping does.  Every string is its stripped form followed by
    a run of slashes; the stripped form does not end in a slash; so stripping
    twice is stripping once, and a string that does not end in a slash is
    left as it is. *)
Theorem strip_trailing_slashes_spec (s : string) :
  (exists n, s = strip_trailing_slashes s +:+ slashes n) /\
  (forall q, strip_trailing_slashes s <> q +:+ "/") /\
  strip_trailing_slashes (strip_trailing_slashes s) = strip_trailing_slashes s /\
  ((forall q, s <> q +:+ "/") -> strip_trailing_slashes s = s).
Proof.
  split; [apply strip_trailing_slashes_decompose|].
  split; [apply strip_trailing_slashes_no_slash|].
  split; [apply strip_trailing_slashes_idempotent|].
  intros Hend. destruct (strip_trailing_slashes_decompose s) as [n Hn].
  destruct n as [|n].
  - change (slashes 0) with EmptyString in Hn. by rewrite string_app_nil_r in Hn.
  - exfalso. change (slashes (S n)) with (String "/" (slashes n)) in Hn.
    assert (Hslashes : forall k, String "/" (slashes k) = slashes k +:+ "/").
    { clear. induction k as [|k IH]; [reflexivity|].
      change (String "/" (String "/" (slashes k)) = String "/" (slashes k +:+ "/")).
      by rewrite <- IH. }
    rewrite Hslashes, <- string_app_assoc in Hn. exact (Hend _ Hn).
Qed.

(** X20: what [isModelServerRoute] recognises.  For a route on one line the
    test holds exactly when the route is /api/v, a non-empty version of
    digits and dots, and a member of STANDARD_ROUTES, with nothing before,
    between or after: no version, another prefix, or a further segment, and
    the route is not recognised. *)
Theorem isModelServerRoute_spec (p : string) :
  single_line p ->
  isModelServerRoute p = true <-> standard_api_path p.
Proof.
  intros Hline. split.
  - by apply isModelServerRoute_single_line.
  - apply isModelServerRoute_standard.
Qed.

(** X21: the regular expression is not anchored at its end and its [.] stops
    at a line terminator.  A standard path of the API followed by a line
    terminator and anything at all is therefore still recognised as a route
    of the Upstream server, and is not backstopped by default. *)
Theorem isModelServerRoute_ignores_further_lines (p : string) (a : Ascii.ascii)
    (rest : string) :
  standard_api_path p ->
  line_terminator a = true ->
  isModelServerRoute (p +:+ String a rest) = true.
Proof.
  intros (version & standard & -> & Hne & Hversion & Hstandard) Ha.
  destruct (standard_route_shape _ Hstandard) as (tail & -> & Htail).
  unfold isModelServerRoute, match_api_route.
  rewrite !string_app_assoc, drop_prefix_app.
  change (String "/" tail +:+ String a rest) with (String "/" (tail +:+ String a rest)).
  rewrite (span_app version_char version "/" (tail +:+ String a rest) Hversion eq_refl).
  destruct version as [|b version]; [done|]. simpl.
  rewrite (span_app (fun b => negb (line_terminator b)) tail a rest Htail)
    by (by rewrite Ha).
  simpl. by apply bool_decide_eq_true.
Qed.

(** X22: installation only adds, and the order of the routers does not
    matter.  What was in the set stays in it; installing two lists of routers
    one after the other gives the union of what each gives; and any
    rearrangement of the routers gives the same set. *)
Theorem install_order (routers routers' : list RouterEntry) (paths : gset string) :
  paths ⊆ install routers paths /\
  install (routers ++ routers') paths = install routers paths ∪ install routers' ∅ /\
  (routers ≡ₚ routers' -> install routers paths = install routers' paths).
Proof.
  split; [|split].
  - intros p Hp. apply elem_of_install. by left.
  - apply set_eq. intros p.
    rewrite elem_of_union, !elem_of_install. split.
    + intros [H | (r & [Hr|Hr]%elem_of_app & H)]; [by left; left|left; right|right; right];
        by exists r.
    + intros [[H | (r & Hr & H)] | [H | (r & Hr & H)]]; [by left|right| |right].
      * exists r. split; [apply elem_of_app; by left|done].
      * by apply not_elem_of_empty in H.
      * exists r. split; [apply elem_of_app; by right|done].
  - intros Hperm. apply set_eq. intros p. rewrite !elem_of_install.
    split; (intros [H | (r & Hr & H)]; [by left|right]); exists r;
      (split; [|done]); [by rewrite <- Hperm | by rewrite Hperm].
Qed.


Lemma strip_trailing_slashes_spec_witness :
  strip_trailing_slashes "/api/v2/foo//" = "/api/v2/foo" /\
  strip_trailing_slashes "/api/v2/foo" = "/api/v2/foo".
Proof.
  split; [reflexivity|].
  destruct (strip_trailing_slashes_spec "/api/v2/foo") as (_ & _ & _ & Hsame).
  apply Hsame. intros q. exact (strip_trailing_slashes_no_slash "/api/v2/foo" q).
Defined.

Lemma isModelServerRoute_spec_witness :
  single_line "/api/v2.1/validation/constraints" /\
  standard_api_path "/api/v2.1/validation/constraints".
Proof.
  split; [reflexivity|].
  exact (proj1 (isModelServerRoute_spec "/api/v2.1/validation/constraints" eq_refl) eq_refl).
Defined.

Lemma standard_api_path_models : standard_api_path "/api/v2/models".
Proof. by exists "2", "/models". Qed.

Lemma isModelServerRoute_ignores_further_lines_witness :
  isModelServerRoute ("/api/v2/models" +:+ String "010" "/anything") = true.
Proof.
  exact (isModelServerRoute_ignores_further_lines "/api/v2/models" "010" "/anything"
           standard_api_path_models eq_refl).
Defined.

Lemma install_order_witness :
  install [Scenarios.plugin_router; mkRouter "/x" [mkLayer (Some "/y")] None] ∅ =
  install [mkRouter "/x" [mkLayer (Some "/y")] None; Scenarios.plugin_router] ∅.
Proof.
  destruct (install_order [Scenarios.plugin_router; mkRouter "/x" [mkLayer (Some "/y")] None]
              [mkRouter "/x" [mkLayer (Some "/y")] None; Scenarios.plugin_router] ∅)
    as (_ & _ & Hperm).
  apply Hperm. apply Permutation_swap.
Defined.

End GatewayFacts.
